(** * argh::wparser (wargh.h): command-line token classification

    A shallow embedding of the wide-character argument parser of
    [src/wargh.h] and the proofs of its specification.

    - [std::wstring] is a list of code units ([wchar_t] as [N]);
    - [registeredParams_] ([std::set]) is a [gset], [flags_]
      ([std::multiset]) a [gmultiset], [params_] ([std::multimap]) a
      key-sorted association list with stable insertion, [pos_args_] and
      [args_] ([std::vector]) are lists;
    - [assert] is active: a failed assertion ends the call with
      [AssertFailed];
    - [std::wistringstream] is a buffer with a read position and the
      state bits; [istr >> number] follows the three stages of
      [num_get::do_get] in the classic locale. *)

From Stdlib Require Import ZArith NArith List Ascii String Bool Lia Sorted.
From stdpp Require Import base decidable option list gmap gmultiset.
Import ListNotations.

Local Open Scope Z_scope.

(** ** Wide strings *)

Definition wchar_t : Type := N.
Definition wstring : Type := list wchar_t.

(** A narrow character literal used where a [wchar_t] is expected
    (['-' == arg[0]], [name.find('=')]). *)
Definition widen (c : ascii) : wchar_t := N_of_ascii c.

(** The wide literal [L"..."]. *)
Definition L (s : string) : wstring := List.map widen (list_ascii_of_string s).

Definition wchar_eqb (a b : wchar_t) : bool := N.eqb a b.

(** [std::wstring::find(c)]: the index of the first occurrence, [None]
    for [npos]. *)
Fixpoint find (c : wchar_t) (s : wstring) : option nat :=
  match s with
  | [] => None
  | x :: s' => if wchar_eqb x c then Some 0%nat
               else match find c s' with
                    | Some k => Some (S k)
                    | None => None
                    end
  end.

(** [std::wstring::find_first_not_of(c)]. *)
Fixpoint find_first_not_of (c : wchar_t) (s : wstring) : option nat :=
  match s with
  | [] => None
  | x :: s' => if wchar_eqb x c
               then match find_first_not_of c s' with
                    | Some k => Some (S k)
                    | None => None
                    end
               else Some 0%nat
  end.

(** [s.substr(pos)] and [s.substr(pos, n)], for [pos <= s.size()]. *)
Definition substr_from (s : wstring) (pos : nat) : wstring := skipn pos s.
Definition substr (s : wstring) (pos n : nat) : wstring := firstn n (skipn pos s).

(** [std::wstring::operator<]: lexicographic on the code units. *)
Fixpoint wstring_ltb (a b : wstring) : bool :=
  match a, b with
  | _, [] => false
  | [], _ :: _ => true
  | x :: a', y :: b' =>
      if N.ltb x y then true
      else if N.ltb y x then false
      else wstring_ltb a' b'
  end.

(** ** Stream extraction of a [double]

    [std::wistringstream istr(arg); double number; istr >> number;]

    [is_number] rests on the formatted extraction of the C++ library.
    The model follows the description of the standard: the sentry skips
    white space, stage 2 of [num_get::do_get] accumulates the characters
    of the field, stage 3 converts the field by the rules of [strtod] and
    sets [failbit] when the field is not converted as a whole or the
    value is too large. "Allowed as the next character of the field" is
    read as libstdc++ and the Microsoft library read it: the field is a
    decimal floating-point number in the making, and the first character
    that cannot continue it ends the field and stays in the stream. All
    of this is in the classic locale (no digit grouping, '.' as decimal
    point). *)

Module Stream.

Record wistringstream := mk_stream {
  str : wstring;          (* the buffer, [str()] *)
  gpos : nat;             (* characters already read *)
  eofbit : bool;
  failbit : bool;
  badbit : bool
}.

(** [std::wistringstream(value)]: good state, nothing read. *)
Definition of_wstring (value : wstring) : wistringstream :=
  mk_stream value 0 false false false.

(** Default constructed stream: empty buffer. *)
Definition empty : wistringstream := of_wstring [].

Definition setstate (fail_ eof_ : bool) (s : wistringstream) : wistringstream :=
  mk_stream (str s) (gpos s) (eofbit s || eof_) (failbit s || fail_) (badbit s).

Definition consume (n : nat) (s : wistringstream) : wistringstream :=
  mk_stream (str s) (gpos s + n) (eofbit s) (failbit s) (badbit s).

(** [fail()] is [failbit | badbit], [bad()] is [badbit]. *)
Definition fail (s : wistringstream) : bool := failbit s || badbit s.
Definition bad (s : wistringstream) : bool := badbit s.
(** [explicit operator bool]. *)
Definition good_for_use (s : wistringstream) : bool := negb (fail s).

Definition unread (s : wistringstream) : wstring := skipn (gpos s) (str s).

(** [iswspace] in the classic locale. *)
Definition iswspace (c : wchar_t) : bool :=
  ((9 <=? c) && (c <=? 13))%N || (c =? 32)%N.

Definition is_digit (c : wchar_t) : bool := ((48 <=? c) && (c <=? 57))%N.
Definition is_sign (c : wchar_t) : bool :=
  wchar_eqb c (widen "+") || wchar_eqb c (widen "-").
Definition is_point (c : wchar_t) : bool := wchar_eqb c (widen ".").
Definition is_exp (c : wchar_t) : bool :=
  wchar_eqb c (widen "e") || wchar_eqb c (widen "E").

(** The sentry of a formatted input function ([skipws] is set by
    default): leading white space is skipped. *)
Fixpoint skip_ws (s : wstring) : wstring :=
  match s with
  | c :: s' => if iswspace c then skip_ws s' else s
  | [] => []
  end.

(** Stage 2 of [num_get::do_get] for a floating-point value: characters
    are accumulated as long as each is allowed as the next character of
    a decimal floating-point field: digits, one decimal point before
    the exponent, one exponent letter after a mantissa digit, a sign
    directly after the exponent letter. *)
Fixpoint accumulate (found_mantissa found_dec found_sci : bool)
    (s : wstring) : wstring :=
  match s with
  | [] => []
  | c :: s' =>
      if is_digit c then c :: accumulate true found_dec found_sci s'
      else if is_point c && negb found_dec && negb found_sci
      then c :: accumulate found_mantissa true found_sci s'
      else if is_exp c && negb found_sci && found_mantissa
      then c :: match s' with
                | c' :: s'' =>
                    if is_sign c'
                    then c' :: accumulate found_mantissa found_dec true s''
                    else accumulate found_mantissa found_dec true s'
                | [] => []
                end
      else []
  end.

(** The field starts with an optional sign. *)
Definition stage2 (s : wstring) : wstring :=
  match s with
  | c :: s' => if is_sign c then c :: accumulate false false false s'
               else accumulate false false false s
  | [] => []
  end.

(** The value a decimal field denotes: [(-1)^neg * mant * 10^exp10],
    kept exact. *)
Record decimal := mk_decimal { neg : bool; mant : N; exp10 : Z }.

Fixpoint span_digits (s : wstring) : wstring * wstring :=
  match s with
  | c :: s' => if is_digit c
               then let '(ds, r) := span_digits s' in (c :: ds, r)
               else ([], s)
  | [] => ([], [])
  end.

Definition digits_value (ds : wstring) : N :=
  fold_left (fun acc c => (10 * acc + (c - 48))%N) ds 0%N.

(** The exponent part of a decimal subject sequence: letter, optional
    sign, at least one digit. Returns the exponent and the rest; without
    a complete exponent part nothing is consumed. *)
Definition exponent_part (s3 : wstring) : Z * wstring :=
  match s3 with
  | c :: s' =>
      if is_exp c then
        let '(eneg, s4) :=
          match s' with
          | c' :: s'' => if is_sign c' then (wchar_eqb c' (widen "-"), s'')
                         else (false, s')
          | [] => (false, s')
          end in
        let '(exp_ds, s5) := span_digits s4 in
        match exp_ds with
        | [] => (0, s3)
        | _ :: _ =>
            let e := Z.of_N (digits_value exp_ds) in
            (if eneg then - e else e, s5)
        end
      else (0, s3)
  | [] => (0, s3)
  end.

(** [strtod] on a decimal subject sequence: the longest prefix of the
    form sign, digits with an optional point (at least one digit),
    optional exponent part. Returns the value and the unconverted rest;
    [None] when no conversion is performed. [strtod_unsigned] is the
    part after the sign. The white space that [strtod] skips first is
    left out: a field of stage 2 never starts with white space. *)
Definition strtod_unsigned (negative : bool) (s1 : wstring)
  : option (decimal * wstring) :=
  let '(int_ds, s2) := span_digits s1 in
  let '(frac_ds, s3) :=
    match s2 with
    | c :: s' => if is_point c then span_digits s' else ([], s2)
    | [] => ([], s2)
    end in
  match int_ds ++ frac_ds with
  | [] => None
  | _ :: _ =>
      let m := digits_value (int_ds ++ frac_ds) in
      let scale := Z.of_nat (length frac_ds) in
      let '(e, rest) := exponent_part s3 in
      Some (mk_decimal negative m (e - scale), rest)
  end.

Definition strtod (s : wstring) : option (decimal * wstring) :=
  match s with
  | c :: s' => if is_sign c then strtod_unsigned (wchar_eqb c (widen "-")) s'
               else strtod_unsigned false s
  | [] => None
  end.

(** Magnitudes from [2^1024 - 2^970] on round to infinity: the value is
    too large for a [double] (IEEE binary64, round to nearest even).
    Values too small are not an error of stage 3. *)
Definition huge : Z := 2 ^ 1024 - 2 ^ 970.

Definition too_large (d : decimal) : bool :=
  if 0 <=? exp10 d
  then huge <=? Z.of_N (mant d) * 10 ^ exp10 d
  else huge * 10 ^ (- exp10 d) <=? Z.of_N (mant d).

(** Stage 3: the accumulated field is converted by the rules of
    [strtod]; [failbit] when the entire field is not converted or the
    value is too large. *)
Definition stage3_fails (field : wstring) : bool :=
  match strtod field with
  | Some (d, []) => too_large d
  | _ => true
  end.

(** [istr >> number] (the extracted value itself is not used by the
    parser and is left out). *)
Definition extract_double (istr : wistringstream) : wistringstream :=
  if fail istr then setstate true false istr
  else
    let input := unread istr in
    let rest := skip_ws input in
    let skipped := (length input - length rest)%nat in
    match rest with
    | [] => setstate true true (consume skipped istr)   (* sentry fails at end *)
    | _ :: _ =>
        let field := stage2 rest in
        let at_end := (length field =? length rest)%nat in
        setstate (stage3_fails field) at_end
          (consume (skipped + length field) istr)
    end.

End Stream.

(** ** The parser *)

Inductive assertion :=
| ArgNotEmpty          (* assert(0 != arg.size()), in is_option *)
| PreferModesExclusive (* assert(!(mode & PREFER_FLAG..) || !(mode & PREFER_PARAM..)) *).

Inductive outcome (A : Type) :=
| Done (a : A)
| AssertFailed (which : assertion)
| OutOfFuel.
Arguments Done {A} a.
Arguments AssertFailed {A} which.
Arguments OutOfFuel {A}.

Definition bind {A B} (x : outcome A) (f : A -> outcome B) : outcome B :=
  match x with
  | Done a => f a
  | AssertFailed w => AssertFailed w
  | OutOfFuel => OutOfFuel
  end.

Notation "x <- e1 ;; e2" := (bind e1 (fun x => e2))
  (at level 100, e1 at next level, right associativity).

Definition assert (b : bool) (which : assertion) : outcome unit :=
  if b then Done tt else AssertFailed which.

(** [enum Mode] *)
Definition PREFER_FLAG_FOR_UNREG_OPTION : Z := Z.shiftl 1 0.
Definition PREFER_PARAM_FOR_UNREG_OPTION : Z := Z.shiftl 1 1.
Definition NO_SPLIT_ON_EQUALSIGN : Z := Z.shiftl 1 2.
Definition SINGLE_DASH_IS_MULTIFLAG : Z := Z.shiftl 1 3.

(** [mode & bit] used as a condition. *)
Definition has_bit (mode bit : Z) : bool := negb (Z.land mode bit =? 0).

(** [std::multimap<std::wstring, std::wstring>]: sorted by key, equal
    keys in insertion order. [insert] places the pair at the upper bound
    of its key. *)
Definition multimap : Type := list (wstring * wstring).

Fixpoint multimap_insert (kv : wstring * wstring) (m : multimap) : multimap :=
  match m with
  | [] => [kv]
  | e :: m' => if wstring_ltb (fst kv) (fst e) then kv :: m
               else e :: multimap_insert kv m'
  end.

Record wparser := mk_wparser {
  args_ : list wstring;
  params_ : multimap;
  pos_args_ : list wstring;
  flags_ : gmultiset wstring;
  registeredParams_ : gset wstring;
  empty_ : wstring
}.

(** [wparser() = default] *)
Definition new_parser : wparser := mk_wparser [] [] [] ∅ ∅ [].

Definition set_args (a : list wstring) (p : wparser) : wparser :=
  mk_wparser a (params_ p) (pos_args_ p) (flags_ p) (registeredParams_ p) (empty_ p).
Definition params_insert (kv : wstring * wstring) (p : wparser) : wparser :=
  mk_wparser (args_ p) (multimap_insert kv (params_ p)) (pos_args_ p) (flags_ p)
             (registeredParams_ p) (empty_ p).
Definition pos_args_emplace_back (a : wstring) (p : wparser) : wparser :=
  mk_wparser (args_ p) (params_ p) (pos_args_ p ++ [a]) (flags_ p)
             (registeredParams_ p) (empty_ p).
Definition flags_emplace (name : wstring) (p : wparser) : wparser :=
  mk_wparser (args_ p) (params_ p) (pos_args_ p) ({[+ name +]} ⊎ flags_ p)
             (registeredParams_ p) (empty_ p).
Definition registeredParams_insert (name : wstring) (p : wparser) : wparser :=
  mk_wparser (args_ p) (params_ p) (pos_args_ p) (flags_ p)
             ({[ name ]} ∪ registeredParams_ p) (empty_ p).
(** [flags_.clear(); params_.clear(); pos_args_.clear();] *)
Definition clear (p : wparser) : wparser :=
  mk_wparser (args_ p) [] [] ∅ (registeredParams_ p) (empty_ p).

(** [wparser::is_number] *)
Definition is_number (arg : wstring) : bool :=
  let istr := Stream.of_wstring arg in
  let istr := Stream.extract_double istr in
  negb (Stream.fail istr || Stream.bad istr).

(** [wparser::is_option] *)
Definition is_option (arg : wstring) : outcome bool :=
  _ <- assert (negb (length arg =? 0)%nat) ArgNotEmpty ;;
  if is_number arg then Done false
  else Done (match arg with
             | c :: _ => wchar_eqb (widen "-") c
             | [] => false
             end).

(** [wparser::trim_leading_dashes] *)
Definition trim_leading_dashes (name : wstring) : wstring :=
  match find_first_not_of (widen "-") name with
  | Some pos => substr_from name pos
  | None => name
  end.

(** [wparser::is_param] *)
Definition is_param (p : wparser) (name : wstring) : bool :=
  bool_decide (name ∈ registeredParams_ p).

(** [wparser::got_flag] *)
Definition got_flag (p : wparser) (name : wstring) : bool :=
  bool_decide (trim_leading_dashes name ∈ flags_ p).

(** [wparser::add_param(std::wstring const&)] *)
Definition add_param (name : wstring) (p : wparser) : wparser :=
  registeredParams_insert (trim_leading_dashes name) p.

(** [wparser::add_params(std::initializer_list<...>)] *)
Definition add_params (init_list : list wstring) (p : wparser) : wparser :=
  fold_left (fun p name => registeredParams_insert (trim_leading_dashes name) p)
            init_list p.

(** [args_[i]]; the loop only reads indices below [args_.size()]. *)
Definition arg_at (p : wparser) (i : nat) : wstring := nth i (args_ p) [].

(** [name.back()] and [name.resize(name.size() - 1)]. *)
Definition back (name : wstring) : wchar_t := List.last name 0%N.
Definition drop_back (name : wstring) : wstring := removelast name.

(** [for (auto const& c : name) flags_.emplace(std::wstring{ c });] *)
Definition emplace_each_char (name : wstring) (p : wparser) : wparser :=
  fold_left (fun p c => flags_emplace [c] p) name p.

(** Which statement of the loop body disposed of a token. This is ghost
    information: the source keeps no such value, the body below records
    it next to the state so that the fate of every token can be stated. *)
Inductive token_class :=
| Positional      (* pos_args_.emplace_back, line 214 *)
| InlineParam     (* name=value split, line 225 *)
| Flag            (* flags_.emplace, lines 245/262/287 *)
| ParamWithValue  (* params_.insert with the next argument, line 281 *)
| ValueOfParam    (* the argument skipped by ++i, line 282 *).

#[global] Instance token_class_eq_dec : EqDecision token_class.
Proof. solve_decision. Defined.

Record iteration := mk_iteration {
  end_i : nat;          (* [i] when the body ends; the header adds one *)
  after : wparser;      (* the parser after the body *)
  class : token_class   (* ghost *)
}.

(** Lines 258-289 of [parse]: the option [name] at index [i] either takes
    the next argument as its value or is a flag. *)
Definition value_decision (mode : Z) (i : nat) (name : wstring) (p : wparser)
  : outcome iteration :=
  next_is_option <-
    (if (i =? length (args_ p) - 1)%nat then Done true
     else is_option (arg_at p (i + 1))) ;;
  if next_is_option then Done (mk_iteration i (flags_emplace name p) Flag)
  else
    _ <- assert (negb (has_bit mode PREFER_FLAG_FOR_UNREG_OPTION)
                 || negb (has_bit mode PREFER_PARAM_FOR_UNREG_OPTION))
                PreferModesExclusive ;;
    let preferParam := has_bit mode PREFER_PARAM_FOR_UNREG_OPTION in
    if is_param p name || preferParam
    then Done (mk_iteration (i + 1)
                 (params_insert (name, arg_at p (i + 1)) p) ParamWithValue)
    else Done (mk_iteration i (flags_emplace name p) Flag).

(** Lines 212-256 of the loop body: the statements before the value
    decision. They either finish the iteration ([continue], [inl]) or
    fall through to line 258 with the option name and the parser as they
    are at that point ([inr]). *)
Definition before_decision (mode : Z) (i : nat) (p : wparser)
  : outcome (iteration + wstring * wparser) :=
  opt <- is_option (arg_at p i) ;;
  if negb opt
  then Done (inl (mk_iteration i (pos_args_emplace_back (arg_at p i) p) Positional))
  else
    let name := trim_leading_dashes (arg_at p i) in
    match (if negb (has_bit mode NO_SPLIT_ON_EQUALSIGN)
           then find (widen "=") name else None) with
    | Some equalPos =>
        Done (inl (mk_iteration i
                     (params_insert (substr name 0 equalPos,
                                     substr_from name (equalPos + 1)) p)
                     InlineParam))
    | None =>
        (* if the option is unregistered and should be a multi-flag *)
        if ((length (arg_at p i) - length name =? 1)%nat   (* single dash *)
            && has_bit SINGLE_DASH_IS_MULTIFLAG mode       (* multi-flag mode *)
            && negb (is_param p name))                     (* unregistered *)
        then
          let last_is_param :=
            negb (length name =? 0)%nat && is_param p [back name] in
          let keep_param : wstring := if last_is_param then [back name] else [] in
          let name := if last_is_param then drop_back name else name in
          let p := emplace_each_char name p in
          if negb (length keep_param =? 0)%nat
          then Done (inr (keep_param, p))      (* name = keep_param *)
          else Done (inl (mk_iteration i p Flag))
               (* do not consider other options for this arg *)
        else Done (inr (name, p))
    end.

(** The body of the [for] loop of [parse], for [i < args_.size()]. *)
Definition parse_body (mode : Z) (i : nat) (p : wparser) : outcome iteration :=
  d <- before_decision mode i p ;;
  match d with
  | inl r => Done r
  | inr (name, p) => value_decision mode i name p
  end.

(** The classes an iteration hands out: one for its own token and, when
    it skipped the next argument, one for that argument. *)
Definition classes_of (i : nat) (r : iteration) : list token_class :=
  if (end_i r =? i)%nat then [class r] else [class r; ValueOfParam].

(** [for (auto i = 0u; i < args_.size(); ++i) body]. The fuel bounds the
    number of iterations; [parse] supplies [args_.size()], which is
    enough since [i] grows in every iteration. [trace] is ghost. *)
Fixpoint parse_loop (fuel : nat) (mode : Z) (i : nat) (p : wparser)
    (trace : list token_class) : outcome (wparser * list token_class) :=
  if (i <? length (args_ p))%nat then
    match fuel with
    | O => OutOfFuel
    | S fuel' =>
        r <- parse_body mode i p ;;
        parse_loop fuel' mode (S (end_i r)) (after r) (trace ++ classes_of i r)
    end
  else Done (p, trace).

(** [wparser::parse(int argc, const wchar_t* const argv[], int mode)],
    with [argv[0..argc)] given as a list, together with the ghost trace. *)
Definition parse_traced (argv : list wstring) (mode : Z) (p : wparser)
  : outcome (wparser * list token_class) :=
  (* clear out possible previous parsing remnants *)
  let p := clear p in
  (* convert to strings *)
  let p := set_args argv p in
  (* parse line *)
  parse_loop (length argv) mode 0 p [].

Definition parse (argv : list wstring) (mode : Z) (p : wparser) : outcome wparser :=
  r <- parse_traced argv mode p ;; Done (fst r).

(** The class of every token of [argv], in input order. *)
Definition classify (argv : list wstring) (mode : Z) (p : wparser)
  : outcome (list token_class) :=
  r <- parse_traced argv mode p ;; Done (snd r).

(** ** Positional accessors *)

(** [wparser::bad_stream] *)
Definition bad_stream : Stream.wistringstream :=
  Stream.setstate true false Stream.empty.

(** [std::wstring const& wparser::operator[](size_t ind)] *)
Definition index_pos (p : wparser) (ind : nat) : wstring :=
  if (ind <? length (pos_args_ p))%nat then nth ind (pos_args_ p) []
  else empty_ p.

(** [wstring_stream wparser::operator()(size_t ind)] *)
Definition call_pos (p : wparser) (ind : nat) : Stream.wistringstream :=
  if (length (pos_args_ p) <=? ind)%nat then bad_stream
  else Stream.of_wstring (nth ind (pos_args_ p) []).

(** ** Accessors by name *)

(** [std::multimap::lower_bound(k)] and [upper_bound(k)], as positions in
    the key-sorted sequence of the entries: the first entry whose key is
    not less than [k], and the first entry whose key is greater than [k]
    ([end()] is the length). *)
Fixpoint lower_bound (k : wstring) (m : multimap) : nat :=
  match m with
  | [] => 0
  | e :: m' => if wstring_ltb (fst e) k then S (lower_bound k m') else 0
  end.

Fixpoint upper_bound (k : wstring) (m : multimap) : nat :=
  match m with
  | [] => 0
  | e :: m' => if wstring_ltb k (fst e) then 0 else S (upper_bound k m')
  end.

(** [std::multimap::find(k)]: the entry at the lower bound when its key is
    not greater than [k], [None] for [end()]. The standard leaves open
    which of several entries with the key is found; the libraries in use
    return the one at the lower bound. *)
Definition multimap_find (k : wstring) (m : multimap)
  : option (wstring * wstring) :=
  match nth_error m (lower_bound k m) with
  | Some e => if wstring_ltb k (fst e) then None else Some e
  | None => None
  end.

(** [class multimap_iteration_wrapper]: two iterators into [params_]. An
    iterator is the container with a position in it. *)
Record multimap_iteration_wrapper := mk_wrapper {
  wrapped : multimap;
  lb_ : nat;
  ub_ : nat
}.

(** [difference_t size() const { return std::distance(lb_, ub_); }] *)
Definition wrapper_size (w : multimap_iteration_wrapper) : nat :=
  (ub_ w - lb_ w)%nat.

(** The entries a range-for over the wrapper visits, from [begin()] to
    [end()]. *)
Definition wrapper_elements (w : multimap_iteration_wrapper)
  : list (wstring * wstring) :=
  firstn (ub_ w - lb_ w) (skipn (lb_ w) (wrapped w)).

(** [multimap_iteration_wrapper wparser::params(std::wstring const& name)] *)
Definition params_of (p : wparser) (name : wstring) : multimap_iteration_wrapper :=
  let trimmed_name := trim_leading_dashes name in
  mk_wrapper (params_ p) (lower_bound trimmed_name (params_ p))
             (upper_bound trimmed_name (params_ p)).

(** [bool wparser::operator[](std::wstring const& name)] *)
Definition index_flag (p : wparser) (name : wstring) : bool := got_flag p name.

(** [bool wparser::operator[](std::initializer_list<...> init_list)]:
    [std::any_of] over the names. *)
Definition index_flags (p : wparser) (init_list : list wstring) : bool :=
  existsb (fun name => got_flag p name) init_list.

(** [wstring_stream wparser::operator()(std::wstring const& name)] *)
Definition call_param (p : wparser) (name : wstring) : Stream.wistringstream :=
  match multimap_find (trim_leading_dashes name) (params_ p) with
  | Some optIt => Stream.of_wstring (snd optIt)
  | None => bad_stream
  end.

(** [wstring_stream wparser::operator()(std::initializer_list<...>)]: the
    first name of the list that is found. *)
Fixpoint call_params (p : wparser) (init_list : list wstring)
  : Stream.wistringstream :=
  match init_list with
  | [] => bad_stream
  | name :: rest =>
      match multimap_find (trim_leading_dashes name) (params_ p) with
      | Some optIt => Stream.of_wstring (snd optIt)
      | None => call_params p rest
      end
  end.

(** [size_t size() const] *)
Definition size (p : wparser) : nat := length (pos_args_ p).

(** [wparser(std::initializer_list<...> pre_reg_names)] and
    [wparser(int argc, const wchar_t* const argv[], int mode)] *)
Definition wparser_of_names (pre_reg_names : list wstring) : wparser :=
  add_params pre_reg_names new_parser.
Definition wparser_of_args (argv : list wstring) (mode : Z) : outcome wparser :=
  parse argv mode new_parser.

(** ** Notions of the specification *)

(** The two PREFER bits are not both set. *)
Definition mode_ok (mode : Z) : bool :=
  negb (has_bit mode PREFER_FLAG_FOR_UNREG_OPTION
        && has_bit mode PREFER_PARAM_FOR_UNREG_OPTION).

(** "The entire string must parse as a number": the string has the
    form of an optionally signed decimal number, to its last character.
    Nothing is asked of the size of the number. *)
Definition entire_string_is_number (tok : wstring) : bool :=
  match Stream.strtod tok with
  | Some (_, []) => true
  | _ => false
  end.

(** The number that [tok] starts with is too large in magnitude for a
    [double]. *)
Definition exceeds_double (tok : wstring) : bool :=
  match Stream.strtod tok with
  | Some (d, _) => Stream.too_large d
  | None => false
  end.

(** Stage 3 accepts the string: it is a number as a whole, and of a size
    a [double] holds. *)
Definition converts_to_double (tok : wstring) : bool :=
  negb (Stream.stage3_fails tok).

(** A character that cannot continue a complete number: not a digit, not
    a decimal point, not an exponent letter. *)
Definition ends_number (c : wchar_t) : bool :=
  negb (Stream.is_digit c) && negb (Stream.is_point c) && negb (Stream.is_exp c).

Definition stops_number (rest : wstring) : bool :=
  match rest with
  | c :: _ => ends_number c
  | [] => true
  end.

Definition starts_with_dash (tok : wstring) : bool :=
  match tok with
  | c :: _ => wchar_eqb (widen "-") c
  | [] => false
  end.


Definition contains_equal_sign (name : wstring) : bool :=
  existsb (fun c => wchar_eqb c (widen "=")) name.

Definition nonempty (tok : wstring) : bool := negb (length tok =? 0)%nat.

(** A parser as [parse] leaves it is a parser whose instance was
    constructed by the source: [empty_] is never assigned. *)
Definition constructed (p : wparser) : Prop := empty_ p = [].

(** Tokens that did not go down the option path of the loop body. *)
Definition non_option_class (c : token_class) : bool :=
  match c with
  | Positional | ValueOfParam => true
  | InlineParam | Flag | ParamWithValue => false
  end.

(** A token and its class agree with [is_option]. *)
Definition class_matches (tok : wstring) (c : token_class) : Prop :=
  is_option tok = Done (negb (non_option_class c)).

(** [v] is the value of some entry of [params_]. *)
Definition stored_as_value (q : wparser) (v : wstring) : Prop :=
  exists name, In (name, v) (params_ q).

(** A trace in which every skipped argument directly follows the option
    that took it as its value, and every such option is followed by its
    value. *)
Inductive well_paired : list token_class -> Prop :=
| wp_nil : well_paired []
| wp_single tr c :
    well_paired tr -> c <> ParamWithValue -> c <> ValueOfParam ->
    well_paired (tr ++ [c])
| wp_pair tr :
    well_paired tr -> well_paired (tr ++ [ParamWithValue; ValueOfParam]).

(** The tokens of [argv] whose class in [tr] is [c], in input order. *)
Fixpoint select (c : token_class) (argv : list wstring) (tr : list token_class)
  : list wstring :=
  match argv, tr with
  | tok :: argv', c' :: tr' =>
      if bool_decide (c' = c) then tok :: select c argv' tr'
      else select c argv' tr'
  | _, _ => []
  end.

(** What parsing leaves alone: the argument vector of the running
    parse, the registered names and the sentinel. *)
Definition frame (p q : wparser) : Prop :=
  args_ q = args_ p /\ registeredParams_ q = registeredParams_ p
  /\ empty_ q = empty_ p.

(** Keys in non-decreasing order, the order a [std::multimap] keeps. *)
Definition key_le (e1 e2 : wstring * wstring) : Prop :=
  wstring_ltb (fst e2) (fst e1) = false.

Definition key_sorted (m : multimap) : Prop := StronglySorted key_le m.

(** The entries stored under [k], in the order of the sequence. *)
Definition entries_of (k : wstring) (m : multimap) : list (wstring * wstring) :=
  List.filter (fun e => bool_decide (fst e = k)) m.

(** How many tokens of a trace have the class [c]. *)
Definition count_class (c : token_class) (tr : list token_class) : nat :=
  length (List.filter (fun c' => bool_decide (c' = c)) tr).

(** The test of [is_option] on a non-empty token, as a boolean. *)
Definition looks_like_option (tok : wstring) : bool :=
  negb (is_number tok) && starts_with_dash tok.

(** [k] dashes. *)
Definition dashes (k : nat) : wstring := repeat (widen "-") k.

(** The token reaches the value decision (line 258): it is an option, it
    is not split on '=' (lines 220-228), and it is not a single-dash
    cluster that is expanded into flags to its last character
    (lines 230-256). *)
Definition reaches_decision (mode : Z) (p : wparser) (tok : wstring) : bool :=
  let name := trim_leading_dashes tok in
  looks_like_option tok
  && negb (negb (has_bit mode NO_SPLIT_ON_EQUALSIGN) && contains_equal_sign name)
  && negb ((length tok - length name =? 1)%nat
           && has_bit SINGLE_DASH_IS_MULTIFLAG mode
           && negb (is_param p name)
           && negb (negb (length name =? 0)%nat && is_param p [back name])).

(** The class of an option token as its own spelling and the token after
    it decide it, when single-dash clusters are not expanded: split on
    '=', or a parameter taking the next token when that token is not an
    option and the name is registered or PREFER_PARAM is set, or a flag. *)
Definition option_class (mode : Z) (p : wparser) (tok : wstring)
    (next : option wstring) : token_class :=
  let name := trim_leading_dashes tok in
  if negb (has_bit mode NO_SPLIT_ON_EQUALSIGN) && contains_equal_sign name
  then InlineParam
  else match next with
       | Some v =>
           if looks_like_option v then Flag
           else if is_param p name || has_bit mode PREFER_PARAM_FOR_UNREG_OPTION
                then ParamWithValue
                else Flag
       | None => Flag
       end.

(** The entry of [params_] that the iteration on [tok] inserts, by the
    class of the token: key and value around the first '=' (line 225),
    or the option's name with the next token (line 281), the name being
    the last character of a single-dash cluster (line 249). *)
Definition stored_entry (mode : Z) (p : wparser) (tok : wstring)
    (next : option wstring) (c : token_class) : option (wstring * wstring) :=
  let name := trim_leading_dashes tok in
  match c with
  | InlineParam =>
      match find (widen "=") name with
      | Some equalPos =>
          Some (substr name 0 equalPos, substr_from name (equalPos + 1))
      | None => None
      end
  | ParamWithValue =>
      match next with
      | Some v =>
          Some (if (length tok - length name =? 1)%nat
                   && has_bit SINGLE_DASH_IS_MULTIFLAG mode
                   && negb (is_param p name)
                then [back name] else name, v)
      | None => None
      end
  | _ => None
  end.

(** The entries inserted for the tokens [argv[j..]] with the classes
    [tr], in input order. *)
Fixpoint insertions_from (mode : Z) (p : wparser) (argv : list wstring)
    (j : nat) (tr : list token_class) : list (wstring * wstring) :=
  match tr with
  | [] => []
  | c :: tr' =>
      match argv !! j with
      | Some tok =>
          match stored_entry mode p tok (argv !! S j) c with
          | Some e => [e]
          | None => []
          end
      | None => []
      end ++ insertions_from mode p argv (S j) tr'
  end.

Definition insertions (mode : Z) (p : wparser) (argv : list wstring)
    (tr : list token_class) : list (wstring * wstring) :=
  insertions_from mode p argv 0 tr.

(** What the containers of [q] hold for a token of class [c]. *)
Definition retrievable (q : wparser) (tok : wstring) (next : option wstring)
    (c : token_class) : Prop :=
  match c with
  | Positional => In tok (pos_args_ q)
  | InlineParam =>
      exists key value,
        trim_leading_dashes tok = key ++ widen "=" :: value
        /\ contains_equal_sign key = false
        /\ In (key, value) (params_ q)
  | Flag => trim_leading_dashes tok ∈ flags_ q
  | ParamWithValue =>
      exists v, next = Some v /\ In (trim_leading_dashes tok, v) (params_ q)
  | ValueOfParam => exists name, In (name, tok) (params_ q)
  end.

(** * Proofs *)

(** ** The definitions at work *)

Example is_number_examples :
  is_number (L"-3") = true /\ is_number (L"-2.5") = true
  /\ is_number (L"+1e5") = true /\ is_number (L".5") = true
  /\ is_number (L" 7") = true /\ is_number (L"1.7976931348623158e308") = true
  /\ is_number (L"-v") = false /\ is_number (L"--name") = false
  /\ is_number (L"-") = false /\ is_number (L"-.") = false
  /\ is_number (L"1e") = false /\ is_number (L"-1e999") = false
  /\ is_number (L"abc") = false /\ is_number [] = false.
Proof. repeat split; vm_compute; reflexivity. Qed.

Example extract_double_leaves_rest :
  Stream.extract_double (Stream.of_wstring (L" -1e10abc"))
  = Stream.mk_stream (L" -1e10abc") 6 false false false.
Proof. vm_compute. reflexivity. Qed.

Example is_option_examples :
  is_option (L"-v") = Done true /\ is_option (L"--name") = Done true
  /\ is_option (L"-") = Done true /\ is_option (L"--alpha=beta") = Done true
  /\ is_option (L"-3") = Done false /\ is_option (L"file.txt") = Done false
  /\ is_option (L" -v") = Done false
  /\ is_option [] = AssertFailed ArgNotEmpty.
Proof. repeat split; vm_compute; reflexivity. Qed.

Example trim_leading_dashes_examples :
  trim_leading_dashes (L"--name") = L"name"
  /\ trim_leading_dashes (L"-a-b") = L"a-b"
  /\ trim_leading_dashes (L"--") = L"--"
  /\ trim_leading_dashes [] = [].
Proof. repeat split; reflexivity. Qed.

(** Equal keys keep their insertion order, keys are sorted. *)
Example multimap_insert_examples :
  multimap_insert (L"b", L"2")
    (multimap_insert (L"a", L"9") (multimap_insert (L"b", L"1") []))
  = [(L"a", L"9"); (L"b", L"1"); (L"b", L"2")].
Proof. reflexivity. Qed.

Example classify_examples :
  classify [L"-abc"; L"X"; L"--alpha=beta"; L"--"; L"-x"; L"-1"; L"-y"]
    SINGLE_DASH_IS_MULTIFLAG (add_param (L"c") new_parser)
  = Done [ParamWithValue; ValueOfParam; InlineParam; Flag; Flag; Positional; Flag].
Proof. vm_compute. reflexivity. Qed.

(** ** What an iteration leaves alone *)

Lemma frame_refl p : frame p p.
Proof. repeat split. Qed.

Lemma frame_trans p q r : frame p q -> frame q r -> frame p r.
Proof. unfold frame. intros (?&?&?) (?&?&?). repeat split; congruence. Qed.

Lemma emplace_each_char_frame name p : frame p (emplace_each_char name p).
Proof.
  unfold emplace_each_char. revert p.
  induction name as [|c name IH]; intros p; simpl; [apply frame_refl|].
  eapply frame_trans; [|apply IH]. repeat split.
Qed.

Lemma emplace_each_char_params name p :
  params_ (emplace_each_char name p) = params_ p
  /\ pos_args_ (emplace_each_char name p) = pos_args_ p.
Proof.
  unfold emplace_each_char. revert p.
  induction name as [|c name IH]; intros p; simpl; [done|].
  destruct (IH (flags_emplace [c] p)) as [-> ->]. done.
Qed.

Lemma emplace_each_char_flags name p :
  flags_ (emplace_each_char name p)
  = list_to_set_disj (List.map (fun c => [c]) name) ⊎ flags_ p.
Proof.
  unfold emplace_each_char. revert p.
  induction name as [|c name IH]; intros p; simpl.
  - multiset_solver.
  - rewrite IH. simpl. multiset_solver.
Qed.

(** *** What an iteration does to the index and to the class *)

Section Shapes.
Variables (mode : Z) (i : nat).

Lemma value_decision_shape name p r :
  value_decision mode i name p = Done r ->
  frame p (after r)
  /\ ((end_i r = i /\ class r = Flag /\ after r = flags_emplace name p)
      \/ (end_i r = (i + 1)%nat /\ class r = ParamWithValue
          /\ after r = params_insert (name, arg_at p (i + 1)) p
          /\ i <> (length (args_ p) - 1)%nat
          /\ is_option (arg_at p (i + 1)) = Done false)).
Proof.
  unfold value_decision. intros H.
  destruct (i =? length (args_ p) - 1)%nat eqn:Ei; simpl in H.
  - injection H as <-. split; [repeat split|left; done].
  - apply Nat.eqb_neq in Ei.
    destruct (is_option (arg_at p (i + 1))) as [[|]| |] eqn:Eo;
      simpl in H; try discriminate H.
    + injection H as <-. split; [repeat split|left; done].
    + destruct (assert _ _); simpl in H; try discriminate H.
      destruct (is_param p name || _); injection H as <-.
      * split; [repeat split|right; done].
      * split; [repeat split|left; done].
Qed.

Lemma before_decision_shape p d :
  before_decision mode i p = Done d ->
  match d with
  | inl r => frame p (after r) /\ end_i r = i
             /\ is_option (arg_at p i)
                = Done (negb (bool_decide (class r = Positional)))
  | inr (name, p') => frame p p' /\ is_option (arg_at p i) = Done true
  end.
Proof.
  unfold before_decision. intros H.
  destruct (is_option (arg_at p i)) as [[|]| |] eqn:Eo; simpl in H;
    try discriminate H.
  2:{ injection H as <-. simpl. repeat split. }
  destruct (if negb _ then find _ _ else None) as [equalPos|].
  { injection H as <-. simpl. repeat split. }
  repeat match type of H with
  | (if ?c then _ else _) = _ => destruct c
  end; injection H as <-; simpl;
    repeat split; try apply emplace_each_char_frame.
Qed.

Lemma parse_body_shape p r :
  parse_body mode i p = Done r ->
  frame p (after r)
  /\ (end_i r = i \/
      (end_i r = (i + 1)%nat /\ class r = ParamWithValue
       /\ i <> (length (args_ p) - 1)%nat
       /\ is_option (arg_at p (i + 1)) = Done false))
  /\ is_option (arg_at p i) = Done (negb (bool_decide (class r = Positional))).
Proof.
  unfold parse_body. intros H.
  destruct (before_decision mode i p) as [[r'|[name p']]| |] eqn:Eb;
    simpl in H; try discriminate H; apply before_decision_shape in Eb.
  - injection H as <-. destruct Eb as (? & ? & ?). auto.
  - destruct Eb as (Hf & Ho).
    apply value_decision_shape in H as [Hf' Hc].
    split; [eapply frame_trans; eauto|].
    pose proof Hf as (Ha & _). unfold arg_at in *. rewrite Ha in *.
    destruct Hc as [(?&Hk&?)|(?&Hk&?&?&?)]; rewrite Hk.
    + split; [by left|done].
    + split; [right; done|done].
Qed.

End Shapes.

(** ** The loop *)

(** An invariant of the loop body holds when the loop ends, and the loop
    ends at or past the last index. *)
Lemma parse_loop_invariant (I : nat -> wparser -> list token_class -> Prop) mode :
  (forall i p tr r,
      I i p tr -> (i < length (args_ p))%nat -> parse_body mode i p = Done r ->
      I (S (end_i r)) (after r) (tr ++ classes_of i r)) ->
  forall fuel i p tr q tr',
    I i p tr -> parse_loop fuel mode i p tr = Done (q, tr') ->
    exists i', I i' q tr' /\ (length (args_ q) <= i')%nat.
Proof.
  intros Hstep fuel. induction fuel as [|fuel IH]; intros i p tr q tr' HI H;
    simpl in H; destruct (i <? length (args_ p))%nat eqn:Ei;
    try discriminate H.
  - injection H as <- <-. apply Nat.ltb_ge in Ei. eauto.
  - apply Nat.ltb_lt in Ei.
    destruct (parse_body mode i p) as [r| |] eqn:Eb; simpl in H;
      try discriminate H.
    eapply IH; [|exact H]. eapply Hstep; eauto.
  - injection H as <- <-. apply Nat.ltb_ge in Ei. eauto.
Qed.

Lemma parse_loop_frame fuel mode i p tr q tr' :
  parse_loop fuel mode i p tr = Done (q, tr') -> frame p q.
Proof.
  intros H.
  destruct (parse_loop_invariant (fun _ p' _ => frame p p') mode) with
    (fuel := fuel) (i := i) (p := p) (tr := tr) (q := q) (tr' := tr')
    as (_ & Hf & _); auto using frame_refl.
  intros ? ? ? r Hf _ Hb. apply parse_body_shape in Hb as (Hr & _).
  eapply frame_trans; eauto.
Qed.

(** The index stays within bounds and the trace has one class per token
    scanned so far. *)
Lemma parse_loop_trace_length fuel mode i p tr q tr' :
  (i <= length (args_ p))%nat -> length tr = i ->
  parse_loop fuel mode i p tr = Done (q, tr') ->
  length tr' = length (args_ p).
Proof.
  intros Hi Htr H.
  destruct (parse_loop_invariant
    (fun i' p' t' => frame p p' /\ (i' <= length (args_ p))%nat /\ length t' = i') mode)
    with (fuel := fuel) (i := i) (p := p) (tr := tr) (q := q) (tr' := tr')
    as (i' & (Hf & Hle & Hlen) & Hge); auto using frame_refl.
  - clear. intros i p' tr r (Hf & Hle & Hlen) Hlt Hb.
    apply parse_body_shape in Hb as (Hr & Hend & _).
    pose proof Hf as (Ha & _). rewrite Ha in *.
    split; [eapply frame_trans; eauto|].
    rewrite length_app. unfold classes_of.
    destruct Hend as [->|(-> & _ & Hne & _)].
    + rewrite Nat.eqb_refl. simpl. lia.
    + replace (i + 1 =? i)%nat with false by (symmetry; apply Nat.eqb_neq; lia).
      simpl. lia.
  - destruct Hf as (Ha & _). rewrite Ha in Hge. lia.
Qed.

Lemma is_option_nonempty tok :
  nonempty tok = true ->
  is_option tok = Done (negb (is_number tok) && starts_with_dash tok).
Proof.
  unfold is_option, nonempty, assert. intros ->. simpl.
  destruct (is_number tok); reflexivity.
Qed.

Lemma is_option_empty : is_option [] = AssertFailed ArgNotEmpty.
Proof. reflexivity. Qed.

Lemma is_option_outcome tok :
  (nonempty tok = true /\ exists b, is_option tok = Done b)
  \/ (tok = [] /\ is_option tok = AssertFailed ArgNotEmpty).
Proof.
  destruct tok as [|c tok]; [right; done|left].
  split; [done|]. rewrite is_option_nonempty by done. eauto.
Qed.

Lemma is_option_Done_nonempty tok b : is_option tok = Done b -> tok <> [].
Proof. intros H ->. discriminate H. Qed.

(** *** How an iteration can end *)

Section Outcomes.
Variables (mode : Z) (i : nat).

(** With a well-formed mode the only assertion that can fail is the one
    of [is_option]. *)
Lemma value_decision_mode_ok name p w :
  mode_ok mode = true ->
  value_decision mode i name p = AssertFailed w -> w = ArgNotEmpty.
Proof.
  unfold mode_ok, value_decision. intros Hm H.
  destruct (i =? length (args_ p) - 1)%nat; simpl in H; [discriminate|].
  destruct (is_option_outcome (arg_at p (i + 1))) as [(_ & b & E)|(_ & E)];
    rewrite E in H; simpl in H; [|congruence].
  destruct b; [discriminate|].
  rewrite negb_andb in Hm. rewrite Hm in H. simpl in H.
  destruct (is_param p name || _); discriminate.
Qed.

Lemma value_decision_not_out_of_fuel name p :
  value_decision mode i name p <> OutOfFuel.
Proof.
  unfold value_decision.
  destruct (i =? length (args_ p) - 1)%nat; simpl; [discriminate|].
  destruct (is_option_outcome (arg_at p (i + 1))) as [(_ & b & E)|(_ & E)];
    rewrite E; simpl; [|discriminate].
  destruct b; [discriminate|].
  unfold assert. destruct (negb _ || negb _); simpl; [|discriminate].
  destruct (is_param p name || _); discriminate.
Qed.

Lemma before_decision_outcome p :
  (exists d, before_decision mode i p = Done d /\ arg_at p i <> [])
  \/ (before_decision mode i p = AssertFailed ArgNotEmpty /\ arg_at p i = []).
Proof.
  unfold before_decision.
  destruct (is_option_outcome (arg_at p i)) as [(Hn & b & E)|(Hn & E)];
    rewrite E; simpl; [left|right; done].
  assert (arg_at p i <> []) by (intros Hz; rewrite Hz in Hn; discriminate).
  destruct b; simpl; [|eauto].
  destruct (if negb _ then find _ _ else None); [eauto|].
  repeat match goal with
  | |- context [if ?c then _ else _] => destruct c
  end; eauto.
Qed.

Lemma parse_body_mode_ok p w :
  mode_ok mode = true ->
  parse_body mode i p = AssertFailed w -> w = ArgNotEmpty.
Proof.
  unfold parse_body. intros Hm H.
  destruct (before_decision_outcome p) as [(d & E & _)|(E & _)];
    rewrite E in H; simpl in H; [|congruence].
  destruct d as [r|[name p']]; [discriminate|].
  eauto using value_decision_mode_ok.
Qed.

Lemma parse_body_not_out_of_fuel p : parse_body mode i p <> OutOfFuel.
Proof.
  unfold parse_body.
  destruct (before_decision_outcome p) as [(d & E & _)|(E & _)];
    rewrite E; simpl; [|discriminate].
  destruct d as [r|[name p']]; [discriminate|].
  apply value_decision_not_out_of_fuel.
Qed.

End Outcomes.

Lemma parse_loop_mode_ok fuel mode i p tr w :
  mode_ok mode = true ->
  parse_loop fuel mode i p tr = AssertFailed w -> w = ArgNotEmpty.
Proof.
  intros Hm. revert i p tr.
  induction fuel as [|fuel IH]; intros i p tr H; simpl in H;
    destruct (i <? length (args_ p))%nat; try discriminate.
  destruct (parse_body mode i p) as [r| |] eqn:Eb; simpl in H;
    try discriminate; eauto.
  injection H as <-. eauto using parse_body_mode_ok.
Qed.

(** [args_.size()] iterations are enough. *)
Lemma parse_loop_fuel fuel mode i p tr :
  (length (args_ p) - i <= fuel)%nat ->
  parse_loop fuel mode i p tr <> OutOfFuel.
Proof.
  revert i p tr. induction fuel as [|fuel IH]; intros i p tr Hf; simpl;
    destruct (i <? length (args_ p))%nat eqn:Ei; try discriminate.
  - apply Nat.ltb_lt in Ei. lia.
  - apply Nat.ltb_lt in Ei.
    destruct (parse_body mode i p) as [r| |] eqn:Eb; simpl; try discriminate.
    2:{ exfalso. eapply parse_body_not_out_of_fuel; eauto. }
    apply parse_body_shape in Eb as ((Ha & _) & Hend & _).
    apply IH. rewrite Ha. destruct Hend as [->|(-> & _)]; lia.
Qed.

Lemma parse_loop_step fuel mode i p tr r :
  (i < length (args_ p))%nat -> parse_body mode i p = Done r ->
  parse_loop (S fuel) mode i p tr
  = parse_loop fuel mode (S (end_i r)) (after r) (tr ++ classes_of i r).
Proof.
  intros Hi Hb. simpl. apply Nat.ltb_lt in Hi. rewrite Hi, Hb. reflexivity.
Qed.

Lemma parse_loop_exit fuel mode i p tr :
  (length (args_ p) <= i)%nat -> parse_loop fuel mode i p tr = Done (p, tr).
Proof.
  intros Hi. apply Nat.ltb_ge in Hi. destruct fuel; simpl; rewrite Hi; done.
Qed.

Lemma value_decision_succeeds mode i name p :
  mode_ok mode = true ->
  (i <> (length (args_ p) - 1)%nat -> arg_at p (i + 1) <> []) ->
  exists r, value_decision mode i name p = Done r.
Proof.
  unfold value_decision, mode_ok. intros Hm Hn.
  destruct (i =? length (args_ p) - 1)%nat eqn:Ei; simpl; [eauto|].
  apply Nat.eqb_neq in Ei.
  destruct (is_option_outcome (arg_at p (i + 1))) as [(_ & b & E)|(Hz & _)];
    [|by apply Hn in Ei].
  rewrite E. simpl. destruct b; [eauto|].
  rewrite negb_andb in Hm. rewrite Hm. simpl.
  destruct (is_param p name || _); eauto.
Qed.

Lemma parse_body_succeeds mode i p :
  mode_ok mode = true -> arg_at p i <> [] ->
  (i <> (length (args_ p) - 1)%nat -> arg_at p (i + 1) <> []) ->
  exists r, parse_body mode i p = Done r.
Proof.
  intros Hm Hi Hn. unfold parse_body.
  destruct (before_decision_outcome mode i p) as [(d & E & _)|(_ & Hz)];
    [|done].
  rewrite E. simpl. pose proof (before_decision_shape _ _ _ _ E) as Hs.
  destruct d as [r|[name p']]; [eauto|].
  destruct Hs as ((Ha & _) & _).
  apply value_decision_succeeds; [done|]. unfold arg_at. rewrite Ha. exact Hn.
Qed.

(** Without empty tokens and with a well-formed mode the loop runs to
    its end. *)
Lemma parse_loop_completes fuel mode i p tr :
  mode_ok mode = true ->
  (forall j, (i <= j < length (args_ p))%nat -> arg_at p j <> []) ->
  (length (args_ p) - i <= fuel)%nat ->
  exists q tr', parse_loop fuel mode i p tr = Done (q, tr').
Proof.
  intros Hm. revert i p tr.
  induction fuel as [|fuel IH]; intros i p tr Hne Hf.
  - rewrite parse_loop_exit by lia. eauto.
  - destruct (Nat.lt_ge_cases i (length (args_ p))) as [Hlt|Hge];
      [|rewrite parse_loop_exit by lia; eauto].
    destruct (parse_body_succeeds mode i p) as [r Hb]; [done|apply Hne; lia|..].
    { intros ?. replace (i + 1)%nat with (S i) by lia. apply Hne. lia. }
    rewrite (parse_loop_step _ _ _ _ _ r) by done.
    apply parse_body_shape in Hb as ((Ha & _) & Hend & _).
    apply IH; rewrite ?Ha.
    + intros j Hj. unfold arg_at. rewrite Ha. apply Hne. lia.
    + lia.
Qed.

(** An empty token ahead of the scan is always reached by [is_option]:
    the loop cannot end normally. *)
Lemma parse_loop_empty_token fuel mode i p tr j q tr' :
  (i <= j < length (args_ p))%nat -> arg_at p j = [] ->
  parse_loop fuel mode i p tr <> Done (q, tr').
Proof.
  revert i p tr. induction fuel as [|fuel IH]; intros i p tr Hj Hz; simpl;
    destruct (i <? length (args_ p))%nat eqn:Ei; try discriminate;
    try (apply Nat.ltb_ge in Ei; lia).
  destruct (parse_body mode i p) as [r| |] eqn:Eb; simpl; try discriminate.
  apply parse_body_shape in Eb as ((Ha & _) & Hend & Ho).
  apply is_option_Done_nonempty in Ho.
  assert (j <> i) by (intros ->; done).
  apply IH; unfold arg_at; rewrite Ha; [|exact Hz].
  destruct Hend as [->|(-> & _ & _ & Ho')]; [lia|].
  apply is_option_Done_nonempty in Ho'.
  assert (j <> (i + 1)%nat) by (intros ->; done). lia.
Qed.

(** ** The worked example of the specification *)

(** C2. Parsing ["prog"; "file.txt"; "-v"; "--name"; "Alice"; "-3"] in the
    default mode (PREFER_FLAG_FOR_UNREG_OPTION only), after "name" was
    registered as a parameter, yields the positionals "prog", "file.txt",
    "-3" in that order, the flag multiset {"v"} and the parameters
    {"name": "Alice"}. *)
Theorem parse_prog_file_v_name_Alice :
  exists q,
    parse [L"prog"; L"file.txt"; L"-v"; L"--name"; L"Alice"; L"-3"]
          PREFER_FLAG_FOR_UNREG_OPTION (add_param (L"name") new_parser)
    = Done q
    /\ pos_args_ q = [L"prog"; L"file.txt"; L"-3"]
    /\ flags_ q = {[+ L"v" +]}
    /\ params_ q = [(L"name", L"Alice")].
Proof.
  eexists. split; [vm_compute; reflexivity|].
  repeat split; vm_compute; reflexivity.
Qed.

(** ** Splitting on the equal sign *)

Lemma find_Some c s k :
  find c s = Some k ->
  s = firstn k s ++ c :: skipn (S k) s
  /\ existsb (fun x => wchar_eqb x c) (firstn k s) = false.
Proof.
  revert k. induction s as [|x s IH]; intros k H; simpl in H; [discriminate|].
  destruct (wchar_eqb x c) eqn:Ex.
  - injection H as <-. apply N.eqb_eq in Ex as ->. done.
  - destruct (find c s) as [k'|]; [|discriminate]. injection H as <-.
    destruct (IH k' eq_refl) as [Hs Hk]. simpl. rewrite Ex, Hk.
    split; [|done]. f_equal. exact Hs.
Qed.

Lemma find_None c s :
  find c s = None <-> existsb (fun x => wchar_eqb x c) s = false.
Proof.
  induction s as [|x s IH]; simpl; [done|].
  destruct (wchar_eqb x c); simpl; [done|].
  destruct (find c s); [|tauto]. split; [done|]. intros H.
  apply IH in H. discriminate.
Qed.

Lemma before_decision_split mode i p k :
  is_option (arg_at p i) = Done true ->
  has_bit mode NO_SPLIT_ON_EQUALSIGN = false ->
  find (widen "=") (trim_leading_dashes (arg_at p i)) = Some k ->
  parse_body mode i p
  = Done (mk_iteration i
            (params_insert (substr (trim_leading_dashes (arg_at p i)) 0 k,
                            substr_from (trim_leading_dashes (arg_at p i)) (k + 1)) p)
            InlineParam).
Proof.
  intros Ho Hm Hf. unfold parse_body, before_decision.
  rewrite Ho. cbn [bind negb]. rewrite Hm. cbn [negb]. rewrite Hf.
  reflexivity.
Qed.

(** C5. When NO_SPLIT_ON_EQUALSIGN is not set, an option token whose
    dash-trimmed name contains '=' is split at the first '=' into key and
    value, (key, value) is inserted into the parameters and the iteration
    ends there: the index is not advanced past the token, so the next
    token is scanned on its own. In particular "--alpha=beta" yields the
    single parameter entry ("alpha", "beta"). *)
Theorem equal_sign_split mode i p :
  has_bit mode NO_SPLIT_ON_EQUALSIGN = false ->
  (is_option (arg_at p i) = Done true ->
   contains_equal_sign (trim_leading_dashes (arg_at p i)) = true ->
   exists key value,
     trim_leading_dashes (arg_at p i) = key ++ widen "=" :: value
     /\ contains_equal_sign key = false
     /\ parse_body mode i p
        = Done (mk_iteration i (params_insert (key, value) p) InlineParam)
     /\ forall fuel tr, (i < length (args_ p))%nat ->
        parse_loop (S fuel) mode i p tr
        = parse_loop fuel mode (S i) (params_insert (key, value) p)
            (tr ++ [InlineParam]))
  /\ exists q,
       parse [L"--alpha=beta"] mode p = Done q
       /\ params_ q = [(L"alpha", L"beta")]
       /\ flags_ q = ∅ /\ pos_args_ q = [].
Proof.
  intros Hm. split.
  - intros Ho Hc. set (name := trim_leading_dashes (arg_at p i)) in *.
    destruct (find (widen "=") name) as [k|] eqn:Hf.
    2:{ apply find_None in Hf. unfold contains_equal_sign in Hc. congruence. }
    pose proof (before_decision_split mode i p k Ho Hm Hf) as Hb.
    apply find_Some in Hf as [Hs Hk].
    exists (substr name 0 k), (substr_from name (k + 1)).
    unfold substr, substr_from. simpl skipn at 1.
    replace (k + 1)%nat with (S k) by lia.
    split; [exact Hs|]. split; [exact Hk|].
    fold name in Hb. unfold substr, substr_from in Hb. simpl skipn at 1 in Hb.
    replace (k + 1)%nat with (S k) in Hb by lia.
    split; [exact Hb|]. intros fuel tr Hi.
    rewrite (parse_loop_step _ _ _ _ _ _ Hi Hb). simpl.
    unfold classes_of. simpl. rewrite Nat.eqb_refl. reflexivity.
  - unfold parse, parse_traced.
    change (length [L"--alpha=beta"]) with 1%nat.
    erewrite parse_loop_step;
      [|simpl; lia|apply before_decision_split with (k := 5%nat); done].
    rewrite parse_loop_exit by (simpl; lia). simpl. eauto.
Qed.

Lemma equal_sign_split_witness :
  (exists key value,
     trim_leading_dashes (L"--alpha=beta") = key ++ widen "=" :: value
     /\ contains_equal_sign key = false
     /\ parse_body PREFER_FLAG_FOR_UNREG_OPTION 0
          (set_args [L"--alpha=beta"; L"x"] new_parser)
        = Done (mk_iteration 0
                  (params_insert (key, value)
                     (set_args [L"--alpha=beta"; L"x"] new_parser))
                  InlineParam)
     /\ forall fuel tr, (0 < 2)%nat ->
        parse_loop (S fuel) PREFER_FLAG_FOR_UNREG_OPTION 0
          (set_args [L"--alpha=beta"; L"x"] new_parser) tr
        = parse_loop fuel PREFER_FLAG_FOR_UNREG_OPTION 1
            (params_insert (key, value)
               (set_args [L"--alpha=beta"; L"x"] new_parser))
            (tr ++ [InlineParam]))
  /\ exists q,
       parse [L"--alpha=beta"] PREFER_FLAG_FOR_UNREG_OPTION new_parser = Done q
       /\ params_ q = [(L"alpha", L"beta")]
       /\ flags_ q = ∅ /\ pos_args_ q = [].
Proof.
  split.
  - apply (proj1 (equal_sign_split PREFER_FLAG_FOR_UNREG_OPTION 0
                    (set_args [L"--alpha=beta"; L"x"] new_parser) eq_refl));
      reflexivity.
  - apply (equal_sign_split PREFER_FLAG_FOR_UNREG_OPTION 0 new_parser).
    reflexivity.
Defined.

(** ** The value decision *)

Lemma is_param_frame p q name :
  frame p q -> is_param q name = is_param p name.
Proof. intros (_ & Hr & _). unfold is_param. by rewrite Hr. Qed.

Lemma arg_at_frame p q i : frame p q -> arg_at q i = arg_at p i.
Proof. intros (Ha & _). unfold arg_at. by rewrite Ha. Qed.

Lemma value_decision_next_option mode i name p :
  (S i < length (args_ p))%nat ->
  is_option (arg_at p (i + 1)) = Done true ->
  value_decision mode i name p = Done (mk_iteration i (flags_emplace name p) Flag).
Proof.
  intros Hi Ho. unfold value_decision.
  replace (i =? length (args_ p) - 1)%nat with false
    by (symmetry; apply Nat.eqb_neq; lia).
  rewrite Ho. reflexivity.
Qed.

Lemma value_decision_last mode i name p :
  i = (length (args_ p) - 1)%nat ->
  value_decision mode i name p = Done (mk_iteration i (flags_emplace name p) Flag).
Proof.
  intros Hi. unfold value_decision.
  apply Nat.eqb_eq in Hi. rewrite Hi. reflexivity.
Qed.

Lemma value_decision_next_value mode i name p :
  (S i < length (args_ p))%nat ->
  is_option (arg_at p (i + 1)) = Done false ->
  value_decision mode i name p
  = if mode_ok mode
    then if is_param p name || has_bit mode PREFER_PARAM_FOR_UNREG_OPTION
         then Done (mk_iteration (i + 1)
                      (params_insert (name, arg_at p (i + 1)) p) ParamWithValue)
         else Done (mk_iteration i (flags_emplace name p) Flag)
    else AssertFailed PreferModesExclusive.
Proof.
  intros Hi Ho. unfold value_decision, mode_ok.
  replace (i =? length (args_ p) - 1)%nat with false
    by (symmetry; apply Nat.eqb_neq; lia).
  rewrite Ho. cbn [bind]. rewrite negb_andb.
  destruct (negb _ || negb _); reflexivity.
Qed.

(** C3 (as amended). Let an option token at index [i] reach the value
    decision with the name [name] (it was neither split on '=' nor fully
    consumed by the multiflag expansion) and let a token [t] follow it.
    If [is_option t] is true, [name] is emitted as a flag, also when it
    is registered. If [is_option t] is false, the two PREFER bits are not
    both set, and [name] is registered or PREFER_PARAM_FOR_UNREG_OPTION
    is set, then [(name, t)] is inserted into the parameters and the scan
    continues two indices further: [t] gets no iteration of its own.
    Otherwise [name] is emitted as a flag and the scan continues at [t]. *)
Theorem value_taking_decision mode i p name p' t :
  before_decision mode i p = Done (inr (name, p')) ->
  (S i < length (args_ p))%nat ->
  arg_at p (S i) = t ->
  (is_option t = Done true ->
   parse_body mode i p = Done (mk_iteration i (flags_emplace name p') Flag))
  /\ (is_option t = Done false -> mode_ok mode = true ->
      is_param p name = true \/ has_bit mode PREFER_PARAM_FOR_UNREG_OPTION = true ->
      parse_body mode i p
      = Done (mk_iteration (i + 1) (params_insert (name, t) p') ParamWithValue)
      /\ forall fuel tr,
         parse_loop (S fuel) mode i p tr
         = parse_loop fuel mode (i + 2) (params_insert (name, t) p')
             (tr ++ [ParamWithValue; ValueOfParam]))
  /\ (is_option t = Done false ->
      is_param p name = false -> has_bit mode PREFER_PARAM_FOR_UNREG_OPTION = false ->
      parse_body mode i p = Done (mk_iteration i (flags_emplace name p') Flag)
      /\ forall fuel tr,
         parse_loop (S fuel) mode i p tr
         = parse_loop fuel mode (S i) (flags_emplace name p') (tr ++ [Flag])).
Proof.
  intros Hb Hi Ht.
  pose proof (before_decision_shape _ _ _ _ Hb) as (Hf & _).
  pose proof Hf as (Ha & _).
  assert (Hi' : (S i < length (args_ p'))%nat) by (rewrite Ha; exact Hi).
  assert (Ht' : arg_at p' (i + 1) = t).
  { rewrite (arg_at_frame _ _ _ Hf). by replace (i + 1)%nat with (S i) by lia. }
  assert (Hbody : parse_body mode i p = value_decision mode i name p').
  { unfold parse_body. rewrite Hb. reflexivity. }
  rewrite Hbody. split; [|split].
  - intros Ho. apply value_decision_next_option; [done|]. by rewrite Ht'.
  - intros Ho Hm Hpar.
    assert (Hv : value_decision mode i name p'
      = Done (mk_iteration (i + 1) (params_insert (name, t) p') ParamWithValue)).
    { rewrite value_decision_next_value by (rewrite ?Ht'; done).
      rewrite Hm, (is_param_frame _ _ _ Hf), Ht'.
      destruct Hpar as [-> | ->]; [done|]. by rewrite orb_true_r. }
    split; [exact Hv|]. intros fuel tr.
    rewrite (parse_loop_step fuel mode i p tr _ ltac:(lia) (eq_trans Hbody Hv)).
    unfold classes_of. simpl.
    replace (i + 1 =? i)%nat with false by (symmetry; apply Nat.eqb_neq; lia).
    by replace (S (i + 1)) with (i + 2)%nat by lia.
  - intros Ho Hnp Hnm.
    assert (Hv : value_decision mode i name p'
      = Done (mk_iteration i (flags_emplace name p') Flag)).
    { rewrite value_decision_next_value by (rewrite ?Ht'; done).
      unfold mode_ok. rewrite Hnm, andb_false_r, (is_param_frame _ _ _ Hf), Hnp.
      reflexivity. }
    split; [exact Hv|]. intros fuel tr.
    rewrite (parse_loop_step fuel mode i p tr _ ltac:(lia) (eq_trans Hbody Hv)).
    unfold classes_of. simpl. by rewrite Nat.eqb_refl.
Qed.

Lemma value_taking_decision_witness :
  (let p := set_args [L"--name"; L"-v"] (add_param (L"name") new_parser) in
   parse_body PREFER_FLAG_FOR_UNREG_OPTION 0 p
   = Done (mk_iteration 0 (flags_emplace (L"name") p) Flag))
  /\ (let p := set_args [L"--name"; L"Alice"] (add_param (L"name") new_parser) in
      parse_body PREFER_FLAG_FOR_UNREG_OPTION 0 p
      = Done (mk_iteration 1 (params_insert (L"name", L"Alice") p) ParamWithValue))
  /\ (let p := set_args [L"-v"; L"out"] new_parser in
      parse_body PREFER_FLAG_FOR_UNREG_OPTION 0 p
      = Done (mk_iteration 0 (flags_emplace (L"v") p) Flag)).
Proof.
  split; [|split]; intros p.
  - refine (proj1
      (value_taking_decision PREFER_FLAG_FOR_UNREG_OPTION 0 p (L"name") p
         (L"-v") _ _ _) _).
    + vm_compute. reflexivity.
    + simpl. lia.
    + reflexivity.
    + reflexivity.
  - refine (proj1 (proj1 (proj2
      (value_taking_decision PREFER_FLAG_FOR_UNREG_OPTION 0 p (L"name") p
         (L"Alice") _ _ _)) _ _ _)).
    + vm_compute. reflexivity.
    + simpl. lia.
    + reflexivity.
    + reflexivity.
    + reflexivity.
    + left. vm_compute. reflexivity.
  - refine (proj1 (proj2 (proj2
      (value_taking_decision PREFER_FLAG_FOR_UNREG_OPTION 0 p (L"v") p
         (L"out") _ _ _)) _ _ _)).
    + vm_compute. reflexivity.
    + simpl. lia.
    + reflexivity.
    + reflexivity.
    + vm_compute. reflexivity.
    + reflexivity.
Defined.

(** The claim without the proviso on the mode fails: with both PREFER
    bits set, a registered name followed by a non-option token is not
    recorded as a parameter, the assertion of line 274 ends the parse. *)
Lemma value_decision_both_prefer_bits :
  let p := set_args [L"--name"; L"Alice"] (add_param (L"name") new_parser) in
  let mode := Z.lor PREFER_FLAG_FOR_UNREG_OPTION PREFER_PARAM_FOR_UNREG_OPTION in
  before_decision mode 0 p = Done (inr (L"name", p))
  /\ is_option (arg_at p 1) = Done false
  /\ is_param p (L"name") = true
  /\ has_bit mode PREFER_PARAM_FOR_UNREG_OPTION = true
  /\ parse_body mode 0 p = AssertFailed PreferModesExclusive
  /\ parse_body mode 0 p
     <> Done (mk_iteration 1 (params_insert (L"name", L"Alice") p) ParamWithValue)
  /\ parse [L"--name"; L"Alice"] mode (add_param (L"name") new_parser)
     = AssertFailed PreferModesExclusive.
Proof.
  cbv zeta. repeat split; try (vm_compute; reflexivity).
  vm_compute. discriminate.
Qed.

(** ** The last token *)

Lemma find_first_not_of_Some c s k :
  find_first_not_of c s = Some k ->
  exists x r, skipn k s = x :: r /\ x <> c /\ firstn k s = repeat c k.
Proof.
  revert k. induction s as [|x s IH]; intros k Ek; cbn [find_first_not_of] in Ek;
    [discriminate|].
  destruct (wchar_eqb x c) eqn:Ex.
  - destruct (find_first_not_of c s) as [k'|]; [|discriminate].
    injection Ek as <-. apply N.eqb_eq in Ex as ->.
    destruct (IH k' eq_refl) as (y & r & ? & ? & ?).
    exists y, r. simpl. repeat split; try done. by f_equal.
  - injection Ek as <-. apply N.eqb_neq in Ex. exists x, s. done.
Qed.

Lemma find_first_not_of_None c s :
  find_first_not_of c s = None -> s = repeat c (length s).
Proof.
  induction s as [|x s IH]; cbn [find_first_not_of]; [done|].
  destruct (wchar_eqb x c) eqn:Ex; [|discriminate].
  destruct (find_first_not_of c s); [discriminate|]. intros _.
  apply N.eqb_eq in Ex as ->. simpl. f_equal. by apply IH.
Qed.

Lemma trim_leading_dashes_nonempty s : s <> [] -> trim_leading_dashes s <> [].
Proof.
  intros Hs. unfold trim_leading_dashes, substr_from.
  destruct (find_first_not_of _ _) as [k|] eqn:Ek; [|done].
  apply find_first_not_of_Some in Ek as (x & r & -> & _). done.
Qed.

Lemma flags_plus_one (name : wstring) (fl : gmultiset wstring) :
  {[+ name +]} ⊎ fl = list_to_set_disj [name] ⊎ fl.
Proof. simpl. multiset_solver. Qed.

Lemma flags_plus_kept (names : list wstring) (k : wstring) (fl : gmultiset wstring) :
  {[+ k +]} ⊎ (list_to_set_disj names ⊎ fl) = list_to_set_disj (names ++ [k]) ⊎ fl.
Proof. rewrite list_to_set_disj_app. simpl. multiset_solver. Qed.

(** An option token that is not split on '=' ends its iteration as a
    flag whenever it is the last token: only flags are added. *)
Lemma parse_body_last_option mode i p :
  i = (length (args_ p) - 1)%nat ->
  is_option (arg_at p i) = Done true ->
  (has_bit mode NO_SPLIT_ON_EQUALSIGN = true
   \/ contains_equal_sign (trim_leading_dashes (arg_at p i)) = false) ->
  exists r names,
    parse_body mode i p = Done r
    /\ end_i r = i /\ class r = Flag
    /\ params_ (after r) = params_ p
    /\ pos_args_ (after r) = pos_args_ p
    /\ flags_ (after r) = list_to_set_disj names ⊎ flags_ p
    /\ names <> [].
Proof.
  intros Hi Ho Hsplit. unfold parse_body, before_decision.
  rewrite Ho. cbn [bind negb].
  set (name := trim_leading_dashes (arg_at p i)) in *.
  assert (Hname : name <> []).
  { apply trim_leading_dashes_nonempty.
    by apply is_option_Done_nonempty in Ho. }
  assert (Hfind : (if negb (has_bit mode NO_SPLIT_ON_EQUALSIGN)
                   then find (widen "=") name else None) = None).
  { destruct Hsplit as [-> | Hc]; [done|].
    destruct (negb _); [|done]. by apply find_None. }
  rewrite Hfind.
  destruct ((length (arg_at p i) - length name =? 1)%nat
            && has_bit SINGLE_DASH_IS_MULTIFLAG mode
            && negb (is_param p name)).
  2:{ cbn [bind]. rewrite value_decision_last by done.
      exists (mk_iteration i (flags_emplace name p) Flag), [name].
      simpl. repeat split; [apply flags_plus_one|done]. }
  destruct (negb (length name =? 0)%nat && is_param p [back name]);
    cbn [length Nat.eqb negb bind].
  - pose proof (emplace_each_char_frame (drop_back name) p) as (Ha & _).
    rewrite value_decision_last by (rewrite Ha; done).
    destruct (emplace_each_char_params (drop_back name) p) as [Hp Hq].
    eexists _, (List.map (fun c => [c]) (drop_back name) ++ [[back name]]).
    split; [reflexivity|]. simpl.
    rewrite Hp, Hq, emplace_each_char_flags.
    repeat split; try done.
    + apply flags_plus_kept.
    + by destruct (List.map _ _).
  - destruct (emplace_each_char_params name p) as [Hp Hq].
    eexists _, (List.map (fun c => [c]) name).
    split; [reflexivity|]. simpl.
    rewrite Hp, Hq, emplace_each_char_flags.
    repeat split; try done. by destruct name.
Qed.

(** C6 (as amended). An option token that is the last token of the input
    and is not split on '=' (NO_SPLIT_ON_EQUALSIGN is set, or its
    dash-trimmed name has no '=') is classified as a flag in every mode:
    its iteration adds flags only, no parameter and no positional, and in
    every completed parse the class of the last token is [Flag]. *)
Theorem last_option_is_flag pre tok mode :
  is_option tok = Done true ->
  (has_bit mode NO_SPLIT_ON_EQUALSIGN = true
   \/ contains_equal_sign (trim_leading_dashes tok) = false) ->
  (forall p, args_ p = pre ++ [tok] ->
     exists r names,
       parse_body mode (length pre) p = Done r
       /\ end_i r = length pre /\ class r = Flag
       /\ params_ (after r) = params_ p
       /\ pos_args_ (after r) = pos_args_ p
       /\ flags_ (after r) = list_to_set_disj names ⊎ flags_ p
       /\ names <> [])
  /\ (forall p q tr,
        parse_traced (pre ++ [tok]) mode p = Done (q, tr) ->
        length tr = length (pre ++ [tok])
        /\ List.last tr Positional = Flag).
Proof.
  intros Ho Hsplit.
  assert (Hbody : forall p, args_ p = pre ++ [tok] ->
     exists r names,
       parse_body mode (length pre) p = Done r
       /\ end_i r = length pre /\ class r = Flag
       /\ params_ (after r) = params_ p
       /\ pos_args_ (after r) = pos_args_ p
       /\ flags_ (after r) = list_to_set_disj names ⊎ flags_ p
       /\ names <> []).
  { intros p Ha.
    assert (Harg : arg_at p (length pre) = tok).
    { unfold arg_at. rewrite Ha. by rewrite nth_middle. }
    apply parse_body_last_option; rewrite ?Harg; try done.
    rewrite Ha, length_app. simpl. lia. }
  split; [exact Hbody|]. intros p q tr H. unfold parse_traced in H.
  set (p0 := set_args (pre ++ [tok]) (clear p)) in *.
  set (n := length (pre ++ [tok])) in *.
  destruct (parse_loop_invariant
    (fun i p' t => args_ p' = pre ++ [tok] /\ length t = i /\ (i <= n)%nat
                   /\ (i = n -> List.last t Positional = Flag)) mode)
    with (fuel := n) (i := 0%nat) (p := p0) (tr := @nil token_class)
         (q := q) (tr' := tr)
    as (i' & (Ha & Hlen & Hle & Hlast) & Hge); try done.
  - clear H p p0 q tr. intros i p tr r (Ha & Hlen & Hle & _) Hlt Hb.
    rewrite Ha in Hlt. fold n in Hlt.
    pose proof (parse_body_shape _ _ _ _ Hb) as ((Ha' & _) & Hend & _).
    assert (Hn : n = S (length pre)) by (subst n; rewrite length_app; simpl; lia).
    rewrite Ha in Hend. fold n in Hend. clearbody n.
    destruct Hend as [He|(He & _ & Hne & Ho')].
    + rewrite He. split; [congruence|]. unfold classes_of.
      rewrite He, Nat.eqb_refl, length_app. simpl.
      split; [lia|]. split; [lia|]. intros Hi.
      assert (i = length pre) as -> by lia.
      destruct (Hbody p Ha) as (r' & _ & Hb' & _ & Hc & _).
      rewrite Hb in Hb'. injection Hb' as <-. rewrite Hc.
      rewrite last_last. reflexivity.
    + rewrite He. split; [congruence|]. unfold classes_of. rewrite He.
      replace (i + 1 =? i)%nat with false by (symmetry; apply Nat.eqb_neq; lia).
      rewrite length_app. simpl.
      assert (i + 1 <> length pre)%nat.
      { intros Hi. unfold arg_at in Ho'. rewrite Ha, Hi, nth_middle in Ho'.
        congruence. }
      split; [lia|]. split; [lia|]. intros Hx.
      destruct (H (Nat.succ_inj _ _ (eq_trans Hx Hn))).
  - repeat split; [lia|]. intros Hz. exfalso. subst n.
    rewrite length_app in Hz. simpl in Hz. lia.
  - rewrite Ha in Hge. fold n in Hge. split; [lia|]. apply Hlast. lia.
Qed.

Lemma last_option_is_flag_witness :
  (exists r names,
     parse_body PREFER_FLAG_FOR_UNREG_OPTION 1
       (set_args [L"prog"; L"-v"] new_parser) = Done r
     /\ end_i r = 1%nat /\ class r = Flag
     /\ params_ (after r) = []
     /\ pos_args_ (after r) = []
     /\ flags_ (after r) = list_to_set_disj names ⊎ ∅
     /\ names <> [])
  /\ (let tr := [Positional; Flag] in
      length tr = 2%nat /\ List.last tr Positional = Flag).
Proof.
  split.
  - refine (proj1 (last_option_is_flag [L"prog"] (L"-v")
              PREFER_FLAG_FOR_UNREG_OPTION _ _)
              (set_args [L"prog"; L"-v"] new_parser) _).
    + reflexivity.
    + right. reflexivity.
    + reflexivity.
  - intros tr.
    refine (proj2 (last_option_is_flag [L"prog"] (L"-v")
              PREFER_FLAG_FOR_UNREG_OPTION _ _) new_parser
              (flags_emplace (L"v") (set_args [L"prog"; L"-v"]
                 (pos_args_emplace_back (L"prog") new_parser))) tr _).
    + reflexivity.
    + right. reflexivity.
    + vm_compute. reflexivity.
Defined.

(** The claim without the proviso fails: a last token such as
    "--alpha=beta" is an option by [is_option] and becomes a parameter. *)
Lemma last_option_split_is_param :
  is_option (L"--alpha=beta") = Done true
  /\ exists q,
       parse_traced [L"--alpha=beta"] PREFER_FLAG_FOR_UNREG_OPTION new_parser
       = Done (q, [InlineParam])
       /\ params_ q = [(L"alpha", L"beta")] /\ flags_ q = ∅.
Proof.
  split; [reflexivity|]. eexists. split; [vm_compute; reflexivity|].
  split; reflexivity.
Qed.

(** ** Every token gets one class *)

Lemma parse_body_effect mode i p r :
  parse_body mode i p = Done r ->
  match class r with
  | Positional =>
      end_i r = i /\ pos_args_ (after r) = pos_args_ p ++ [arg_at p i]
      /\ params_ (after r) = params_ p
  | InlineParam =>
      end_i r = i /\ pos_args_ (after r) = pos_args_ p
      /\ exists key value,
           params_ (after r) = multimap_insert (key, value) (params_ p)
  | Flag =>
      end_i r = i /\ pos_args_ (after r) = pos_args_ p
      /\ params_ (after r) = params_ p
  | ParamWithValue =>
      end_i r = (i + 1)%nat /\ pos_args_ (after r) = pos_args_ p
      /\ exists name,
           params_ (after r)
           = multimap_insert (name, arg_at p (i + 1)) (params_ p)
  | ValueOfParam => False
  end.
Proof.
  unfold parse_body. intros H.
  destruct (before_decision mode i p) as [[r'|[name p']]| |] eqn:Eb;
    simpl in H; try discriminate H.
  - injection H as <-. unfold before_decision in Eb.
    destruct (is_option (arg_at p i)) as [[|]| |]; simpl in Eb;
      try discriminate Eb.
    2:{ injection Eb as <-. simpl. done. }
    destruct (if negb _ then find _ _ else None) as [k|].
    { injection Eb as <-. simpl. eauto. }
    repeat match type of Eb with
    | (if ?c then _ else _) = _ => destruct c
    end; try discriminate Eb; injection Eb as <-; simpl;
      split; try done; split; apply emplace_each_char_params.
  - assert (Hp : pos_args_ p' = pos_args_ p /\ params_ p' = params_ p
                 /\ frame p p').
    { unfold before_decision in Eb.
      destruct (is_option (arg_at p i)) as [[|]| |]; simpl in Eb;
        try discriminate Eb.
      destruct (if negb _ then find _ _ else None) as [k|];
        [discriminate Eb|].
      repeat match type of Eb with
      | (if ?c then _ else _) = _ => destruct c
      end; try discriminate Eb; injection Eb as <- <-;
        repeat split; try apply emplace_each_char_params;
        apply emplace_each_char_frame. }
    destruct Hp as (Hp1 & Hp2 & Hf).
    apply value_decision_shape in H as [_ [(-> & -> & ->)|(-> & -> & -> & _)]].
    + simpl. done.
    + simpl. rewrite Hp1, Hp2, (arg_at_frame _ _ _ Hf). eauto.
Qed.

Lemma multimap_insert_In kv m x :
  In x (multimap_insert kv m) <-> x = kv \/ In x m.
Proof.
  induction m as [|e m IH]; simpl; [intuition congruence|].
  destruct (wstring_ltb (fst kv) (fst e)); simpl; [intuition congruence|].
  rewrite IH. intuition congruence.
Qed.

Lemma parse_body_params_grow mode i p r x :
  parse_body mode i p = Done r -> In x (params_ p) -> In x (params_ (after r)).
Proof.
  intros Hb Hx. apply parse_body_effect in Hb.
  destruct (class r); try done.
  - by destruct Hb as (_ & _ & ->).
  - destruct Hb as (_ & _ & key & value & ->). apply multimap_insert_In. auto.
  - by destruct Hb as (_ & _ & ->).
  - destruct Hb as (_ & _ & name & ->). apply multimap_insert_In. auto.
Qed.

Lemma select_app c a t a' t' :
  length a = length t ->
  select c (a ++ a') (t ++ t') = select c a t ++ select c a' t'.
Proof.
  revert t. induction a as [|tok a IH]; intros [|c' t] Hl; simpl in *;
    try done.
  injection Hl as Hl. rewrite IH by done. by destruct (bool_decide _).
Qed.

Lemma arg_at_lookup p i :
  (i < length (args_ p))%nat -> args_ p !! i = Some (arg_at p i).
Proof.
  intros Hi. unfold arg_at. rewrite nth_lookup.
  destruct (lookup_lt_is_Some_2 _ _ Hi) as [x ->]. done.
Qed.

(** The trace of a completed parse: one class per token, in agreement
    with [is_option]; skipped arguments are exactly the values of the
    options before them and are stored in [params_]; the positional
    tokens are [pos_args_], in input order. *)
Lemma parse_traced_classes argv mode p q tr :
  parse_traced argv mode p = Done (q, tr) ->
  Forall2 class_matches argv tr
  /\ well_paired tr
  /\ pos_args_ q = select Positional argv tr
  /\ Forall (stored_as_value q) (select ValueOfParam argv tr).
Proof.
  unfold parse_traced. intros H.
  destruct (parse_loop_invariant
    (fun i p' t =>
       args_ p' = argv /\ (i <= length argv)%nat /\ length t = i
       /\ Forall2 class_matches (take i argv) t
       /\ well_paired t
       /\ pos_args_ p' = select Positional (take i argv) t
       /\ Forall (stored_as_value p') (select ValueOfParam (take i argv) t)) mode)
    with (fuel := length argv) (i := 0%nat) (p := set_args argv (clear p))
         (tr := @nil token_class) (q := q) (tr' := tr)
    as (i' & (Ha & Hle & Hlen & HF & Hwp & Hpos & Hval) & Hge); try done.
  - clear. intros i p tr r (Ha & Hle & Hlen & HF & Hwp & Hpos & Hval) Hlt Hb.
    pose proof (parse_body_shape _ _ _ _ Hb) as ((Ha' & _) & Hend & Hopt).
    pose proof (parse_body_effect _ _ _ _ Hb) as Heff.
    pose proof (arg_at_lookup p i Hlt) as Hi. rewrite Ha in Hi, Hlt.
    assert (Hgrow : Forall (stored_as_value (after r))
                      (select ValueOfParam (take i argv) tr)).
    { eapply Forall_impl; [|exact Hval]. intros v (name & Hin).
      exists name. eapply parse_body_params_grow; eauto. }
    assert (Hlt' : length (take i argv) = length tr)
      by (rewrite length_take; lia).
    unfold classes_of.
    destruct Hend as [He|(He & Hc & Hne & Ho')].
    + (* one token handled *)
      rewrite He, Nat.eqb_refl, (take_S_r _ _ _ Hi).
      assert (Hc : class r <> ParamWithValue /\ class r <> ValueOfParam).
      { destruct (class r); try done; destruct Heff as (Hx & _); lia. }
      destruct Hc as [Hc1 Hc2].
      split; [congruence|]. split; [lia|].
      split; [rewrite length_app; simpl; lia|].
      split; [apply Forall2_app; [done|]; repeat constructor;
              unfold class_matches; rewrite Hopt;
              by destruct (class r)|].
      split; [by constructor|].
      rewrite !select_app by done. simpl.
      destruct (class r) eqn:Ec; try done; simpl;
        rewrite ?app_nil_r; (split; [|done]);
        destruct Heff as (_ & Hp & _); congruence.
    + (* the option took the next token as its value *)
      rewrite He. rewrite Ha in Hne.
      replace (i + 1 =? i)%nat with false by (symmetry; apply Nat.eqb_neq; lia).
      assert (Hlt2 : (S i < length (args_ p))%nat) by (rewrite Ha; lia).
      pose proof (arg_at_lookup p (S i) Hlt2) as Hi2. rewrite Ha in Hi2.
      replace (i + 1)%nat with (S i) in * by lia.
      rewrite (take_S_r _ _ _ Hi2), (take_S_r _ _ _ Hi), <- app_assoc.
      simpl. rewrite Hc in Heff. destruct Heff as (_ & Hp & name & Hpar).
      split; [congruence|]. split; [rewrite Ha in Hlt2; lia|].
      split; [rewrite length_app; simpl; lia|].
      split; [apply Forall2_app; [done|]; repeat constructor;
              unfold class_matches; by rewrite ?Hopt, ?Hc|].
      rewrite Hc. split; [by constructor|].
      rewrite !select_app by done. simpl.
      rewrite app_nil_r. split; [congruence|].
      apply Forall_app. split; [done|]. repeat constructor.
      exists name. rewrite Hpar. apply multimap_insert_In. by left.
  - simpl. repeat split; try done; try lia; constructor.
  - assert (i' = length argv) as -> by (rewrite Ha in Hge; lia).
    rewrite firstn_all in *. done.
Qed.

(** [parse] always returns: the iterations it grants the loop suffice. *)
Lemma parse_terminates argv mode p : parse argv mode p <> OutOfFuel.
Proof.
  unfold parse. destruct (parse_traced argv mode p) as [[q tr]| |] eqn:H;
    simpl; try discriminate.
  exfalso. eapply parse_loop_fuel; [|exact H]. simpl. apply Nat.le_sub_l.
Qed.

Lemma parse_traced_completes argv mode p :
  mode_ok mode = true -> Forall (fun tok => tok <> []) argv ->
  exists q tr, parse_traced argv mode p = Done (q, tr).
Proof.
  intros Hm Hne.
  apply (parse_loop_completes (length argv) mode 0 (set_args argv (clear p)) []);
    [done| |simpl; apply Nat.le_sub_l].
  intros j Hj. simpl in Hj. unfold arg_at. simpl.
  rewrite Forall_forall in Hne. apply Hne. apply nth_In. lia.
Qed.

(** C7 (as amended). With a well-formed mode (not both PREFER bits),
    every token list without an empty-string token is parsed to the end:
    no assertion fails; the parse is a function of its inputs and gives
    every token exactly one class, in agreement with [is_option]: a token
    is Positional or the value consumed by the option before it exactly
    when [is_option] is false for it; the positional tokens are
    [pos_args_] in order and the consumed values are stored in [params_].
    A token list with an empty-string token does abort: the assertion of
    [is_option] fails. *)
Theorem parse_classifies_every_token argv mode p :
  mode_ok mode = true ->
  (Forall (fun tok => tok <> []) argv ->
   exists q tr,
     parse_traced argv mode p = Done (q, tr)
     /\ parse argv mode p = Done q
     /\ classify argv mode p = Done tr
     /\ length tr = length argv
     /\ Forall2 class_matches argv tr
     /\ well_paired tr
     /\ pos_args_ q = select Positional argv tr
     /\ Forall (stored_as_value q) (select ValueOfParam argv tr))
  /\ (Exists (fun tok => tok = []) argv ->
      parse argv mode p = AssertFailed ArgNotEmpty).
Proof.
  intros Hm. split.
  - intros Hne.
    destruct (parse_traced_completes argv mode p Hm Hne) as (q & tr & H).
    exists q, tr.
    pose proof (parse_traced_classes _ _ _ _ _ H) as (HF & Hwp & Hpos & Hval).
    unfold parse, classify. rewrite H. simpl.
    repeat split; try done. symmetry. eapply Forall2_length; eauto.
  - intros Hex. apply Exists_exists in Hex as (tok & Hin & ->).
    apply In_nth with (d := []) in Hin as (j & Hj & Hz).
    unfold parse.
    destruct (parse_traced argv mode p) as [[q tr]|w|] eqn:H; simpl.
    + exfalso. eapply (parse_loop_empty_token (length argv) mode 0
                         (set_args argv (clear p)) [] j); eauto.
      simpl. split; [apply Nat.le_0_l|exact Hj].
    + f_equal. eapply parse_loop_mode_ok; eauto.
    + exfalso. eapply parse_loop_fuel; [|exact H]. simpl. apply Nat.le_sub_l.
Qed.

Lemma parse_classifies_every_token_witness :
  (exists q tr,
     parse_traced [L"prog"; L"--name"; L"-3"] PREFER_PARAM_FOR_UNREG_OPTION
       new_parser = Done (q, tr)
     /\ parse [L"prog"; L"--name"; L"-3"] PREFER_PARAM_FOR_UNREG_OPTION
          new_parser = Done q
     /\ classify [L"prog"; L"--name"; L"-3"] PREFER_PARAM_FOR_UNREG_OPTION
          new_parser = Done tr
     /\ length tr = 3%nat
     /\ Forall2 class_matches [L"prog"; L"--name"; L"-3"] tr
     /\ well_paired tr
     /\ pos_args_ q = select Positional [L"prog"; L"--name"; L"-3"] tr
     /\ Forall (stored_as_value q)
          (select ValueOfParam [L"prog"; L"--name"; L"-3"] tr))
  /\ parse [L"prog"; L""; L"-v"] PREFER_PARAM_FOR_UNREG_OPTION new_parser
     = AssertFailed ArgNotEmpty.
Proof.
  split.
  - apply (parse_classifies_every_token [L"prog"; L"--name"; L"-3"]
             PREFER_PARAM_FOR_UNREG_OPTION new_parser).
    + reflexivity.
    + repeat constructor; discriminate.
  - apply (parse_classifies_every_token [L"prog"; L""; L"-v"]
             PREFER_PARAM_FOR_UNREG_OPTION new_parser).
    + reflexivity.
    + right. left. reflexivity.
Defined.

(** An empty-string token does abort the classification. *)
Lemma parse_empty_token_aborts :
  mode_ok PREFER_FLAG_FOR_UNREG_OPTION = true
  /\ parse [L"prog"; L""] PREFER_FLAG_FOR_UNREG_OPTION new_parser
     = AssertFailed ArgNotEmpty
  /\ ~ exists q,
         parse [L"prog"; L""] PREFER_FLAG_FOR_UNREG_OPTION new_parser = Done q.
Proof.
  split; [reflexivity|]. split; [reflexivity|].
  intros (q & H). vm_compute in H. discriminate H.
Qed.

(** ** The assertion on the two PREFER bits *)

Lemma parse_body_positional mode i p :
  is_option (arg_at p i) = Done false ->
  parse_body mode i p
  = Done (mk_iteration i (pos_args_emplace_back (arg_at p i) p) Positional).
Proof.
  intros Ho. unfold parse_body, before_decision. rewrite Ho. reflexivity.
Qed.

(** A list of non-option tokens is parsed to the end in every mode: the
    tokens become the positional arguments. *)
Lemma parse_loop_all_positional fuel mode i p tr :
  Forall (fun tok => is_option tok = Done false) (args_ p) ->
  (length (args_ p) - i <= fuel)%nat ->
  exists q tr',
    parse_loop fuel mode i p tr = Done (q, tr')
    /\ pos_args_ q = pos_args_ p ++ skipn i (args_ p)
    /\ flags_ q = flags_ p /\ params_ q = params_ p.
Proof.
  intros Hall. revert i p tr Hall.
  induction fuel as [|fuel IH]; intros i p tr Hall Hf.
  - rewrite parse_loop_exit by lia. exists p, tr.
    rewrite skipn_all2 by lia. by rewrite app_nil_r.
  - destruct (Nat.lt_ge_cases i (length (args_ p))) as [Hlt|Hge].
    2:{ rewrite parse_loop_exit by lia. exists p, tr.
        rewrite skipn_all2 by lia. by rewrite app_nil_r. }
    assert (Ho : is_option (arg_at p i) = Done false).
    { rewrite Forall_forall in Hall. apply Hall. apply nth_In. exact Hlt. }
    rewrite (parse_loop_step _ _ _ _ _ _ Hlt (parse_body_positional mode i p Ho)).
    cbn [end_i after].
    destruct (IH (S i) (pos_args_emplace_back (arg_at p i) p)
                 (tr ++ classes_of i
                    (mk_iteration i (pos_args_emplace_back (arg_at p i) p)
                       Positional)))
      as (q & tr' & -> & Hpos & Hfl & Hpar); [done|simpl; lia|].
    exists q, tr'. split; [done|]. simpl in *. rewrite Hpos, Hfl, Hpar.
    repeat split. rewrite <- app_assoc. simpl. f_equal.
    pose proof (arg_at_lookup p i Hlt) as Hi.
    symmetry. by apply drop_S.
Qed.

(** With both PREFER bits set no iteration ends with an option that took
    the next token as its value. *)
Lemma parse_body_no_value_without_mode_ok mode i p r :
  mode_ok mode = false -> parse_body mode i p = Done r ->
  end_i r = i /\ class r <> ParamWithValue /\ class r <> ValueOfParam.
Proof.
  intros Hm Hb.
  pose proof (parse_body_effect _ _ _ _ Hb) as Heff.
  unfold parse_body in Hb.
  destruct (before_decision mode i p) as [[r'|[name p']]| |] eqn:Eb;
    simpl in Hb; try discriminate Hb.
  - injection Hb as <-. apply before_decision_shape in Eb as (_ & He & _).
    split; [exact He|]. rewrite He in Heff.
    destruct (class r'); try done; destruct Heff as (Hx & _); lia.
  - unfold value_decision, mode_ok in *.
    destruct (i =? length (args_ p') - 1)%nat; simpl in Hb.
    { injection Hb as <-. done. }
    destruct (is_option (arg_at p' (i + 1))) as [[|]| |]; simpl in Hb;
      try discriminate Hb.
    { injection Hb as <-. done. }
    rewrite negb_andb in Hm. rewrite Hm in Hb. discriminate Hb.
Qed.

Lemma parse_traced_no_value_without_mode_ok argv mode p q tr :
  mode_ok mode = false -> parse_traced argv mode p = Done (q, tr) ->
  ~ In ParamWithValue tr /\ ~ In ValueOfParam tr.
Proof.
  unfold parse_traced. intros Hm H.
  destruct (parse_loop_invariant
    (fun _ _ t => ~ In ParamWithValue t /\ ~ In ValueOfParam t) mode)
    with (fuel := length argv) (i := 0%nat) (p := set_args argv (clear p))
         (tr := @nil token_class) (q := q) (tr' := tr)
    as (_ & Hin & _); try done; [|split; intros []].
  clear -Hm. intros i p tr r [H1 H2] _ Hb.
  destruct (parse_body_no_value_without_mode_ok _ _ _ _ Hm Hb) as (He & Hc1 & Hc2).
  unfold classes_of. rewrite He, Nat.eqb_refl.
  split; intros Hin; apply in_app_or in Hin as [Hin|[Hin|[]]]; auto.
Qed.

Lemma contains_equal_sign_find name :
  contains_equal_sign name = true <-> exists k, find (widen "=") name = Some k.
Proof.
  unfold contains_equal_sign. destruct (find (widen "=") name) as [k|] eqn:E.
  - split; [eauto|]. intros _.
    destruct (existsb _ name) eqn:Ex; [done|].
    apply find_None in Ex. congruence.
  - apply find_None in E. rewrite E. split; [done|]. by intros [k ?].
Qed.

Lemma looks_like_option_Done tok b :
  is_option tok = Done b -> looks_like_option tok = b.
Proof.
  intros H. pose proof (is_option_Done_nonempty _ _ H) as Hne.
  rewrite is_option_nonempty in H by (by destruct tok). by injection H.
Qed.

(** Whether lines 212-256 end the iteration or fall through to the value
    decision. *)
Lemma before_decision_reaches mode i p :
  arg_at p i <> [] ->
  exists d,
    before_decision mode i p = Done d
    /\ if reaches_decision mode p (arg_at p i)
       then exists name p', d = inr (name, p')
       else exists r, d = inl r.
Proof.
  intros Hne. unfold before_decision, reaches_decision.
  set (tok := arg_at p i) in *. set (name := trim_leading_dashes tok).
  rewrite is_option_nonempty by (by destruct tok).
  fold (looks_like_option tok). cbn [bind].
  destruct (looks_like_option tok); cbn [negb andb]; [|eauto].
  assert (Hfind : (if negb (has_bit mode NO_SPLIT_ON_EQUALSIGN)
                   then find (widen "=") name else None) = None
                  <-> negb (has_bit mode NO_SPLIT_ON_EQUALSIGN)
                      && contains_equal_sign name = false).
  { destruct (has_bit mode NO_SPLIT_ON_EQUALSIGN); cbn [negb andb]; [done|].
    destruct (contains_equal_sign name) eqn:Ec.
    - apply contains_equal_sign_find in Ec as [k ->]. done.
    - destruct (find (widen "=") name) as [k|] eqn:Ef; [|done].
      assert (contains_equal_sign name = true)
        by (apply contains_equal_sign_find; eauto). congruence. }
  destruct (if negb (has_bit mode NO_SPLIT_ON_EQUALSIGN)
            then find (widen "=") name else None) as [k|].
  { replace (negb (has_bit mode NO_SPLIT_ON_EQUALSIGN)
             && contains_equal_sign name) with true.
    - cbn [negb andb]. eauto.
    - destruct (negb _ && _); [done|]. discriminate (proj2 Hfind eq_refl). }
  rewrite (proj1 Hfind eq_refl). cbn [negb andb].
  destruct ((length tok - length name =? 1)%nat
            && has_bit SINGLE_DASH_IS_MULTIFLAG mode
            && negb (is_param p name)); cbn [negb andb]; [|eauto].
  destruct (negb (length name =? 0)%nat && is_param p [back name]);
    cbn [negb length Nat.eqb]; eauto.
Qed.

Lemma reaches_decision_frame mode p q tok :
  frame p q -> reaches_decision mode q tok = reaches_decision mode p tok.
Proof.
  intros Hf. unfold reaches_decision. by rewrite !(is_param_frame _ _ _ Hf).
Qed.

(** One iteration with both PREFER bits set: it fails the assertion
    exactly when its token reaches the value decision and the next token
    is not an option; otherwise it ends at its own token. *)
Lemma parse_body_both_bits mode i p :
  mode_ok mode = false ->
  (i < length (args_ p))%nat ->
  arg_at p i <> [] ->
  ((S i < length (args_ p))%nat -> arg_at p (S i) <> []) ->
  (reaches_decision mode p (arg_at p i) = true
   /\ (S i < length (args_ p))%nat
   /\ is_option (arg_at p (S i)) = Done false
   /\ parse_body mode i p = AssertFailed PreferModesExclusive)
  \/ ((reaches_decision mode p (arg_at p i) = false
       \/ S i = length (args_ p)
       \/ is_option (arg_at p (S i)) = Done true)
      /\ exists r, parse_body mode i p = Done r
                   /\ end_i r = i /\ frame p (after r)).
Proof.
  intros Hm Hi Hne Hnext.
  destruct (before_decision_reaches mode i p Hne) as (d & Hb & Hd).
  pose proof (before_decision_shape _ _ _ _ Hb) as Hshape.
  unfold parse_body. rewrite Hb. cbn [bind].
  destruct (reaches_decision mode p (arg_at p i)).
  - destruct Hd as (name & p' & ->). destruct Hshape as (Hf & _).
    pose proof Hf as (Ha & _).
    destruct (decide (S i = length (args_ p))) as [Hlast|Hnl].
    { right. split; [auto|]. rewrite value_decision_last by (rewrite Ha; lia).
      eexists. split; [reflexivity|]. by split. }
    assert (Hlt : (S i < length (args_ p))%nat) by lia.
    destruct (is_option_outcome (arg_at p (S i))) as [(_ & b & Ho)|(Hz & _)];
      [|by apply Hnext in Hlt].
    assert (Ho' : is_option (arg_at p' (i + 1)) = Done b).
    { rewrite (arg_at_frame _ _ _ Hf). by replace (i + 1)%nat with (S i) by lia. }
    destruct b.
    + right. split; [auto|].
      rewrite value_decision_next_option by (rewrite ?Ha; done).
      eexists. split; [reflexivity|]. by split.
    + left. split; [done|]. split; [done|]. split; [done|].
      rewrite value_decision_next_value by (rewrite ?Ha; done).
      by rewrite Hm.
  - destruct Hd as (r & ->). destruct Hshape as (Hf & He & _).
    right. split; [auto|]. eauto.
Qed.

(** The loop with both PREFER bits set. *)
Lemma parse_loop_both_bits fuel mode i p tr :
  mode_ok mode = false ->
  (forall j, (i <= j < length (args_ p))%nat -> arg_at p j <> []) ->
  (length (args_ p) - i <= fuel)%nat ->
  ((exists j, (i <= j)%nat /\ (S j < length (args_ p))%nat
              /\ reaches_decision mode p (arg_at p j) = true
              /\ is_option (arg_at p (S j)) = Done false)
   /\ parse_loop fuel mode i p tr = AssertFailed PreferModesExclusive)
  \/ ((forall j, (i <= j)%nat -> (S j < length (args_ p))%nat ->
                 reaches_decision mode p (arg_at p j) = true ->
                 is_option (arg_at p (S j)) = Done true)
      /\ exists q tr', parse_loop fuel mode i p tr = Done (q, tr')).
Proof.
  intros Hm. revert i p tr.
  induction fuel as [|fuel IH]; intros i p tr Hne Hf.
  { right. split; [intros; lia|]. rewrite parse_loop_exit by lia. eauto. }
  destruct (Nat.lt_ge_cases i (length (args_ p))) as [Hlt|Hge].
  2:{ right. split; [intros; lia|]. rewrite parse_loop_exit by lia. eauto. }
  destruct (parse_body_both_bits mode i p Hm Hlt) as
    [(Hr & Hn & Ho & Hb)|(Hwhy & r & Hb & He & Hfr)].
  { apply Hne. lia. }
  { intros ?. apply Hne. lia. }
  - left. split; [exists i; auto|].
    simpl. apply Nat.ltb_lt in Hlt. by rewrite Hlt, Hb.
  - rewrite (parse_loop_step _ _ _ _ _ r) by done. rewrite He.
    pose proof Hfr as (Ha & _).
    destruct (IH (S i) (after r) (tr ++ classes_of i r)) as
      [((j & Hj & Hjn & Hjr & Hjo) & Hloop)|(Hall & Hdone)].
    { intros j Hj. rewrite (arg_at_frame _ _ _ Hfr). apply Hne.
      rewrite Ha in Hj. lia. }
    { rewrite Ha. lia. }
    + left. split; [|done]. exists j.
      rewrite (reaches_decision_frame _ _ _ _ Hfr) in Hjr.
      rewrite !(arg_at_frame _ _ _ Hfr) in *. rewrite Ha in Hjn.
      repeat split; try done. lia.
    + right. split; [|done]. intros j Hj Hjn Hjr.
      destruct (decide (j = i)) as [->|Hji].
      * destruct Hwhy as [Hw|[Hw|Hw]]; [congruence|lia|done].
      * rewrite <- (arg_at_frame _ _ (S j) Hfr). apply Hall.
        -- lia.
        -- by rewrite Ha.
        -- by rewrite (reaches_decision_frame _ _ _ _ Hfr),
             (arg_at_frame _ _ _ Hfr).
Qed.

Lemma arg_at_set_args argv p j tok :
  argv !! j = Some tok -> arg_at (set_args argv p) j = tok.
Proof. intros H. unfold arg_at. cbn [args_ set_args]. by rewrite nth_lookup, H. Qed.

(** C8 (as amended). The assertion on the two PREFER bits is evaluated
    at the value decision only: with both bits set it fails - and ends
    the parse - when an option token reaches the value decision and a
    non-option token follows it. A token reaches the value decision when
    it is an option that is neither split on '=' nor expanded as a
    single-dash cluster to its last character. So for a token list
    without empty tokens and with both bits set: if some token that
    reaches the value decision is directly followed by a token that is
    not an option, the parse ends in the failed assertion; if there is no
    such token (the empty list, non-option tokens only, options followed
    by options or by nothing), the parse is completed without the check.
    A parse that completes has given no option a value from the next
    token. With at most one of the bits set the assertion never fails,
    and the parse completes when no token is empty. *)
Theorem prefer_modes_assertion mode :
  (mode_ok mode = false ->
   (forall i p name p',
      before_decision mode i p = Done (inr (name, p')) ->
      (S i < length (args_ p))%nat ->
      is_option (arg_at p (S i)) = Done false ->
      parse_body mode i p = AssertFailed PreferModesExclusive
      /\ forall fuel tr,
         parse_loop (S fuel) mode i p tr = AssertFailed PreferModesExclusive)
   /\ (forall argv p,
         Forall (fun tok => is_option tok = Done false) argv ->
         exists q, parse argv mode p = Done q /\ pos_args_ q = argv)
   /\ (forall argv p q tr,
         parse_traced argv mode p = Done (q, tr) ->
         ~ In ParamWithValue tr /\ ~ In ValueOfParam tr)
   /\ (forall argv p,
         Forall (fun tok => tok <> []) argv ->
         ((exists j tok v,
             argv !! j = Some tok /\ argv !! S j = Some v
             /\ reaches_decision mode p tok = true
             /\ is_option v = Done false) ->
          parse argv mode p = AssertFailed PreferModesExclusive)
         /\ ((forall j tok v,
                argv !! j = Some tok -> argv !! S j = Some v ->
                reaches_decision mode p tok = true ->
                is_option v = Done true) ->
             exists q, parse argv mode p = Done q))
   /\ (forall i p,
         arg_at p i <> [] ->
         (reaches_decision mode p (arg_at p i) = true
          <-> exists name p', before_decision mode i p = Done (inr (name, p')))))
  /\ (mode_ok mode = true ->
      forall argv p,
        parse argv mode p <> AssertFailed PreferModesExclusive
        /\ (Forall (fun tok => tok <> []) argv ->
            exists q, parse argv mode p = Done q)).
Proof.
  split.
  - intros Hm. split; [|split; [|split; [|split]]].
    + intros i p name p' Hb Hi Ho.
      pose proof (before_decision_shape _ _ _ _ Hb) as (Hf & _).
      pose proof Hf as (Ha & _).
      assert (Hbody : parse_body mode i p = AssertFailed PreferModesExclusive).
      { unfold parse_body. rewrite Hb. cbn [bind].
        rewrite value_decision_next_value, Hm; rewrite ?Ha; try done.
        rewrite (arg_at_frame _ _ _ Hf).
        by replace (i + 1)%nat with (S i) by lia. }
      split; [exact Hbody|]. intros fuel tr. simpl.
      replace (i <? length (args_ p))%nat with true
        by (symmetry; apply Nat.ltb_lt; lia).
      by rewrite Hbody.
    + intros argv p Hall.
      destruct (parse_loop_all_positional (length argv) mode 0
                  (set_args argv (clear p)) []) as (q & tr & H & Hpos & _);
        [done|simpl; apply Nat.le_sub_l|].
      exists q. unfold parse, parse_traced. rewrite H. done.
    + intros argv p q tr. by apply parse_traced_no_value_without_mode_ok.
    + intros argv p Hne.
      set (p0 := set_args argv (clear p)).
      assert (Hlook : forall j tok, argv !! j = Some tok ->
                (j < length argv)%nat /\ arg_at p0 j = tok).
      { intros j tok Hj. split; [by apply lookup_lt_Some in Hj|].
        by apply arg_at_set_args. }
      assert (Hreach : forall tok,
                reaches_decision mode p0 tok = reaches_decision mode p tok).
      { intros tok. reflexivity. }
      destruct (parse_loop_both_bits (length argv) mode 0 p0 [] Hm) as
        [((j & _ & Hjn & Hjr & Hjo) & Hloop)|(Hall & q & tr & Hloop)].
      { intros j [_ Hj]. change (length (args_ p0)) with (length argv) in Hj.
        destruct (lookup_lt_is_Some_2 argv j Hj) as [tok Htok].
        destruct (Hlook _ _ Htok) as [_ ->].
        exact (Forall_lookup_1 _ _ _ _ Hne Htok). }
      { change (length (args_ p0)) with (length argv). apply Nat.le_sub_l. }
      * split.
        -- intros _.
           change (parse argv mode p)
             with (r <- parse_loop (length argv) mode 0 p0 [] ;; Done (fst r)).
           by rewrite Hloop.
        -- intros Hno. exfalso.
           change (length (args_ p0)) with (length argv) in Hjn.
           destruct (lookup_lt_is_Some_2 argv j ltac:(lia)) as [tok Htok].
           destruct (lookup_lt_is_Some_2 argv (S j) Hjn) as [v Hv].
           destruct (Hlook _ _ Htok) as [_ Ht]. destruct (Hlook _ _ Hv) as [_ Hv'].
           rewrite Ht, Hreach in Hjr. rewrite Hv' in Hjo.
           specialize (Hno j tok v Htok Hv Hjr). congruence.
      * split.
        -- intros (j & tok & v & Htok & Hv & Hr & Ho). exfalso.
           destruct (Hlook _ _ Htok) as [_ Ht]. destruct (Hlook _ _ Hv) as [Hlt Hv'].
           specialize (Hall j ltac:(lia) Hlt).
           rewrite Ht, Hreach, Hv' in Hall. specialize (Hall Hr). congruence.
        -- intros _. exists q.
           change (parse argv mode p)
             with (r <- parse_loop (length argv) mode 0 p0 [] ;; Done (fst r)).
           by rewrite Hloop.
    + intros i p Hne.
      destruct (before_decision_reaches mode i p Hne) as (d & Hb & Hd).
      destruct (reaches_decision mode p (arg_at p i)).
      * destruct Hd as (name & p' & ->). split; eauto.
      * destruct Hd as (r & ->). split; [done|].
        intros (name & p' & Hx). congruence.
  - intros Hm argv p. split.
    + unfold parse. intros H.
      destruct (parse_traced argv mode p) as [[q tr]|w|] eqn:E; simpl in H;
        try discriminate H.
      injection H as ->. by apply parse_loop_mode_ok in E.
    + intros Hne.
      destruct (parse_traced_completes argv mode p Hm Hne) as (q & tr & H).
      exists q. unfold parse. by rewrite H.
Qed.

Lemma prefer_modes_assertion_witness :
  (parse_body 3 0 (set_args [L"-v"; L"out"] new_parser)
   = AssertFailed PreferModesExclusive
   /\ forall fuel tr,
      parse_loop (S fuel) 3 0 (set_args [L"-v"; L"out"] new_parser) tr
      = AssertFailed PreferModesExclusive)
  /\ (exists q, parse [L"prog"; L"7"] 3 new_parser = Done q
                /\ pos_args_ q = [L"prog"; L"7"])
  /\ (parse [L"-v"; L"out"] PREFER_PARAM_FOR_UNREG_OPTION new_parser
      <> AssertFailed PreferModesExclusive
      /\ exists q,
           parse [L"-v"; L"out"] PREFER_PARAM_FOR_UNREG_OPTION new_parser
           = Done q)
  /\ parse [L"prog"; L"-v"; L"out"] 3 new_parser
     = AssertFailed PreferModesExclusive
  /\ (exists q, parse [L"prog"; L"-a"; L"-b"] 3 new_parser = Done q).
Proof.
  split; [|split; [|split; [|split]]].
  - refine (proj1 (proj1 (prefer_modes_assertion 3) _)
              0%nat (set_args [L"-v"; L"out"] new_parser) (L"v")
              (set_args [L"-v"; L"out"] new_parser) _ _ _).
    + reflexivity.
    + vm_compute. reflexivity.
    + simpl. lia.
    + reflexivity.
  - refine (proj1 (proj2 (proj1 (prefer_modes_assertion 3) _))
              [L"prog"; L"7"] new_parser _).
    + reflexivity.
    + repeat constructor.
  - destruct (proj2 (prefer_modes_assertion PREFER_PARAM_FOR_UNREG_OPTION)
                eq_refl [L"-v"; L"out"] new_parser) as [Hno Hdone].
    split; [exact Hno|]. apply Hdone. repeat constructor; discriminate.
  - destruct (proj1 (prefer_modes_assertion 3) eq_refl) as (_ & _ & _ & Hgen & _).
    destruct (Hgen [L"prog"; L"-v"; L"out"] new_parser) as [Habort _].
    { repeat constructor; discriminate. }
    apply Habort. exists 1%nat, (L"-v"), (L"out").
    repeat split; vm_compute; reflexivity.
  - destruct (proj1 (prefer_modes_assertion 3) eq_refl) as (_ & _ & _ & Hgen & _).
    destruct (Hgen [L"prog"; L"-a"; L"-b"] new_parser) as [_ Hdone].
    { repeat constructor; discriminate. }
    apply Hdone. intros [|[|[|j]]] tok v Hj Hv Hr; simpl in Hj, Hv;
      try discriminate Hv; injection Hj as <-; injection Hv as <-.
    + vm_compute in Hr. discriminate Hr.
    + vm_compute. reflexivity.
Defined.

(** With both PREFER bits set the assertion does not fire for every
    token list: these parses complete. *)
Lemma both_prefer_bits_parse_completes :
  mode_ok 3 = false
  /\ has_bit 3 PREFER_FLAG_FOR_UNREG_OPTION = true
  /\ has_bit 3 PREFER_PARAM_FOR_UNREG_OPTION = true
  /\ parse [] 3 new_parser = Done new_parser
  /\ (exists q, parse [L"prog"; L"-v"] 3 new_parser = Done q
                /\ pos_args_ q = [L"prog"] /\ flags_ q = {[+ L"v" +]})
  /\ parse [] 3 new_parser <> AssertFailed PreferModesExclusive.
Proof.
  repeat split; try discriminate.
  eexists. split; [vm_compute; reflexivity|]. split; vm_compute; reflexivity.
Qed.

(** ** Parsing again *)

Lemma parse_traced_frame argv mode p q tr :
  parse_traced argv mode p = Done (q, tr) ->
  args_ q = argv /\ registeredParams_ q = registeredParams_ p
  /\ empty_ q = empty_ p.
Proof.
  unfold parse_traced. intros H. apply parse_loop_frame in H. exact H.
Qed.

(** [parse] reads nothing of the parser but the registered names (and
    the sentinel, which no member function assigns). *)
Lemma parse_traced_reads_registered argv mode p p' :
  registeredParams_ p' = registeredParams_ p -> empty_ p' = empty_ p ->
  parse_traced argv mode p' = parse_traced argv mode p.
Proof.
  intros Hr He. unfold parse_traced, set_args, clear. simpl.
  by rewrite Hr, He.
Qed.

(** C9. A second [parse] on the same instance fully replaces the flags,
    parameters and positionals of the first: its outcome is the one a
    parser holding nothing but the registered names gives, so no entry of
    the earlier parse survives. Parsing leaves the set of registered
    names as it was. *)
Theorem reparse_replaces argv1 mode1 argv2 mode2 p p1 :
  parse argv1 mode1 p = Done p1 ->
  registeredParams_ p1 = registeredParams_ p
  /\ parse argv2 mode2 p1
     = parse argv2 mode2
         (mk_wparser [] [] [] ∅ (registeredParams_ p) (empty_ p))
  /\ parse argv2 mode2 p1 = parse argv2 mode2 p
  /\ forall p2, parse argv2 mode2 p1 = Done p2 ->
       registeredParams_ p2 = registeredParams_ p
       /\ args_ p2 = argv2.
Proof.
  unfold parse. intros H.
  destruct (parse_traced argv1 mode1 p) as [[q tr]| |] eqn:E; simpl in H;
    try discriminate H.
  injection H as ->. apply parse_traced_frame in E as (_ & Hr & He).
  split; [exact Hr|].
  split; [by rewrite (parse_traced_reads_registered argv2 mode2
                        (mk_wparser [] [] [] ∅ (registeredParams_ p) (empty_ p)) p1)|].
  split; [by rewrite (parse_traced_reads_registered argv2 mode2 p p1)|].
  intros p2 H2.
  destruct (parse_traced argv2 mode2 p1) as [[q2 tr2]| |] eqn:E2; simpl in H2;
    try discriminate H2.
  injection H2 as ->. apply parse_traced_frame in E2 as (Ha & Hr2 & _).
  split; [congruence|exact Ha].
Qed.

Lemma reparse_replaces_witness :
  let p := add_param (L"name") new_parser in
  let p1 := flags_emplace (L"a") (set_args [L"-a"] p) in
  registeredParams_ p1 = registeredParams_ p
  /\ parse [L"x"] PREFER_FLAG_FOR_UNREG_OPTION p1
     = parse [L"x"] PREFER_FLAG_FOR_UNREG_OPTION
         (mk_wparser [] [] [] ∅ (registeredParams_ p) (empty_ p))
  /\ parse [L"x"] PREFER_FLAG_FOR_UNREG_OPTION p1
     = parse [L"x"] PREFER_FLAG_FOR_UNREG_OPTION p
  /\ forall p2, parse [L"x"] PREFER_FLAG_FOR_UNREG_OPTION p1 = Done p2 ->
       registeredParams_ p2 = registeredParams_ p /\ args_ p2 = [L"x"].
Proof.
  intros p p1.
  apply (reparse_replaces [L"-a"] PREFER_FLAG_FOR_UNREG_OPTION [L"x"]
           PREFER_FLAG_FOR_UNREG_OPTION p p1).
  vm_compute. reflexivity.
Defined.

(** ** Multiflag expansion *)

Lemma before_decision_abc mode i p :
  arg_at p i = L"-abc" ->
  has_bit SINGLE_DASH_IS_MULTIFLAG mode = true ->
  is_param p (L"abc") = false ->
  before_decision mode i p
  = if is_param p (L"c")
    then Done (inr (L"c", flags_emplace (L"b") (flags_emplace (L"a") p)))
    else Done (inl (mk_iteration i
                      (flags_emplace (L"c")
                         (flags_emplace (L"b") (flags_emplace (L"a") p)))
                      Flag)).
Proof.
  intros Harg Hm Hreg. unfold before_decision. rewrite Harg.
  change (is_option (L"-abc")) with (@Done bool true). cbn [bind negb].
  change (trim_leading_dashes (L"-abc")) with (L"abc").
  change (find (widen "=") (L"abc")) with (@None nat).
  replace (if negb (has_bit mode NO_SPLIT_ON_EQUALSIGN) then None else None)
    with (@None nat) by (by destruct (negb _)).
  rewrite Hm, Hreg.
  change (length (L"-abc") - length (L"abc") =? 1)%nat with true.
  cbn [andb negb].
  change (length (L"abc") =? 0)%nat with false. cbn [andb negb].
  change [back (L"abc")] with (L"c").
  destruct (is_param p (L"c")); reflexivity.
Qed.

(** C4 (as amended). With SINGLE_DASH_IS_MULTIFLAG set and "abc" not
    registered: when "c" is not registered either, the token "-abc"
    yields the three flags "a", "b", "c" and its iteration does not
    advance past it (no following token is consumed). When "c" is
    registered as a parameter, a token X follows, X is not itself an
    option, and the two PREFER bits are not both set, "-abc" X yields
    the flags "a", "b" and the parameter ("c", X). *)
Theorem multiflag_abc mode p X :
  has_bit SINGLE_DASH_IS_MULTIFLAG mode = true ->
  is_param p (L"abc") = false ->
  (is_param p (L"c") = false ->
   (forall i, arg_at p i = L"-abc" ->
      parse_body mode i p
      = Done (mk_iteration i
                (flags_emplace (L"c")
                   (flags_emplace (L"b") (flags_emplace (L"a") p)))
                Flag))
   /\ exists q,
        parse [L"-abc"] mode p = Done q
        /\ flags_ q = {[+ L"a"; L"b"; L"c" +]}
        /\ params_ q = [] /\ pos_args_ q = [])
  /\ (is_param p (L"c") = true ->
      is_option X = Done false -> mode_ok mode = true ->
      exists q,
        parse [L"-abc"; X] mode p = Done q
        /\ flags_ q = {[+ L"a"; L"b" +]}
        /\ params_ q = [(L"c", X)] /\ pos_args_ q = []).
Proof.
  intros Hm Hreg. split.
  - intros Hc. split.
    + intros i Harg. unfold parse_body.
      rewrite (before_decision_abc mode i p Harg Hm Hreg), Hc. reflexivity.
    + unfold parse, parse_traced.
      change (length [L"-abc"]) with 1%nat.
      set (p0 := set_args [L"-abc"] (clear p)).
      assert (Hb : parse_body mode 0 p0
        = Done (mk_iteration 0
                  (flags_emplace (L"c")
                     (flags_emplace (L"b") (flags_emplace (L"a") p0))) Flag)).
      { unfold parse_body. rewrite (before_decision_abc mode 0 p0); try done.
        change (is_param p0 (L"c")) with (is_param p (L"c")).
        by rewrite Hc. }
      rewrite (parse_loop_step 0 mode 0 p0 [] _ ltac:(simpl; lia) Hb).
      rewrite parse_loop_exit by (simpl; lia). simpl.
      eexists. split; [reflexivity|]. simpl.
      split; [vm_compute; reflexivity|done].
  - intros Hc HX Hmode.
    unfold parse, parse_traced.
    change (length [L"-abc"; X]) with 2%nat.
    set (p0 := set_args [L"-abc"; X] (clear p)).
    set (p1 := flags_emplace (L"b") (flags_emplace (L"a") p0)).
    assert (Hb : parse_body mode 0 p0
      = Done (mk_iteration 1 (params_insert (L"c", X) p1) ParamWithValue)).
    { unfold parse_body. rewrite (before_decision_abc mode 0 p0); try done.
      change (is_param p0 (L"c")) with (is_param p (L"c")).
      rewrite Hc. cbn [bind]. fold p1.
      rewrite value_decision_next_value; [|simpl; lia|exact HX].
      rewrite Hmode.
      change (is_param p1 (L"c")) with (is_param p (L"c")). by rewrite Hc. }
    rewrite (parse_loop_step 1 mode 0 p0 [] _ ltac:(simpl; lia) Hb).
    rewrite parse_loop_exit by (simpl; lia). simpl.
    eexists. split; [reflexivity|]. simpl.
    split; [vm_compute; reflexivity|done].
Qed.

Lemma multiflag_abc_witness :
  (exists q,
     parse [L"-abc"] SINGLE_DASH_IS_MULTIFLAG new_parser = Done q
     /\ flags_ q = {[+ L"a"; L"b"; L"c" +]}
     /\ params_ q = [] /\ pos_args_ q = [])
  /\ exists q,
       parse [L"-abc"; L"X"] SINGLE_DASH_IS_MULTIFLAG
         (add_param (L"c") new_parser) = Done q
       /\ flags_ q = {[+ L"a"; L"b" +]}
       /\ params_ q = [(L"c", L"X")] /\ pos_args_ q = [].
Proof.
  split.
  - refine (proj2 (proj1 (multiflag_abc SINGLE_DASH_IS_MULTIFLAG
                            new_parser (L"X") _ _) _));
      vm_compute; reflexivity.
  - refine (proj2 (multiflag_abc SINGLE_DASH_IS_MULTIFLAG
                     (add_param (L"c") new_parser) (L"X") _ _) _ _ _);
      vm_compute; reflexivity.
Defined.

(** A following token that exists but is itself an option is not taken
    as the value of the registered "c": "c" becomes a flag. *)
Lemma multiflag_abc_followed_by_option :
  let p := add_param (L"c") new_parser in
  let mode := Z.lor SINGLE_DASH_IS_MULTIFLAG PREFER_FLAG_FOR_UNREG_OPTION in
  has_bit SINGLE_DASH_IS_MULTIFLAG mode = true
  /\ is_param p (L"abc") = false /\ is_param p (L"c") = true
  /\ exists q,
       parse [L"-abc"; L"-v"] mode p = Done q
       /\ params_ q = []
       /\ flags_ q = {[+ L"a"; L"b"; L"c"; L"v" +]}
       /\ ~ In (L"c", L"-v") (params_ q).
Proof.
  cbv zeta. repeat split; try (vm_compute; reflexivity).
  eexists. split; [vm_compute; reflexivity|].
  split; [reflexivity|]. split; [vm_compute; reflexivity|]. simpl. tauto.
Qed.

(** ** Numbers and options *)

Module StreamFacts.
Import Stream.

(** Decides the character classes of a code unit. *)
Ltac char_classes :=
  unfold ends_number, is_digit, is_sign, is_point, is_exp, iswspace,
    wchar_eqb, widen in *; simpl N_of_ascii in *;
  repeat match goal with
  | H : context [(?a =? ?b)%N] |- _ => destruct (N.eqb_spec a b)
  | H : context [(?a <=? ?b)%N] |- _ => destruct (N.leb_spec a b)
  | |- context [(?a =? ?b)%N] => destruct (N.eqb_spec a b)
  | |- context [(?a <=? ?b)%N] => destruct (N.leb_spec a b)
  end; simpl in *; try discriminate; try reflexivity; try lia.

Lemma digit_not_other c :
  is_digit c = true ->
  is_sign c = false /\ is_point c = false /\ is_exp c = false
  /\ iswspace c = false.
Proof. intros H. repeat split; char_classes. Qed.

Lemma sign_not_other c :
  is_sign c = true ->
  is_digit c = false /\ is_point c = false /\ is_exp c = false
  /\ iswspace c = false.
Proof. intros H. repeat split; char_classes. Qed.

Lemma point_not_other c :
  is_point c = true ->
  is_digit c = false /\ is_exp c = false /\ iswspace c = false.
Proof. intros H. repeat split; char_classes. Qed.

Lemma exp_not_other c :
  is_exp c = true -> is_digit c = false /\ is_point c = false.
Proof. intros H. repeat split; char_classes. Qed.

Lemma span_digits_spec s ds r :
  span_digits s = (ds, r) ->
  s = ds ++ r /\ forallb is_digit ds = true
  /\ match r with c :: _ => is_digit c = false | [] => True end.
Proof.
  revert ds r. induction s as [|c s IH]; intros ds r H; simpl in H.
  - by injection H as <- <-.
  - destruct (is_digit c) eqn:Ec.
    + destruct (span_digits s) as [ds' r'].
      injection H as <- <-. destruct (IH ds' r' eq_refl) as (-> & ? & ?).
      simpl. rewrite Ec. done.
    + injection H as <- <-. simpl. by rewrite Ec.
Qed.

Lemma accumulate_digits fm fd fs ds s :
  forallb is_digit ds = true ->
  accumulate fm fd fs (ds ++ s)
  = ds ++ accumulate (fm || negb (length ds =? 0)%nat) fd fs s.
Proof.
  revert fm. induction ds as [|c ds IH]; intros fm H; simpl in *.
  - by rewrite orb_false_r.
  - apply andb_prop in H as [Hc Hds]. rewrite Hc, IH by done.
    simpl. by rewrite orb_true_r.
Qed.

Lemma accumulate_stops fm fd fs rest :
  stops_number rest = true -> accumulate fm fd fs rest = [].
Proof.
  destruct rest as [|c rest]; simpl; [done|]. unfold ends_number.
  intros H. apply andb_prop in H as [H He]. apply andb_prop in H as [Hd Hp].
  apply negb_true_iff in Hd, Hp, He. by rewrite Hd, Hp, He.
Qed.
End StreamFacts.

Import Stream StreamFacts.

(** After the mantissa, an exponent part that [strtod] converts to its
    end is accumulated to its end, and nothing after it. *)
Lemma accumulate_exponent e fd s3 rest :
  exponent_part s3 = (e, []) ->
  stops_number rest = true ->
  accumulate true fd false (s3 ++ rest) = s3.
Proof.
  unfold exponent_part. intros H Hrest. destruct s3 as [|c s']; simpl app.
  { by apply accumulate_stops. }
  destruct (is_exp c) eqn:Ec; [|discriminate H].
  destruct (exp_not_other c Ec) as [Hd Hp].
  cbn [accumulate]. rewrite Hd, Hp, Ec. cbn [andb negb]. f_equal.
  assert (Hdigits : forall s4 exp_ds s5,
            span_digits s4 = (exp_ds, s5) -> exp_ds <> [] -> s5 = [] ->
            accumulate true fd true (s4 ++ rest) = s4).
  { intros s4 exp_ds s5 Hs Hne ->.
    apply span_digits_spec in Hs as (-> & Hall & _).
    rewrite app_nil_r, accumulate_digits, accumulate_stops by done.
    by rewrite app_nil_r. }
  destruct s' as [|c' s''].
  - simpl in H. discriminate H.
  - cbn [app]. destruct (is_sign c') eqn:Es.
    + destruct (span_digits s'') as [exp_ds s5] eqn:Hs.
      destruct exp_ds as [|x exp_ds]; [discriminate H|].
      injection H as _ ->. f_equal. eapply Hdigits; eauto.
    + destruct (span_digits (c' :: s'')) as [exp_ds s5] eqn:Hs.
      destruct exp_ds as [|x exp_ds]; [discriminate H|].
      injection H as _ ->.
      change (c' :: s'' ++ rest) with ((c' :: s'') ++ rest).
      eapply Hdigits; eauto.
Qed.

Lemma accumulate_unsigned negative s1 d rest :
  strtod_unsigned negative s1 = Some (d, []) ->
  stops_number rest = true ->
  accumulate false false false (s1 ++ rest) = s1.
Proof.
  unfold strtod_unsigned. intros H Hrest.
  destruct (span_digits s1) as [int_ds s2] eqn:Hint.
  apply span_digits_spec in Hint as (-> & Hall & Hs2).
  rewrite <- app_assoc, accumulate_digits by done. f_equal. simpl orb.
  destruct s2 as [|c s'].
  - rewrite app_nil_r in H. destruct int_ds as [|x int_ds]; [discriminate H|].
    simpl app. by apply accumulate_stops.
  - destruct (is_point c) eqn:Ep.
    + destruct (span_digits s') as [frac_ds s3] eqn:Hfrac.
      apply span_digits_spec in Hfrac as (-> & Hall' & _).
      simpl app. cbn [accumulate]. rewrite Hs2, Ep. cbn [andb negb]. f_equal.
      rewrite <- app_assoc, accumulate_digits by done. f_equal.
      destruct (int_ds ++ frac_ds) as [|x l] eqn:Hm; [discriminate H|].
      replace (negb (length int_ds =? 0)%nat || negb (length frac_ds =? 0)%nat)
        with true.
      2:{ destruct int_ds, frac_ds; try done. }
      destruct (exponent_part s3) as [e r] eqn:He. injection H as _ ->.
      eapply accumulate_exponent; eauto.
    + rewrite app_nil_r in H. destruct int_ds as [|x int_ds]; [discriminate H|].
      simpl negb.
      destruct (exponent_part (c :: s')) as [e r] eqn:He. injection H as _ ->.
      eapply accumulate_exponent; eauto.
Qed.

(** A complete number followed by nothing, or by a character that cannot
    continue a number, is the whole field of stage 2. *)
Lemma stage2_number lit rest :
  entire_string_is_number lit = true ->
  stops_number rest = true ->
  stage2 (lit ++ rest) = lit.
Proof.
  unfold entire_string_is_number, strtod. intros H Hrest.
  destruct lit as [|c lit]; [discriminate H|]. simpl app. unfold stage2.
  destruct (is_sign c) eqn:Es.
  - destruct (strtod_unsigned _ lit) as [[d [|]]|] eqn:E; try discriminate H.
    f_equal. eapply accumulate_unsigned; eauto.
  - destruct (strtod_unsigned false (c :: lit)) as [[d [|]]|] eqn:E;
      try discriminate H.
    change (c :: lit ++ rest) with ((c :: lit) ++ rest).
    eapply accumulate_unsigned; eauto.
Qed.



Lemma skip_ws_not_space c s : iswspace c = false -> skip_ws (c :: s) = c :: s.
Proof. intros H. simpl. by rewrite H. Qed.

(** [is_number] on a token that does not start with white space: stage 2
    takes the field, stage 3 converts it. *)
Lemma is_number_field c s :
  iswspace c = false ->
  is_number (c :: s) = converts_to_double (stage2 (c :: s)).
Proof.
  intros Hc. unfold is_number, extract_double, converts_to_double.
  cbn [of_wstring fail failbit badbit orb unread gpos str skipn].
  rewrite (skip_ws_not_space c s Hc).
  unfold setstate, consume, fail, bad. simpl failbit. simpl badbit.
  by rewrite !orb_false_r.
Qed.

Lemma number_starts_without_space c s :
  entire_string_is_number (c :: s) = true -> iswspace c = false.
Proof.
  unfold entire_string_is_number, strtod. intros H.
  destruct (is_sign c) eqn:Es;
    [by apply sign_not_other in Es as (_ & _ & _ & ?)|].
  unfold strtod_unsigned in H. cbn [span_digits] in H.
  destruct (is_digit c) eqn:Ed;
    [by apply digit_not_other in Ed as (_ & _ & _ & ?)|].
  destruct (is_point c) eqn:Ep;
    [by apply point_not_other in Ep as (_ & _ & ?)|].
  discriminate H.
Qed.


Lemma converts_to_double_spec tok :
  converts_to_double tok
  = entire_string_is_number tok && negb (exceeds_double tok).
Proof.
  unfold converts_to_double, entire_string_is_number, exceeds_double,
    stage3_fails.
  by destruct (strtod tok) as [[d [|c r]]|].
Qed.

(** A token that starts with a number which nothing continues is a
    number for [is_number] exactly when that number is not too large. *)
Lemma is_number_whole_prefix lit rest :
  entire_string_is_number lit = true -> stops_number rest = true ->
  is_number (lit ++ rest) = negb (exceeds_double lit).
Proof.
  intros Hlit Hrest. destruct lit as [|c lit]; [discriminate Hlit|].
  simpl app. rewrite is_number_field by (by eapply number_starts_without_space).
  change (c :: lit ++ rest) with ((c :: lit) ++ rest).
  by rewrite stage2_number, converts_to_double_spec, Hlit.
Qed.

Lemma is_number_prefix lit rest :
  converts_to_double lit = true -> stops_number rest = true ->
  is_number (lit ++ rest) = true.
Proof.
  rewrite converts_to_double_spec. intros Hlit Hrest.
  apply andb_prop in Hlit as [Hlit Hfit].
  by rewrite is_number_whole_prefix.
Qed.




(** ** Positional access *)

Lemma parse_constructed argv mode p q :
  constructed p -> parse argv mode p = Done q -> constructed q.
Proof.
  unfold constructed, parse. intros Hp H.
  destruct (parse_traced argv mode p) as [[q' tr]| |] eqn:E; simpl in H;
    try discriminate H.
  injection H as ->. apply parse_traced_frame in E as (_ & _ & He). congruence.
Qed.

Lemma add_param_constructed name p : constructed p -> constructed (add_param name p).
Proof. done. Qed.

Lemma new_parser_constructed : constructed new_parser.
Proof. done. Qed.

(** C10, the accessors without a default value. For an index at or past
    the number of positional arguments, [operator[](size_t)] returns the
    empty string and [operator()(size_t)] returns a stream in the failed
    state; for an index below it both give the stored positional value,
    the stream in the good state. *)
Theorem positional_access p ind :
  constructed p ->
  ((length (pos_args_ p) <= ind)%nat ->
   index_pos p ind = []
   /\ Stream.fail (call_pos p ind) = true
   /\ Stream.good_for_use (call_pos p ind) = false
   /\ Stream.str (call_pos p ind) = [])
  /\ (forall v, pos_args_ p !! ind = Some v ->
      index_pos p ind = v
      /\ Stream.str (call_pos p ind) = v
      /\ Stream.fail (call_pos p ind) = false
      /\ Stream.good_for_use (call_pos p ind) = true).
Proof.
  unfold constructed, index_pos, call_pos. intros He. split.
  - intros Hge.
    replace (ind <? length (pos_args_ p))%nat with false
      by (symmetry; apply Nat.ltb_ge; lia).
    replace (length (pos_args_ p) <=? ind)%nat with true
      by (symmetry; apply Nat.leb_le; lia).
    done.
  - intros v Hv. pose proof (lookup_lt_Some _ _ _ Hv) as Hlt.
    replace (ind <? length (pos_args_ p))%nat with true
      by (symmetry; apply Nat.ltb_lt; lia).
    replace (length (pos_args_ p) <=? ind)%nat with false
      by (symmetry; apply Nat.leb_gt; lia).
    rewrite nth_lookup, Hv. done.
Qed.

Lemma positional_access_witness :
  let p := pos_args_emplace_back (L"prog") new_parser in
  (index_pos p 5 = []
   /\ Stream.fail (call_pos p 5) = true
   /\ Stream.good_for_use (call_pos p 5) = false
   /\ Stream.str (call_pos p 5) = [])
  /\ (index_pos p 0 = L"prog"
      /\ Stream.str (call_pos p 0) = L"prog"
      /\ Stream.fail (call_pos p 0) = false
      /\ Stream.good_for_use (call_pos p 0) = true).
Proof.
  intros p. split.
  - apply (proj1 (positional_access p 5 eq_refl)). simpl. lia.
  - apply (proj2 (positional_access p 0 eq_refl) (L"prog")). reflexivity.
Defined.

(** * The rest of the interface *)

(** ** The order of the keys *)

Lemma wstring_ltb_irrefl a : wstring_ltb a a = false.
Proof.
  induction a as [|x a IH]; simpl; [done|]. by rewrite N.ltb_irrefl.
Qed.

Lemma wstring_ltb_trans a b c :
  wstring_ltb a b = true -> wstring_ltb b c = true -> wstring_ltb a c = true.
Proof.
  revert b c. induction a as [|x a IH]; intros [|y b] [|z c]; simpl;
    try done.
  destruct (N.ltb_spec x y), (N.ltb_spec y x), (N.ltb_spec y z),
    (N.ltb_spec z y), (N.ltb_spec x z), (N.ltb_spec z x);
    try done; try lia.
  apply IH.
Qed.

Lemma wstring_ltb_connected a b :
  wstring_ltb a b = false -> wstring_ltb b a = false -> a = b.
Proof.
  revert b. induction a as [|x a IH]; intros [|y b]; simpl; try done.
  destruct (N.ltb_spec x y), (N.ltb_spec y x); try done; try lia.
  intros H1 H2. f_equal; [lia|by apply IH].
Qed.

Lemma wstring_ltb_asym a b : wstring_ltb a b = true -> wstring_ltb b a = false.
Proof.
  intros H. destruct (wstring_ltb b a) eqn:E; [|done].
  pose proof (wstring_ltb_trans _ _ _ H E) as Hc.
  by rewrite wstring_ltb_irrefl in Hc.
Qed.

Lemma key_le_trans e1 e2 e3 : key_le e1 e2 -> key_le e2 e3 -> key_le e1 e3.
Proof.
  unfold key_le. intros H12 H23.
  destruct (wstring_ltb (fst e3) (fst e1)) eqn:H31; [|done].
  destruct (wstring_ltb (fst e1) (fst e2)) eqn:H.
  - pose proof (wstring_ltb_trans _ _ _ H31 H). congruence.
  - pose proof (wstring_ltb_connected _ _ H H12) as Heq.
    rewrite Heq in H31. congruence.
Qed.

(** ** [params_] as a multimap *)

Lemma multimap_insert_sorted kv m :
  key_sorted m -> key_sorted (multimap_insert kv m).
Proof.
  unfold key_sorted. induction 1 as [|e m Hs IH Hall]; simpl.
  - repeat constructor.
  - destruct (wstring_ltb (fst kv) (fst e)) eqn:Hlt.
    + constructor; [by constructor|].
      assert (Hke : key_le kv e) by (by apply wstring_ltb_asym).
      constructor; [exact Hke|].
      eapply Forall_impl; [|exact Hall]. intros. by eapply key_le_trans.
    + constructor; [exact IH|].
      rewrite Forall_forall. intros x Hx.
      apply multimap_insert_In in Hx as [->|Hx]; [exact Hlt|].
      rewrite Forall_forall in Hall. by apply Hall.
Qed.

Lemma entries_of_insert_other k kv m :
  fst kv <> k -> entries_of k (multimap_insert kv m) = entries_of k m.
Proof.
  intros Hne. unfold entries_of. induction m as [|e m IH]; simpl.
  - by rewrite bool_decide_eq_false_2.
  - destruct (wstring_ltb (fst kv) (fst e)); simpl.
    + by rewrite (bool_decide_eq_false_2 (fst kv = k)).
    + by rewrite IH.
Qed.

Lemma entries_of_above k m :
  Forall (fun e => wstring_ltb k (fst e) = true) m -> entries_of k m = [].
Proof.
  unfold entries_of. induction 1 as [|e m He _ IH]; simpl; [done|].
  rewrite bool_decide_eq_false_2; [done|].
  intros Heq. rewrite Heq, wstring_ltb_irrefl in He. done.
Qed.

Lemma entries_of_cons k e m :
  entries_of k (e :: m)
  = if bool_decide (fst e = k) then e :: entries_of k m else entries_of k m.
Proof. reflexivity. Qed.

Lemma entries_of_insert_same k v m :
  key_sorted m ->
  entries_of k (multimap_insert (k, v) m) = entries_of k m ++ [(k, v)].
Proof.
  unfold key_sorted. induction 1 as [|e m Hs IH Hall]; cbn [multimap_insert fst].
  - rewrite entries_of_cons. simpl. by rewrite bool_decide_eq_true_2.
  - destruct (wstring_ltb k (fst e)) eqn:Hlt.
    + assert (Habove : entries_of k (e :: m) = []).
      { apply entries_of_above. constructor; [done|].
        eapply Forall_impl; [|exact Hall]. unfold key_le. intros e' He'.
        destruct (wstring_ltb k (fst e')) eqn:E; [done|].
        destruct (wstring_ltb (fst e) (fst e')) eqn:E2.
        - pose proof (wstring_ltb_trans _ _ _ Hlt E2). congruence.
        - pose proof (wstring_ltb_connected _ _ E2 He') as Heq.
          rewrite <- Heq in E. congruence. }
      rewrite (entries_of_cons k (k, v)), Habove. simpl.
      by rewrite bool_decide_eq_true_2.
    + rewrite !entries_of_cons, IH. by destruct (bool_decide (fst e = k)).
Qed.

Lemma key_sorted_above k e m :
  StronglySorted key_le (e :: m) -> wstring_ltb k (fst e) = true ->
  entries_of k (e :: m) = [].
Proof.
  intros Hs Hlt. apply StronglySorted_inv in Hs as [_ Hall].
  apply entries_of_above. constructor; [done|].
  eapply Forall_impl; [|exact Hall]. unfold key_le. intros e' He'.
  destruct (wstring_ltb k (fst e')) eqn:E; [done|].
  destruct (wstring_ltb (fst e) (fst e')) eqn:E2.
  - pose proof (wstring_ltb_trans _ _ _ Hlt E2). congruence.
  - pose proof (wstring_ltb_connected _ _ E2 He') as Heq.
    rewrite <- Heq in E. congruence.
Qed.

Lemma lower_bound_at_key e m :
  Forall (key_le e) m -> lower_bound (fst e) m = 0%nat.
Proof. destruct 1 as [|e' m He' _]; simpl; [done|]. by rewrite He'. Qed.

(** On a sorted sequence the positions from the lower to the upper bound
    hold the entries of the key, and nothing else. *)
Lemma bounds_enclose_entries k m :
  key_sorted m ->
  (lower_bound k m <= upper_bound k m)%nat
  /\ firstn (upper_bound k m - lower_bound k m) (skipn (lower_bound k m) m)
     = entries_of k m.
Proof.
  unfold key_sorted. induction 1 as [|e m Hs IH Hall]; [done|].
  cbn [lower_bound upper_bound]. rewrite entries_of_cons.
  destruct (wstring_ltb (fst e) k) eqn:Hek.
  - rewrite (wstring_ltb_asym _ _ Hek).
    rewrite bool_decide_eq_false_2
      by (intros Heq; rewrite Heq, wstring_ltb_irrefl in Hek; done).
    destruct IH as [Hle IH]. split; [lia|]. exact IH.
  - destruct (wstring_ltb k (fst e)) eqn:Hke.
    + split; [lia|]. simpl.
      rewrite <- entries_of_cons. symmetry. apply key_sorted_above; [|done].
      by constructor.
    + pose proof (wstring_ltb_connected _ _ Hek Hke) as Heq.
      rewrite bool_decide_eq_true_2 by done. split; [lia|].
      destruct IH as [_ IH]. subst k.
      rewrite (lower_bound_at_key e m Hall) in IH.
      rewrite Nat.sub_0_r in *. simpl in *. by f_equal.
Qed.

(** [find] gives the first entry of the key. *)
Lemma multimap_find_first k m :
  key_sorted m -> multimap_find k m = hd_error (entries_of k m).
Proof.
  unfold key_sorted, multimap_find.
  induction 1 as [|e m Hs IH Hall]; [done|].
  cbn [lower_bound]. rewrite entries_of_cons.
  destruct (wstring_ltb (fst e) k) eqn:Hek.
  - rewrite bool_decide_eq_false_2
      by (intros Heq; rewrite Heq, wstring_ltb_irrefl in Hek; done).
    exact IH.
  - simpl. destruct (wstring_ltb k (fst e)) eqn:Hke.
    + rewrite <- entries_of_cons.
      rewrite key_sorted_above; [done|by constructor|done].
    + rewrite bool_decide_eq_true_2; [done|].
      by apply wstring_ltb_connected.
Qed.

Lemma entries_of_In k m e : In e (entries_of k m) <-> In e m /\ fst e = k.
Proof.
  unfold entries_of. rewrite filter_In, bool_decide_eq_true. tauto.
Qed.

Lemma entries_of_nil k m :
  entries_of k m = [] <-> forall v, ~ In (k, v) m.
Proof.
  split.
  - intros H v Hin. assert (In (k, v) (entries_of k m))
      by (by apply entries_of_In). rewrite H in *. done.
  - intros H. destruct (entries_of k m) as [|[k' v] l] eqn:E; [done|].
    assert (Hin : In (k', v) (entries_of k m)) by (rewrite E; by left).
    apply entries_of_In in Hin as [Hin Hk]. simpl in Hk. subst k'.
    by apply H in Hin.
Qed.

(** ** The iteration, case by case *)

(** The option name and the parser with which an iteration enters the
    value decision: the trimmed token, or the last character of a
    single-dash cluster after the flags before it were emitted. *)
Lemma before_decision_cases mode i p d :
  before_decision mode i p = Done d ->
  let tok := arg_at p i in
  let name := trim_leading_dashes tok in
  match d with
  | inl r =>
      (is_option tok = Done false
       /\ r = mk_iteration i (pos_args_emplace_back tok p) Positional)
      \/ (is_option tok = Done true
          /\ has_bit mode NO_SPLIT_ON_EQUALSIGN = false
          /\ exists k, find (widen "=") name = Some k
             /\ r = mk_iteration i
                      (params_insert (substr name 0 k, substr_from name (k + 1)) p)
                      InlineParam)
      \/ (is_option tok = Done true
          /\ has_bit SINGLE_DASH_IS_MULTIFLAG mode = true
          /\ (length tok - length name)%nat = 1%nat
          /\ is_param p name = false
          /\ r = mk_iteration i (emplace_each_char name p) Flag)
  | inr (name', p') =>
      is_option tok = Done true
      /\ (has_bit mode NO_SPLIT_ON_EQUALSIGN = true
          \/ find (widen "=") name = None)
      /\ ((name' = name /\ p' = p
           /\ (has_bit SINGLE_DASH_IS_MULTIFLAG mode = false
               \/ (length tok - length name)%nat <> 1%nat
               \/ is_param p name = true))
          \/ (has_bit SINGLE_DASH_IS_MULTIFLAG mode = true
              /\ (length tok - length name)%nat = 1%nat
              /\ is_param p name = false
              /\ name <> []
              /\ is_param p [back name] = true
              /\ name' = [back name]
              /\ p' = emplace_each_char (drop_back name) p))
  end.
Proof.
  unfold before_decision. intros H. cbv zeta.
  set (tok := arg_at p i) in *. set (name := trim_leading_dashes tok) in *.
  destruct (is_option tok) as [[|]| |] eqn:Eo; cbn [bind negb andb length Nat.eqb] in H; try discriminate H.
  2:{ injection H as <-. by left. }
  destruct (has_bit mode NO_SPLIT_ON_EQUALSIGN) eqn:Hns; cbn [bind negb andb length Nat.eqb] in H.
  - (* no splitting *)
    destruct (length tok - length name =? 1)%nat eqn:Hd; cbn [bind negb andb length Nat.eqb] in H.
    2:{ injection H as <-. apply Nat.eqb_neq in Hd. split; [done|].
        split; [by left|]. left. auto. }
    apply Nat.eqb_eq in Hd.
    destruct (has_bit SINGLE_DASH_IS_MULTIFLAG mode) eqn:Hmf; cbn [bind negb andb length Nat.eqb] in H.
    2:{ injection H as <-. split; [done|]. split; [by left|]. left. auto. }
    destruct (is_param p name) eqn:Hreg; cbn [bind negb andb length Nat.eqb] in H.
    { injection H as <-. split; [done|]. split; [by left|]. left. auto. }
    destruct (length name =? 0)%nat eqn:Hlen; cbn [bind negb andb length Nat.eqb] in H.
    { injection H as <-. right. right. done. }
    destruct (is_param p [back name]) eqn:Hback; cbn [bind negb andb length Nat.eqb] in H.
    + injection H as <-. split; [done|]. split; [by left|]. right.
      repeat split; try done. intros Hz. by rewrite Hz in Hlen.
    + injection H as <-. right. right. done.
  - destruct (find (widen "=") name) as [k|] eqn:Hf.
    { injection H as <-. right. left. eauto. }
    destruct (length tok - length name =? 1)%nat eqn:Hd; cbn [bind negb andb length Nat.eqb] in H.
    2:{ injection H as <-. apply Nat.eqb_neq in Hd. split; [done|].
        split; [by right|]. left. auto. }
    apply Nat.eqb_eq in Hd.
    destruct (has_bit SINGLE_DASH_IS_MULTIFLAG mode) eqn:Hmf; cbn [bind negb andb length Nat.eqb] in H.
    2:{ injection H as <-. split; [done|]. split; [by right|]. left. auto. }
    destruct (is_param p name) eqn:Hreg; cbn [bind negb andb length Nat.eqb] in H.
    { injection H as <-. split; [done|]. split; [by right|]. left. auto. }
    destruct (length name =? 0)%nat eqn:Hlen; cbn [bind negb andb length Nat.eqb] in H.
    { injection H as <-. right. right. done. }
    destruct (is_param p [back name]) eqn:Hback; cbn [bind negb andb length Nat.eqb] in H.
    + injection H as <-. split; [done|]. split; [by right|]. right.
      repeat split; try done. intros Hz. by rewrite Hz in Hlen.
    + injection H as <-. right. right. done.
Qed.

(** The two ways out of the value decision. *)
Lemma value_decision_cases mode i name p r :
  value_decision mode i name p = Done r ->
  (r = mk_iteration i (flags_emplace name p) Flag
   /\ (i = (length (args_ p) - 1)%nat
       \/ is_option (arg_at p (i + 1)) = Done true
       \/ (is_option (arg_at p (i + 1)) = Done false
           /\ is_param p name = false
           /\ has_bit mode PREFER_PARAM_FOR_UNREG_OPTION = false)))
  \/ (r = mk_iteration (i + 1) (params_insert (name, arg_at p (i + 1)) p)
            ParamWithValue
      /\ i <> (length (args_ p) - 1)%nat
      /\ is_option (arg_at p (i + 1)) = Done false
      /\ mode_ok mode = true
      /\ (is_param p name = true
          \/ has_bit mode PREFER_PARAM_FOR_UNREG_OPTION = true)).
Proof.
  unfold value_decision, mode_ok. intros H.
  destruct (i =? length (args_ p) - 1)%nat eqn:Ei; simpl in H.
  { injection H as <-. apply Nat.eqb_eq in Ei. left. auto. }
  apply Nat.eqb_neq in Ei.
  destruct (is_option (arg_at p (i + 1))) as [[|]| |] eqn:Eo; simpl in H;
    try discriminate H.
  { injection H as <-. left. auto. }
  rewrite <- negb_andb in H.
  destruct (negb (_ && _)) eqn:Hm; simpl in H; [|discriminate H].
  destruct (is_param p name) eqn:Hreg; simpl in H.
  { injection H as <-. right. auto 10. }
  destruct (has_bit mode PREFER_PARAM_FOR_UNREG_OPTION) eqn:Hpp.
  - injection H as <-. right. auto 10.
  - injection H as <-. left. auto 10.
Qed.

(** ** Parameters by name *)

Lemma parse_body_keeps_sorted mode i p r :
  parse_body mode i p = Done r ->
  key_sorted (params_ p) -> key_sorted (params_ (after r)).
Proof.
  intros Hb Hs. apply parse_body_effect in Hb.
  destruct (class r); try done.
  - by destruct Hb as (_ & _ & ->).
  - destruct Hb as (_ & _ & key & value & ->). by apply multimap_insert_sorted.
  - by destruct Hb as (_ & _ & ->).
  - destruct Hb as (_ & _ & name & ->). by apply multimap_insert_sorted.
Qed.

Lemma parse_traced_params_sorted argv mode p q tr :
  parse_traced argv mode p = Done (q, tr) -> key_sorted (params_ q).
Proof.
  unfold parse_traced. intros H.
  destruct (parse_loop_invariant (fun _ p' _ => key_sorted (params_ p')) mode)
    with (fuel := length argv) (i := 0%nat) (p := set_args argv (clear p))
         (tr := @nil token_class) (q := q) (tr' := tr)
    as (_ & Hs & _); try done.
  - intros i p' t r Hs _ Hb. by eapply parse_body_keeps_sorted.
  - constructor.
Qed.

Lemma parse_params_sorted argv mode p q :
  parse argv mode p = Done q -> key_sorted (params_ q).
Proof.
  unfold parse. intros H.
  destruct (parse_traced argv mode p) as [[q' tr]| |] eqn:E; simpl in H;
    try discriminate H.
  injection H as ->. by eapply parse_traced_params_sorted.
Qed.

Lemma params_of_sorted p name :
  key_sorted (params_ p) ->
  (lb_ (params_of p name) <= ub_ (params_of p name))%nat
  /\ wrapper_elements (params_of p name)
     = entries_of (trim_leading_dashes name) (params_ p)
  /\ wrapper_size (params_of p name)
     = length (entries_of (trim_leading_dashes name) (params_ p))
  /\ (wrapper_size (params_of p name) = 0%nat
      <-> forall v, ~ In (trim_leading_dashes name, v) (params_ p)).
Proof.
  intros H.
  destruct (bounds_enclose_entries (trim_leading_dashes name) (params_ p) H)
    as [Hle Hrange].
  assert (Hsize : wrapper_size (params_of p name)
                  = length (entries_of (trim_leading_dashes name) (params_ p))).
  { rewrite <- Hrange. unfold wrapper_size, params_of. cbn [lb_ ub_].
    rewrite length_firstn, length_skipn.
    assert (upper_bound (trim_leading_dashes name) (params_ p)
            <= length (params_ p))%nat; [|lia].
    clear. induction (params_ p) as [|e m IH]; simpl; [lia|].
    destruct (wstring_ltb _ _); lia. }
  repeat split; try done.
  - rewrite Hsize. intros Hz. apply entries_of_nil.
    by apply length_zero_iff_nil.
  - rewrite Hsize. intros Hz. apply entries_of_nil in Hz. by rewrite Hz.
Qed.

(** X1. After a completed parse, [params(name)] is the range of exactly
    the parameter entries whose key is the dash-trimmed [name], in the
    order [params_] holds them; [size()] is their number (zero for a name
    without entries), and the key order of [params_] is an invariant of
    parsing. *)
Theorem params_of_after_parse argv mode p q name :
  parse argv mode p = Done q ->
  key_sorted (params_ q)
  /\ (lb_ (params_of q name) <= ub_ (params_of q name))%nat
  /\ wrapper_elements (params_of q name)
     = entries_of (trim_leading_dashes name) (params_ q)
  /\ wrapper_size (params_of q name)
     = length (entries_of (trim_leading_dashes name) (params_ q))
  /\ (wrapper_size (params_of q name) = 0%nat
      <-> forall v, ~ In (trim_leading_dashes name, v) (params_ q)).
Proof.
  intros H. apply parse_params_sorted in H. split; [exact H|].
  by apply params_of_sorted.
Qed.

Lemma params_of_after_parse_witness :
  exists q,
    parse [L"-I"; L"a"; L"--lib=z"; L"-I"; L"b"] PREFER_PARAM_FOR_UNREG_OPTION
      new_parser = Done q
    /\ wrapper_elements (params_of q (L"--I")) = [(L"I", L"a"); (L"I", L"b")]
    /\ wrapper_size (params_of q (L"-I")) = 2%nat
    /\ wrapper_size (params_of q (L"nothing")) = 0%nat.
Proof.
  eexists. split; [vm_compute; reflexivity|].
  pose proof (params_of_after_parse
    [L"-I"; L"a"; L"--lib=z"; L"-I"; L"b"] PREFER_PARAM_FOR_UNREG_OPTION
    new_parser _ (L"--I") ltac:(vm_compute; reflexivity)) as (_ & _ & He & _).
  split; [rewrite He; vm_compute; reflexivity|].
  split; vm_compute; reflexivity.
Defined.

Lemma bad_stream_fails : Stream.fail bad_stream = true.
Proof. reflexivity. Qed.

Lemma call_param_first p name :
  key_sorted (params_ p) ->
  call_param p name
  = match entries_of (trim_leading_dashes name) (params_ p) with
    | e :: _ => Stream.of_wstring (snd e)
    | [] => bad_stream
    end.
Proof.
  intros Hs. unfold call_param. rewrite multimap_find_first by done.
  by destruct (entries_of _ _).
Qed.

(** X3. [operator()] on a list of names answers for the first name of
    the list, in the caller's order, for which [operator()(name)] does
    not fail, and fails exactly when it fails for every name of the list
    (in particular for the empty list). *)
Theorem call_params_first_found p names :
  call_params p names
  = match List.find (fun name => negb (Stream.fail (call_param p name))) names with
    | Some name => call_param p name
    | None => bad_stream
    end
  /\ (Stream.fail (call_params p names) = true
      <-> Forall (fun name => Stream.fail (call_param p name) = true) names).
Proof.
  induction names as [|name names [IH1 IH2]]; simpl.
  - split; [done|]. split; [constructor|done].
  - destruct (multimap_find (trim_leading_dashes name) (params_ p)) as [e|]
      eqn:E.
    + assert (Hc : call_param p name = Stream.of_wstring (snd e))
        by (unfold call_param; by rewrite E).
      rewrite Hc. simpl. split; [done|]. split; [done|]. intros Hall.
      apply Forall_inv in Hall. by rewrite Hc in Hall.
    + assert (Hc : call_param p name = bad_stream)
        by (unfold call_param; by rewrite E).
      rewrite Hc. simpl. split; [exact IH1|]. rewrite IH2. split.
      * intros Hall. constructor; [by rewrite Hc|done].
      * intros Hall. by apply Forall_inv_tail in Hall.
Qed.

Lemma call_params_first_found_witness :
  call_params (params_insert (L"o", L"1") new_parser) [L"x"; L"-o"]
  = call_param (params_insert (L"o", L"1") new_parser) (L"-o").
Proof.
  destruct (call_params_first_found
              (params_insert (L"o", L"1") new_parser) [L"x"; L"-o"]) as [H _].
  exact H.
Defined.

(** ** Names and dashes *)

Lemma find_first_not_of_dashes k c r :
  c <> widen "-" ->
  find_first_not_of (widen "-") (dashes k ++ c :: r) = Some k.
Proof.
  intros Hc. induction k as [|k IH]; cbn [dashes repeat app find_first_not_of].
  - apply N.eqb_neq in Hc. unfold wchar_eqb. by rewrite Hc.
  - unfold wchar_eqb at 1. rewrite N.eqb_refl. fold (dashes k). by rewrite IH.
Qed.

Lemma find_first_not_of_all_dashes k :
  find_first_not_of (widen "-") (dashes k) = None.
Proof.
  induction k as [|k IH]; cbn [dashes repeat find_first_not_of]; [done|].
  unfold wchar_eqb at 1. rewrite N.eqb_refl. fold (dashes k). by rewrite IH.
Qed.

Lemma trim_dashes_name k c r :
  c <> widen "-" -> trim_leading_dashes (dashes k ++ c :: r) = c :: r.
Proof.
  intros Hc. unfold trim_leading_dashes, substr_from.
  rewrite find_first_not_of_dashes by done.
  rewrite skipn_app, skipn_all2 by (unfold dashes; rewrite repeat_length; lia).
  unfold dashes. rewrite repeat_length, Nat.sub_diag. done.
Qed.

Lemma trim_all_dashes k : trim_leading_dashes (dashes k) = dashes k.
Proof.
  unfold trim_leading_dashes. by rewrite find_first_not_of_all_dashes.
Qed.

(** A string is its leading dashes followed by its trimmed form, unless it
    consists of dashes only. *)
Lemma trim_leading_dashes_split s :
  (exists k c r, c <> widen "-" /\ s = dashes k ++ c :: r
                 /\ trim_leading_dashes s = c :: r)
  \/ (s = dashes (length s) /\ trim_leading_dashes s = s).
Proof.
  unfold trim_leading_dashes, substr_from.
  destruct (find_first_not_of (widen "-") s) as [k|] eqn:E.
  - left. apply find_first_not_of_Some in E as (x & r & Hd & Hx & Hf).
    exists k, x, r. split; [done|]. split; [|done].
    rewrite <- (firstn_skipn k s) at 1. by rewrite Hf, Hd.
  - right. split; [|done]. by apply find_first_not_of_None.
Qed.

(** X4. Names are normalised by stripping every leading dash, except that
    a string of dashes only is left as it is; trimming twice is trimming
    once. The "single dash" test of the multiflag expansion (the token is
    one character longer than its name) holds exactly for a dash followed
    by a character that is not a dash. The accessors and the registration
    trim their argument, so every dashed spelling of a name is the same
    name to them. *)
Theorem names_are_normalised :
  (forall k c r, c <> widen "-" ->
     trim_leading_dashes (dashes k ++ c :: r) = c :: r)
  /\ (forall k, trim_leading_dashes (dashes k) = dashes k)
  /\ (forall s, trim_leading_dashes (trim_leading_dashes s)
                = trim_leading_dashes s)
  /\ (forall s, (length s - length (trim_leading_dashes s))%nat = 1%nat
                <-> exists c r, c <> widen "-" /\ s = widen "-" :: c :: r)
  /\ (forall p k c r, c <> widen "-" ->
        index_flag p (dashes k ++ c :: r) = index_flag p (c :: r)
        /\ call_param p (dashes k ++ c :: r) = call_param p (c :: r)
        /\ params_of p (dashes k ++ c :: r) = params_of p (c :: r)
        /\ add_param (dashes k ++ c :: r) p = add_param (c :: r) p).
Proof.
  split; [exact trim_dashes_name|]. split; [exact trim_all_dashes|].
  split; [|split].
  - intros s. destruct (trim_leading_dashes_split s)
      as [(k & c & r & Hc & _ & ->)|[_ Ht]]; [|by rewrite !Ht].
    by apply (trim_dashes_name 0).
  - intros s. split.
    + intros Hd. destruct (trim_leading_dashes_split s)
        as [(k & c & r & Hc & Hs & Ht)|[_ Ht]].
      * rewrite Ht in Hd. rewrite Hs in Hd at 1.
        rewrite length_app in Hd. unfold dashes in Hd.
        rewrite repeat_length in Hd.
        assert (k = 1%nat) as -> by lia.
        exists c, r. split; [done|exact Hs].
      * rewrite Ht in Hd. lia.
    + intros (c & r & Hc & ->).
      change (widen "-" :: c :: r) with (dashes 1 ++ c :: r).
      rewrite (trim_dashes_name 1 c r Hc). simpl. lia.
  - intros p k c r Hc.
    unfold index_flag, got_flag, call_param, params_of, add_param.
    pose proof (trim_dashes_name 0 c r Hc) as H0. simpl in H0.
    by rewrite (trim_dashes_name k c r Hc), H0.
Qed.

Lemma names_are_normalised_witness :
  trim_leading_dashes (L"--name") = L"name"
  /\ index_flag (flags_emplace (L"v") new_parser) (L"--v") = true.
Proof.
  split.
  - apply (proj1 names_are_normalised 2%nat (widen "n") (L"ame")).
    discriminate.
  - change (L"--v") with (dashes 2 ++ [widen "v"]).
    rewrite (proj1 (proj2 (proj2 (proj2 (proj2 names_are_normalised)))
               (flags_emplace (L"v") new_parser) 2%nat (widen "v") []
               ltac:(discriminate))).
    vm_compute. reflexivity.
Defined.

Lemma is_option_double_dash s : is_option (dashes 2 ++ s) = Done true.
Proof.
  rewrite is_option_nonempty by done. cbn [dashes repeat app].
  rewrite is_number_field by reflexivity. reflexivity.
Qed.

Lemma is_option_dashes k : is_option (dashes (S k)) = Done true.
Proof.
  destruct k as [|k]; [reflexivity|].
  change (dashes (S (S k))) with (dashes 2 ++ dashes k).
  apply is_option_double_dash.
Qed.

Lemma find_equal_in_dashes k : find (widen "=") (dashes k) = None.
Proof.
  induction k as [|k IH]; cbn [dashes repeat find]; [done|].
  change (wchar_eqb (widen "-") (widen "=")) with false. cbn iota.
  fold (dashes k). by rewrite IH.
Qed.

Lemma before_decision_dashes mode i p k :
  arg_at p i = dashes (S k) ->
  before_decision mode i p = Done (inr (dashes (S k), p)).
Proof.
  intros Ha. unfold before_decision.
  rewrite Ha, is_option_dashes, trim_all_dashes, find_equal_in_dashes.
  cbn [bind negb]. rewrite Nat.sub_diag.
  by destruct (negb (has_bit mode NO_SPLIT_ON_EQUALSIGN)).
Qed.

(** X5. A token that starts with two dashes is an option whatever
    follows them (also "--5"), and so is a lone dash. A token of dashes
    only keeps its dashes as its name: parsed on its own it becomes, in
    every mode, the flag named by the token itself, which the flag
    accessor finds under that spelling. *)
Theorem dash_only_tokens k :
  (forall s, is_option (dashes 2 ++ s) = Done true)
  /\ is_option (dashes (S k)) = Done true
  /\ (forall mode i p, arg_at p i = dashes (S k) ->
        before_decision mode i p = Done (inr (dashes (S k), p)))
  /\ forall mode p,
       exists q, parse [dashes (S k)] mode p = Done q
         /\ flags_ q = {[+ dashes (S k) +]}
         /\ params_ q = [] /\ pos_args_ q = []
         /\ index_flag q (dashes (S k)) = true.
Proof.
  split; [exact is_option_double_dash|]. split; [apply is_option_dashes|].
  split; [intros; by apply before_decision_dashes|].
  intros mode p. unfold parse, parse_traced.
  change (length [dashes (S k)]) with 1%nat.
  set (p0 := set_args [dashes (S k)] (clear p)).
  assert (Hb : parse_body mode 0 p0
               = Done (mk_iteration 0 (flags_emplace (dashes (S k)) p0) Flag)).
  { unfold parse_body. rewrite (before_decision_dashes mode 0 p0 k) by done.
    cbn [bind]. by rewrite value_decision_last. }
  rewrite (parse_loop_step 0 mode 0 p0 [] _ ltac:(simpl; lia) Hb).
  rewrite parse_loop_exit by (simpl; lia). cbn [bind fst after].
  eexists. split; [reflexivity|]. cbn [flags_ params_ pos_args_ flags_emplace p0 set_args clear].
  split; [multiset_solver|]. split; [done|]. split; [done|].
  unfold index_flag, got_flag. rewrite trim_all_dashes.
  apply bool_decide_eq_true. cbn [flags_ flags_emplace]. multiset_solver.
Qed.

Lemma dash_only_tokens_witness :
  exists q, parse [dashes 1] 0 new_parser = Done q
            /\ index_flag q (dashes 1) = true.
Proof.
  destruct (dash_only_tokens 0) as (_ & _ & _ & H).
  destruct (H 0 new_parser) as (q & Hp & _ & _ & _ & Hf).
  exists q. split; [exact Hp|exact Hf].
Defined.

(** ** Registration *)

Lemma registered_step (x : wstring) (a b : gset wstring) :
  a ∪ ({[x]} ∪ b) = ({[x]} ∪ a) ∪ b.
Proof. apply set_eq. intros y. rewrite !elem_of_union. tauto. Qed.

Lemma registered_twice (x : wstring) (b : gset wstring) :
  {[x]} ∪ ({[x]} ∪ b) = {[x]} ∪ b.
Proof. apply set_eq. intros y. rewrite !elem_of_union. tauto. Qed.

Lemma registered_swap (a a' b : gset wstring) :
  a' ∪ (a ∪ b) = a ∪ (a' ∪ b).
Proof. apply set_eq. intros y. rewrite !elem_of_union. tauto. Qed.

Lemma add_params_registered names p :
  registeredParams_ (add_params names p)
  = list_to_set (List.map trim_leading_dashes names) ∪ registeredParams_ p
  /\ flags_ (add_params names p) = flags_ p
  /\ params_ (add_params names p) = params_ p
  /\ pos_args_ (add_params names p) = pos_args_ p
  /\ args_ (add_params names p) = args_ p.
Proof.
  unfold add_params. revert p.
  induction names as [|name names IH]; intros p; cbn [fold_left List.map].
  - repeat split. cbn [list_to_set]. by rewrite (left_id_L ∅ (∪)).
  - destruct (IH (registeredParams_insert (trim_leading_dashes name) p))
      as (-> & -> & -> & -> & ->).
    repeat split. cbn [registeredParams_ registeredParams_insert list_to_set].
    apply registered_step.
Qed.

Lemma elem_of_registered (l : list wstring) (s : gset wstring) n :
  n ∈ list_to_set (C := gset wstring) (List.map trim_leading_dashes l) ∪ s
  <-> (exists name, In name l /\ trim_leading_dashes name = n) \/ n ∈ s.
Proof.
  rewrite elem_of_union, elem_of_list_to_set, list_elem_of_In, in_map_iff.
  split; (intros [(name & H1 & H2)|H]; [left; exists name; tauto|by right]).
Qed.

(** X6. Registration adds the dash-trimmed names to the registered set
    and touches nothing else of the parser: the results of a completed
    parse stay as they are. A name is registered afterwards exactly when
    it is the trimmed form of a listed name or was registered before, so
    registering is idempotent and insensitive to order and to the dashes
    in front of a name; the constructor from a list of names registers
    exactly those names. *)
Theorem registration names p :
  (forall n, is_param (add_params names p) n = true
             <-> (exists name, In name names /\ trim_leading_dashes name = n)
                 \/ is_param p n = true)
  /\ flags_ (add_params names p) = flags_ p
  /\ params_ (add_params names p) = params_ p
  /\ pos_args_ (add_params names p) = pos_args_ p
  /\ (forall name, add_param name p = add_params [name] p
                   /\ add_param name (add_param name p) = add_param name p)
  /\ (forall names', registeredParams_ (add_params names' (add_params names p))
                     = registeredParams_ (add_params names (add_params names' p)))
  /\ (forall n, is_param (wparser_of_names names) n = true
                <-> exists name, In name names /\ trim_leading_dashes name = n).
Proof.
  pose proof (add_params_registered names p) as (Hr & Hf & Hp & Hq & _).
  split; [|split; [done|split; [done|split; [done|split; [|split]]]]].
  - intros n. unfold is_param.
    by rewrite !bool_decide_eq_true, Hr, elem_of_registered.
  - intros name. split; [done|]. unfold add_param, registeredParams_insert.
    cbn [args_ params_ pos_args_ flags_ registeredParams_ empty_]. f_equal.
    apply registered_twice.
  - intros names'.
    rewrite (proj1 (add_params_registered names' _)), Hr.
    rewrite (proj1 (add_params_registered names _)).
    rewrite (proj1 (add_params_registered names' p)). apply registered_swap.
  - intros n. unfold wparser_of_names, is_param.
    rewrite bool_decide_eq_true, (proj1 (add_params_registered names _)).
    rewrite elem_of_registered. cbn [registeredParams_ new_parser].
    split; [intros [H|H]; [done|by apply not_elem_of_empty in H]|by left].
Qed.

Lemma registration_witness :
  is_param (wparser_of_names [L"--out"]) (L"out") = true.
Proof.
  destruct (registration [L"--out"] new_parser) as (_ & _ & _ & _ & _ & _ & H).
  apply H. exists (L"--out"). split; [by left|]. vm_compute. reflexivity.
Defined.

(** ** What a completed parse holds *)

Lemma multimap_insert_length kv m :
  length (multimap_insert kv m) = S (length m).
Proof.
  induction m as [|e m IH]; simpl; [done|].
  destruct (wstring_ltb _ _); simpl; by rewrite ?IH.
Qed.

Lemma count_class_app c t t' :
  count_class c (t ++ t') = (count_class c t + count_class c t')%nat.
Proof. unfold count_class. by rewrite filter_app, length_app. Qed.

(** Evaluates [count_class] on the closed traces of a goal. *)
Ltac eval_counts :=
  repeat match goal with
  | |- context [count_class ?c ?l] =>
      let v := eval vm_compute in (count_class c l) in
      change (count_class c l) with v
  end.

Lemma count_class_total tr :
  length tr
  = (count_class Positional tr + count_class InlineParam tr
     + count_class Flag tr + count_class ParamWithValue tr
     + count_class ValueOfParam tr)%nat.
Proof.
  induction tr as [|c tr IH]; [done|].
  change (c :: tr) with ([c] ++ tr). rewrite !count_class_app, length_app, IH.
  destruct c; eval_counts; simpl; lia.
Qed.

(** What one iteration adds to the containers, by its class. *)
Lemma classes_of_counts mode i p r :
  parse_body mode i p = Done r ->
  length (pos_args_ (after r))
  = (length (pos_args_ p) + count_class Positional (classes_of i r))%nat
  /\ length (params_ (after r))
     = (length (params_ p) + count_class InlineParam (classes_of i r)
        + count_class ParamWithValue (classes_of i r))%nat
  /\ count_class ValueOfParam (classes_of i r)
     = count_class ParamWithValue (classes_of i r).
Proof.
  intros Hb. pose proof (parse_body_effect _ _ _ _ Hb) as Heff.
  unfold classes_of. destruct (class r) eqn:Ec; try done.
  - destruct Heff as (-> & -> & ->). rewrite Nat.eqb_refl, length_app.
    eval_counts. simpl. lia.
  - destruct Heff as (-> & -> & key & value & ->).
    rewrite Nat.eqb_refl, multimap_insert_length. eval_counts. lia.
  - destruct Heff as (-> & -> & ->). rewrite Nat.eqb_refl. eval_counts. lia.
  - destruct Heff as (-> & -> & name & ->).
    replace (i + 1 =? i)%nat with false by (symmetry; apply Nat.eqb_neq; lia).
    rewrite multimap_insert_length. eval_counts. lia.
Qed.

(** X7. In a completed parse nothing is lost and nothing is merged: the
    number of positional arguments ([size()]) is the number of tokens
    classed Positional; [params_] has one entry for every token split on
    '=' and for every option that took a value, repeated names included;
    every option that took a value consumed exactly one token; and the
    tokens of the input are the positionals, the split tokens, the flag
    tokens and the options with their values, each counted once. *)
Theorem parse_counts argv mode p q tr :
  parse_traced argv mode p = Done (q, tr) ->
  size q = count_class Positional tr
  /\ length (params_ q)
     = (count_class InlineParam tr + count_class ParamWithValue tr)%nat
  /\ count_class ValueOfParam tr = count_class ParamWithValue tr
  /\ length argv
     = (size q + length (params_ q) + count_class Flag tr
        + count_class ValueOfParam tr)%nat.
Proof.
  intros H. pose proof H as H0. unfold parse_traced in H.
  destruct (parse_loop_invariant
    (fun _ p' t =>
       length (pos_args_ p') = count_class Positional t
       /\ length (params_ p')
          = (count_class InlineParam t + count_class ParamWithValue t)%nat
       /\ count_class ValueOfParam t = count_class ParamWithValue t) mode)
    with (fuel := length argv) (i := 0%nat) (p := set_args argv (clear p))
         (tr := @nil token_class) (q := q) (tr' := tr)
    as (_ & (H1 & H2 & H3) & _); try done.
  - intros i p' t r (H1 & H2 & H3) _ Hb.
    apply classes_of_counts in Hb as (-> & -> & H3').
    rewrite !count_class_app. lia.
  - apply parse_traced_classes in H0 as (HF & _).
    apply Forall2_length in HF. unfold size.
    rewrite HF, (count_class_total tr). repeat split; try done. lia.
Qed.

Lemma parse_counts_witness :
  exists q tr,
    parse_traced [L"prog"; L"-I"; L"a"; L"--lib=z"; L"-v"]
      PREFER_PARAM_FOR_UNREG_OPTION new_parser = Done (q, tr)
    /\ size q = 1%nat /\ length (params_ q) = 2%nat
    /\ count_class Flag tr = 1%nat.
Proof.
  eexists _, _. split; [vm_compute; reflexivity|].
  destruct (parse_counts [L"prog"; L"-I"; L"a"; L"--lib=z"; L"-v"]
              PREFER_PARAM_FOR_UNREG_OPTION new_parser _ _
              ltac:(vm_compute; reflexivity)) as (H1 & H2 & _).
  split; [exact H1|]. split; [exact H2|]. reflexivity.
Defined.

Lemma emplace_each_char_elem name p n :
  n ∈ flags_ (emplace_each_char name p)
  <-> n ∈ flags_ p \/ exists c, In c name /\ n = [c].
Proof.
  rewrite emplace_each_char_flags, gmultiset_elem_of_disj_union,
    elem_of_list_to_set_disj, list_elem_of_In, in_map_iff.
  split; intros [H|H]; auto.
  - destruct H as (c & <- & Hc). right. eauto.
  - destruct H as (c & Hc & ->). left. eauto.
Qed.

Lemma flags_emplace_elem name p n :
  n ∈ flags_ (flags_emplace name p) <-> n = name \/ n ∈ flags_ p.
Proof.
  cbn [flags_ flags_emplace].
  by rewrite gmultiset_elem_of_disj_union, gmultiset_elem_of_singleton.
Qed.

Lemma in_drop_back (c : wchar_t) name : In c (drop_back name) -> In c name.
Proof.
  unfold drop_back. induction name as [|x [|y name] IH]; simpl; try done.
  intros [->|H]; [by left|]. right. by apply IH.
Qed.

Lemma back_in name : name <> [] -> In (back name) name.
Proof.
  unfold back. induction name as [|x [|y name] IH]; try done.
  - intros _. by left.
  - intros _. right. by apply IH.
Qed.

Lemma find_equal_split name k :
  find (widen "=") name = Some k ->
  name = substr name 0 k ++ widen "=" :: substr_from name (k + 1).
Proof.
  intros Hf. apply find_Some in Hf as [Hs _]. unfold substr, substr_from.
  simpl skipn at 1. by replace (k + 1)%nat with (S k) by lia.
Qed.

(** Where the names and values that one iteration stores come from. *)
Lemma parse_body_provenance mode i p r :
  parse_body mode i p = Done r ->
  let tok := arg_at p i in
  let name := trim_leading_dashes tok in
  (forall n, n ∈ flags_ (after r) ->
     n ∈ flags_ p
     \/ (is_option tok = Done true
         /\ (n = name \/ exists c, n = [c] /\ In c name)))
  /\ (forall k v, In (k, v) (params_ (after r)) ->
        In (k, v) (params_ p)
        \/ (is_option tok = Done true
            /\ (name = k ++ widen "=" :: v
                \/ ((k = name \/ k = [back name])
                    /\ v = arg_at p (i + 1)
                    /\ i <> (length (args_ p) - 1)%nat
                    /\ is_option v = Done false))))
  /\ (forall v, In v (pos_args_ (after r)) ->
        In v (pos_args_ p) \/ (v = tok /\ is_option tok = Done false)).
Proof.
  unfold parse_body. intros H. cbv zeta.
  set (tok := arg_at p i). set (name := trim_leading_dashes tok).
  destruct (before_decision mode i p) as [[r'|[name' p']]| |] eqn:Eb;
    simpl in H; try discriminate H;
    pose proof (before_decision_cases _ _ _ _ Eb) as Hc; cbv zeta in Hc;
    fold tok in Hc; fold name in Hc.
  - injection H as <-.
    destruct Hc as [(Ho & ->)|[(Ho & _ & k & Hf & ->)|(Ho & _ & _ & _ & ->)]];
      cbn [after].
    + split; [by left|]. split; [by left|]. intros v Hv.
      cbn [pos_args_ pos_args_emplace_back] in Hv.
      apply in_app_or in Hv as [Hv|[<-|[]]]; auto.
    + split; [by left|]. split; [|by left]. intros k' v Hin.
      cbn [params_ params_insert] in Hin.
      apply multimap_insert_In in Hin as [Heq|Hin]; [|by left].
      injection Heq as -> ->. right. split; [done|]. left.
      by apply find_equal_split.
    + destruct (emplace_each_char_params name p) as [Hp Hq].
      rewrite Hp, Hq. split; [|split; by left]. intros n Hn.
      apply emplace_each_char_elem in Hn as [Hn|(c & Hc & ->)]; [by left|].
      right. split; [done|]. right. eauto.
  - destruct Hc as (Ho & _ & Hpath).
    assert (Hpre : (forall n, n ∈ flags_ p' ->
                      n ∈ flags_ p \/ exists c, n = [c] /\ In c name)
                   /\ params_ p' = params_ p /\ pos_args_ p' = pos_args_ p
                   /\ args_ p' = args_ p
                   /\ (name' = name \/ name' = [back name] /\ name <> [])).
    { destruct Hpath as [(-> & -> & _)|(_ & _ & _ & Hne & _ & -> & ->)].
      - repeat split; auto.
      - destruct (emplace_each_char_params (drop_back name) p) as [Hp Hq].
        pose proof (emplace_each_char_frame (drop_back name) p) as (Ha & _).
        repeat split; auto. intros n Hn.
        apply emplace_each_char_elem in Hn as [Hn|(c & Hc & ->)]; [by left|].
        right. exists c. split; [done|]. by apply in_drop_back. }
    destruct Hpre as (Hfl & Hpa & Hpo & Ha & Hname).
    assert (Hnm : forall n, n = name' ->
              n = name \/ exists c, n = [c] /\ In c name).
    { intros n ->. destruct Hname as [->|[-> Hne]]; [by left|].
      right. exists (back name). split; [done|]. by apply back_in. }
    apply value_decision_cases in H
      as [(-> & _)|(-> & Hi & Hv & _ & _)]; cbn [after].
    + rewrite ?Hpa, ?Hpo. cbn [params_ pos_args_ flags_emplace].
      rewrite Hpa, Hpo. split; [|split; by left]. intros n Hn.
      apply flags_emplace_elem in Hn as [Hn|Hn].
      * right. split; [done|]. by apply Hnm.
      * destruct (Hfl n Hn) as [?|?]; [by left|]. right. split; [done|by right].
    + cbn [flags_ params_ pos_args_ params_insert]. rewrite Hpa, Hpo.
      split; [|split; [|by left]].
      * intros n Hn. destruct (Hfl n Hn) as [?|?]; [by left|].
        right. split; [done|by right].
      * intros k v Hin. apply multimap_insert_In in Hin as [Heq|Hin];
          [|by left].
        injection Heq as -> ->. right. split; [done|]. right.
        unfold arg_at in *. rewrite Ha in *.
        split; [destruct Hname as [->|[-> _]]; auto|done].
Qed.

(** X8. A completed parse stores nothing that is not on the command
    line. Every flag name is the trimmed name of a token for which
    [is_option] is true, or one character of such a name; every parameter
    entry comes from such a token too: either the token reads
    key '=' value, or the key is its trimmed name (or the last character
    of it) and the value is a token for which [is_option] is false;
    every positional argument is a token for which [is_option] is false.
    So a token that is a number never names a flag or a parameter. *)
Theorem parse_provenance argv mode p q :
  parse argv mode p = Done q ->
  (forall n, n ∈ flags_ q ->
     exists tok, In tok argv /\ is_option tok = Done true
       /\ (n = trim_leading_dashes tok
           \/ exists c, n = [c] /\ In c (trim_leading_dashes tok)))
  /\ (forall k v, In (k, v) (params_ q) ->
        exists tok, In tok argv /\ is_option tok = Done true
          /\ (trim_leading_dashes tok = k ++ widen "=" :: v
              \/ ((k = trim_leading_dashes tok
                   \/ k = [back (trim_leading_dashes tok)])
                  /\ In v argv /\ is_option v = Done false)))
  /\ (forall v, In v (pos_args_ q) -> In v argv /\ is_option v = Done false).
Proof.
  unfold parse. intros H.
  destruct (parse_traced argv mode p) as [[q' tr]| |] eqn:E; simpl in H;
    try discriminate H.
  injection H as ->. unfold parse_traced in E.
  destruct (parse_loop_invariant
    (fun _ p' _ =>
       args_ p' = argv
       /\ (forall n, n ∈ flags_ p' ->
             exists tok, In tok argv /\ is_option tok = Done true
               /\ (n = trim_leading_dashes tok
                   \/ exists c, n = [c] /\ In c (trim_leading_dashes tok)))
       /\ (forall k v, In (k, v) (params_ p') ->
             exists tok, In tok argv /\ is_option tok = Done true
               /\ (trim_leading_dashes tok = k ++ widen "=" :: v
                   \/ ((k = trim_leading_dashes tok
                        \/ k = [back (trim_leading_dashes tok)])
                       /\ In v argv /\ is_option v = Done false)))
       /\ (forall v, In v (pos_args_ p') ->
             In v argv /\ is_option v = Done false)) mode)
    with (fuel := length argv) (i := 0%nat) (p := set_args argv (clear p))
         (tr := @nil token_class) (q := q) (tr' := tr)
    as (_ & (_ & H1 & H2 & H3) & _); try done.
  - clear. intros i p t r (Ha & H1 & H2 & H3) Hlt Hb.
    pose proof (parse_body_shape _ _ _ _ Hb) as ((Ha' & _) & _).
    pose proof (parse_body_provenance _ _ _ _ Hb) as (P1 & P2 & P3).
    cbv zeta in P1, P2, P3.
    assert (Htok : In (arg_at p i) argv)
      by (rewrite <- Ha; apply nth_In; exact Hlt).
    split; [congruence|]. split; [|split].
    + intros n Hn. destruct (P1 n Hn) as [Hold|(Ho & Hn')]; [by apply H1|].
      exists (arg_at p i). auto.
    + intros k v Hin.
      destruct (P2 k v Hin) as [Hold|(Ho & Hkv)]; [by apply H2|].
      exists (arg_at p i). split; [done|]. split; [done|].
      destruct Hkv as [Heq|(Hk & -> & Hne & Hv)]; [by left|]. right.
      split; [done|]. split; [|done]. rewrite <- Ha. apply nth_In. lia.
    + intros v Hv. destruct (P3 v Hv) as [Hold|(-> & Ho)]; [by apply H3|done].
  - simpl. repeat split; try done; intros; try done.
    by apply gmultiset_not_elem_of_empty in H.
Qed.

Lemma parse_provenance_witness :
  exists q,
    parse [L"prog"; L"-v"; L"--lib=z"; L"-7"] PREFER_FLAG_FOR_UNREG_OPTION
      new_parser = Done q
    /\ forall v, In v (pos_args_ q) ->
         In v [L"prog"; L"-v"; L"--lib=z"; L"-7"] /\ is_option v = Done false.
Proof.
  eexists. split; [vm_compute; reflexivity|].
  apply (parse_provenance [L"prog"; L"-v"; L"--lib=z"; L"-7"]
           PREFER_FLAG_FOR_UNREG_OPTION new_parser).
  vm_compute. reflexivity.
Defined.

(** ** Modes and registration over a whole command line *)

(** Nothing that an iteration found in the containers is removed. *)
Lemma parse_body_grows mode i p r :
  parse_body mode i p = Done r ->
  (forall n, n ∈ flags_ p -> n ∈ flags_ (after r))
  /\ (forall x, In x (params_ p) -> In x (params_ (after r)))
  /\ (forall v, In v (pos_args_ p) -> In v (pos_args_ (after r))).
Proof.
  intros Hb. split; [|split].
  - unfold parse_body in Hb.
    destruct (before_decision mode i p) as [[r'|[name' p']]| |] eqn:Eb;
      simpl in Hb; try discriminate Hb;
      pose proof (before_decision_cases _ _ _ _ Eb) as Hc; cbv zeta in Hc.
    + injection Hb as <-.
      destruct Hc as [(_ & ->)|[(_ & _ & k & _ & ->)|(_ & _ & _ & _ & ->)]];
        cbn [after]; try done.
      intros n Hn. apply emplace_each_char_elem. by left.
    + assert (Hpre : forall n, n ∈ flags_ p -> n ∈ flags_ p').
      { destruct Hc as (_ & _ & [(_ & -> & _)|(_ & _ & _ & _ & _ & _ & ->)]);
          [done|].
        intros n Hn. apply emplace_each_char_elem. by left. }
      apply value_decision_cases in Hb as [(-> & _)|(-> & _)]; cbn [after].
      * intros n Hn. apply flags_emplace_elem. right. by apply Hpre.
      * exact Hpre.
  - intros x. apply (parse_body_params_grow _ _ _ _ _ Hb).
  - apply parse_body_effect in Hb. intros v Hv.
    destruct (class r); try done.
    + destruct Hb as (_ & -> & _). apply in_or_app. by left.
    + by destruct Hb as (_ & -> & _).
    + by destruct Hb as (_ & -> & _).
    + by destruct Hb as (_ & -> & _).
Qed.

(** Without registered names and without PREFER_PARAM no iteration takes
    the next token as a value; with NO_SPLIT none splits its token. *)
Lemma parse_body_class_guards mode i p r :
  parse_body mode i p = Done r ->
  (class r = ParamWithValue ->
   has_bit mode PREFER_PARAM_FOR_UNREG_OPTION = true
   \/ exists n, is_param p n = true)
  /\ (class r = InlineParam -> has_bit mode NO_SPLIT_ON_EQUALSIGN = false)
  /\ class r <> ValueOfParam
  /\ (class r <> ParamWithValue -> end_i r = i).
Proof.
  intros Hb. pose proof (parse_body_effect _ _ _ _ Hb) as Heff.
  split; [|split; [|split]].
  - unfold parse_body in Hb.
    destruct (before_decision mode i p) as [[r'|[name' p']]| |] eqn:Eb;
      simpl in Hb; try discriminate Hb;
      pose proof (before_decision_cases _ _ _ _ Eb) as Hc; cbv zeta in Hc.
    + injection Hb as <-.
      destruct Hc as [(_ & ->)|[(_ & _ & k & _ & ->)|(_ & _ & _ & _ & ->)]];
        done.
    + pose proof (before_decision_shape mode i p _ Eb) as (Hf & _).
      apply value_decision_cases in Hb
        as [(-> & _)|(-> & _ & _ & _ & [Hreg|Hpp])]; [done| |by left].
      intros _. right. exists name'. by rewrite <- (is_param_frame _ _ _ Hf).
  - unfold parse_body in Hb.
    destruct (before_decision mode i p) as [[r'|[name' p']]| |] eqn:Eb;
      simpl in Hb; try discriminate Hb;
      pose proof (before_decision_cases _ _ _ _ Eb) as Hc; cbv zeta in Hc.
    + injection Hb as <-.
      destruct Hc as [(_ & ->)|[(_ & Hns & k & _ & ->)|(_ & _ & _ & _ & ->)]];
        done.
    + apply value_decision_cases in Hb as [(-> & _)|(-> & _)]; done.
  - destruct (class r); done.
  - destruct (class r); try done; by destruct Heff as (? & _).
Qed.

Lemma select_positional_filter argv tr :
  Forall2 class_matches argv tr -> ~ In ValueOfParam tr ->
  select Positional argv tr
  = List.filter (fun tok => negb (looks_like_option tok)) argv.
Proof.
  induction 1 as [|tok c argv tr Hm HF IH]; [done|]. intros Hno.
  cbn [select List.filter]. rewrite IH by (intros ?; apply Hno; by right).
  unfold class_matches in Hm.
  assert (Hl : looks_like_option tok = negb (non_option_class c)).
  { pose proof (is_option_Done_nonempty _ _ Hm) as Hne.
    rewrite is_option_nonempty in Hm by (by destruct tok).
    by injection Hm. }
  rewrite Hl. destruct c; try done. exfalso. apply Hno. by left.
Qed.

(** X9. When no name is registered and PREFER_PARAM_FOR_UNREG_OPTION is
    not set, a command line without empty tokens is parsed to the end and
    no token is consumed as a value: the positional arguments are exactly
    the tokens for which [is_option] is false, in input order, and the
    only parameters are those split on '='. With NO_SPLIT_ON_EQUALSIGN
    set as well there are no parameters at all. *)
Theorem nothing_registered argv mode p :
  registeredParams_ p = ∅ ->
  has_bit mode PREFER_PARAM_FOR_UNREG_OPTION = false ->
  Forall (fun tok => tok <> []) argv ->
  exists q tr,
    parse_traced argv mode p = Done (q, tr)
    /\ parse argv mode p = Done q
    /\ pos_args_ q = List.filter (fun tok => negb (looks_like_option tok)) argv
    /\ ~ In ParamWithValue tr /\ ~ In ValueOfParam tr
    /\ length (params_ q) = count_class InlineParam tr
    /\ (has_bit mode NO_SPLIT_ON_EQUALSIGN = true -> params_ q = []).
Proof.
  intros Hreg Hpp Hne.
  assert (Hm : mode_ok mode = true)
    by (unfold mode_ok; by rewrite Hpp, andb_false_r).
  destruct (parse_traced_completes argv mode p Hm Hne) as (q & tr & H).
  exists q, tr. split; [exact H|]. split; [unfold parse; by rewrite H|].
  pose proof (parse_traced_classes _ _ _ _ _ H) as (HF & _ & Hpos & _).
  assert (Hinv : ~ In ParamWithValue tr /\ ~ In ValueOfParam tr
                 /\ length (params_ q) = count_class InlineParam tr
                 /\ (has_bit mode NO_SPLIT_ON_EQUALSIGN = true ->
                     ~ In InlineParam tr)).
  { unfold parse_traced in H.
    destruct (parse_loop_invariant
      (fun _ p' t =>
         registeredParams_ p' = ∅
         /\ ~ In ParamWithValue t /\ ~ In ValueOfParam t
         /\ length (params_ p') = count_class InlineParam t
         /\ (has_bit mode NO_SPLIT_ON_EQUALSIGN = true -> ~ In InlineParam t))
      mode)
      with (fuel := length argv) (i := 0%nat) (p := set_args argv (clear p))
           (tr := @nil token_class) (q := q) (tr' := tr)
      as (_ & (_ & H1 & H2 & H3 & H4) & _); try done.
    - clear -Hpp. intros i p t r (Hr & H1 & H2 & H3 & H4) _ Hb.
      pose proof (parse_body_shape _ _ _ _ Hb) as ((_ & Hr' & _) & _).
      pose proof (parse_body_class_guards _ _ _ _ Hb) as (G1 & G2 & G3 & G4).
      pose proof (classes_of_counts _ _ _ _ Hb) as (_ & Hlen & _).
      assert (Hc : class r <> ParamWithValue).
      { intros Hc. destruct (G1 Hc) as [?|(n & Hn)]; [congruence|].
        unfold is_param in Hn. apply bool_decide_eq_true in Hn.
        rewrite Hr in Hn. by apply not_elem_of_empty in Hn. }
      unfold classes_of in *. rewrite (G4 Hc), Nat.eqb_refl in *.
      split; [congruence|].
      split; [intros Hin; apply in_app_or in Hin as [?|[?|[]]]; auto|].
      split; [intros Hin; apply in_app_or in Hin as [?|[?|[]]]; auto|].
      split.
      + rewrite count_class_app, Hlen, H3.
        destruct (class r); try done; eval_counts; lia.
      + intros Hns Hin. apply in_app_or in Hin as [?|[Hx|[]]]; [by apply H4|].
        apply G2 in Hx. congruence.
    - simpl. repeat split; try done; tauto. }
  destruct Hinv as (H1 & H2 & H3 & H4).
  split; [by rewrite Hpos, select_positional_filter|].
  repeat split; try done. intros Hns.
  apply length_zero_iff_nil. rewrite H3. unfold count_class.
  apply length_zero_iff_nil.
  specialize (H4 Hns). clear -H4. induction tr as [|c tr IH]; [done|].
  simpl. destruct (bool_decide_reflect (c = InlineParam)) as [->|_].
  - exfalso. apply H4. by left.
  - apply IH. intros ?. apply H4. by right.
Qed.

Lemma nothing_registered_witness :
  exists q tr,
    parse_traced [L"prog"; L"-v"; L"out"; L"-3"] PREFER_FLAG_FOR_UNREG_OPTION
      new_parser = Done (q, tr)
    /\ pos_args_ q = [L"prog"; L"out"; L"-3"].
Proof.
  destruct (nothing_registered [L"prog"; L"-v"; L"out"; L"-3"]
              PREFER_FLAG_FOR_UNREG_OPTION new_parser eq_refl eq_refl)
    as (q & tr & H & _ & Hpos & _).
  { repeat constructor; discriminate. }
  exists q, tr. split; [exact H|]. rewrite Hpos. vm_compute. reflexivity.
Defined.

(** ** The class of a token, from the token and its neighbours *)

Lemma args_lookup_next p i :
  (i < length (args_ p))%nat ->
  args_ p !! S i
  = if (i =? length (args_ p) - 1)%nat then None else Some (arg_at p (i + 1)).
Proof.
  intros Hi. destruct (i =? length (args_ p) - 1)%nat eqn:E.
  - apply Nat.eqb_eq in E. apply lookup_ge_None. lia.
  - apply Nat.eqb_neq in E. replace (i + 1)%nat with (S i) by lia.
    apply arg_at_lookup. lia.
Qed.

(** One iteration when single-dash clusters are not expanded. *)
Lemma parse_body_plain mode i p r :
  has_bit SINGLE_DASH_IS_MULTIFLAG mode = false ->
  (i < length (args_ p))%nat ->
  parse_body mode i p = Done r ->
  let tok := arg_at p i in
  let name := trim_leading_dashes tok in
  (is_option tok = Done false /\ class r = Positional)
  \/ (is_option tok = Done true
      /\ class r = option_class mode p tok (args_ p !! S i)
      /\ match class r with
         | InlineParam =>
             exists key value,
               name = key ++ widen "=" :: value
               /\ contains_equal_sign key = false
               /\ after r = params_insert (key, value) p
         | Flag => after r = flags_emplace name p
         | ParamWithValue =>
             after r = params_insert (name, arg_at p (i + 1)) p
             /\ i <> (length (args_ p) - 1)%nat
         | _ => False
         end).
Proof.
  intros Hmf Hi Hb. cbv zeta.
  set (tok := arg_at p i). set (name := trim_leading_dashes tok).
  unfold parse_body in Hb.
  destruct (before_decision mode i p) as [[r'|[name' p']]| |] eqn:Eb;
    simpl in Hb; try discriminate Hb;
    pose proof (before_decision_cases _ _ _ _ Eb) as Hc; cbv zeta in Hc;
    fold tok in Hc; fold name in Hc.
  - injection Hb as <-.
    destruct Hc as [(Ho & ->)|[(Ho & Hns & k & Hf & ->)|(_ & Hx & _)]];
      [by left| |congruence].
    right. split; [done|]. cbn [class after]. unfold option_class.
    fold tok. fold name. rewrite Hns.
    replace (contains_equal_sign name) with true
      by (symmetry; apply contains_equal_sign_find; eauto).
    split; [done|]. exists (substr name 0 k), (substr_from name (k + 1)).
    split; [by apply find_equal_split|]. split; [|done].
    apply find_Some in Hf as [_ Hk]. exact Hk.
  - destruct Hc as (Ho & Hsplit & [(-> & -> & _)|(Hx & _)]); [|congruence].
    right. split; [done|].
    assert (Hnosplit : negb (has_bit mode NO_SPLIT_ON_EQUALSIGN)
                       && contains_equal_sign name = false).
    { destruct Hsplit as [->|Hf]; [done|].
      destruct (contains_equal_sign name) eqn:E; [|by rewrite andb_false_r].
      apply contains_equal_sign_find in E as [k Hk]. congruence. }
    unfold option_class. fold tok. fold name.
    rewrite Hnosplit, (args_lookup_next p i Hi).
    apply value_decision_cases in Hb
      as [(-> & Hwhy)|(-> & Hne & Hv & _ & Hreg)]; cbn [class after].
    + split; [|done].
      destruct Hwhy as [->|[Hv|(Hv & Hreg & Hpp)]].
      * by rewrite Nat.eqb_refl.
      * destruct (i =? length (args_ p) - 1)%nat; [done|].
        by rewrite (looks_like_option_Done _ _ Hv).
      * destruct (i =? length (args_ p) - 1)%nat; [done|].
        by rewrite (looks_like_option_Done _ _ Hv), Hreg, Hpp.
    + replace (i =? length (args_ p) - 1)%nat with false
        by (symmetry; by apply Nat.eqb_neq).
      rewrite (looks_like_option_Done _ _ Hv).
      split; [|done]. destruct Hreg as [-> | ->]; [done|by rewrite orb_true_r].
Qed.

Lemma retrievable_grows p q tok next c :
  (forall n, n ∈ flags_ p -> n ∈ flags_ q) ->
  (forall x, In x (params_ p) -> In x (params_ q)) ->
  (forall v, In v (pos_args_ p) -> In v (pos_args_ q)) ->
  retrievable p tok next c -> retrievable q tok next c.
Proof.
  intros Hf Hp Hv. destruct c; simpl; auto.
  - intros (key & value & ? & ? & ?). eauto 6.
  - intros (v & ? & ?). eauto.
  - intros (name & ?). eauto.
Qed.

Lemma option_class_registered mode p q tok next :
  registeredParams_ q = registeredParams_ p ->
  option_class mode q tok next = option_class mode p tok next.
Proof. intros Hr. unfold option_class, is_param. by rewrite Hr. Qed.

(** What one iteration settles about the token it reads, and about the
    token it takes as a value. *)
Lemma parse_body_settles mode i p r :
  has_bit SINGLE_DASH_IS_MULTIFLAG mode = false ->
  (i < length (args_ p))%nat ->
  parse_body mode i p = Done r ->
  retrievable (after r) (arg_at p i) (args_ p !! S i) (class r)
  /\ (is_option (arg_at p i) = Done true ->
      class r = option_class mode p (arg_at p i) (args_ p !! S i))
  /\ class r <> ValueOfParam
  /\ (class r = ParamWithValue ->
      (S i < length (args_ p))%nat
      /\ is_option (arg_at p (i + 1)) = Done false
      /\ forall next,
           retrievable (after r) (arg_at p (i + 1)) next ValueOfParam).
Proof.
  intros Hmf Hi Hb.
  pose proof (parse_body_effect _ _ _ _ Hb) as Heff.
  pose proof (parse_body_shape _ _ _ _ Hb) as (_ & Hend & Hopt).
  destruct (parse_body_plain _ _ _ _ Hmf Hi Hb) as [(Ho & Hc)|(Ho & Hc & Hm)].
  - rewrite Hc in *. destruct Heff as (_ & Hpos & _).
    split; [simpl; rewrite Hpos; apply in_or_app; right; by left|].
    split; [congruence|]. done.
  - split; [|split; [done|split]].
    + destruct (class r) eqn:Ec; try done; simpl.
      * destruct Hm as (key & value & Hn & Hk & ->). exists key, value.
        split; [done|]. split; [done|]. cbn [params_ params_insert].
        apply multimap_insert_In. by left.
      * rewrite Hm. apply flags_emplace_elem. by left.
      * destruct Hm as (-> & Hne). exists (arg_at p (i + 1)).
        split.
        -- rewrite (args_lookup_next p i Hi).
           by replace (i =? length (args_ p) - 1)%nat with false
             by (symmetry; by apply Nat.eqb_neq).
        -- cbn [params_ params_insert]. apply multimap_insert_In. by left.
    + intros Ec. rewrite Ec in Hm. done.
    + intros Ec. rewrite Ec in Hm. destruct Hm as (-> & Hne).
      split; [lia|]. split.
      * destruct Hend as [He|(_ & _ & _ & Hv)]; [|done].
        rewrite Ec in Heff. destruct Heff as (He' & _). lia.
      * intros next. simpl. exists (trim_leading_dashes (arg_at p i)).
        apply multimap_insert_In. by left.
Qed.

(** Token by token: what a completed parse holds for each token of the
    command line, when single-dash clusters are not expanded. *)
Lemma parse_traced_indexed argv mode p q tr :
  has_bit SINGLE_DASH_IS_MULTIFLAG mode = false ->
  parse_traced argv mode p = Done (q, tr) ->
  length tr = length argv
  /\ forall j c, tr !! j = Some c ->
       exists tok,
         argv !! j = Some tok
         /\ retrievable q tok (argv !! S j) c
         /\ (is_option tok = Done true ->
             c = option_class mode p tok (argv !! S j))
         /\ (c = ValueOfParam ->
             is_option tok = Done false
             /\ exists j', j = S j' /\ tr !! j' = Some ParamWithValue)
         /\ (c = ParamWithValue -> tr !! S j = Some ValueOfParam).
Proof.
  intros Hmf H. unfold parse_traced in H.
  destruct (parse_loop_invariant
    (fun i p' t =>
       args_ p' = argv /\ registeredParams_ p' = registeredParams_ p
       /\ length t = i /\ (i <= length argv)%nat
       /\ forall j c, t !! j = Some c ->
            exists tok,
              argv !! j = Some tok
              /\ retrievable p' tok (argv !! S j) c
              /\ (is_option tok = Done true ->
                  c = option_class mode p tok (argv !! S j))
              /\ (c = ValueOfParam ->
                  is_option tok = Done false
                  /\ exists j', j = S j' /\ t !! j' = Some ParamWithValue)
              /\ (c = ParamWithValue -> t !! S j = Some ValueOfParam))
    mode)
    with (fuel := length argv) (i := 0%nat) (p := set_args argv (clear p))
         (tr := @nil token_class) (q := q) (tr' := tr)
    as (i' & (Ha & _ & Hlen & Hle & Hall) & Hge); try done.
  - clear -Hmf. intros i p' t r (Ha & Hr & Hlen & Hle & Hall) Hi Hb.
    pose proof (parse_body_shape _ _ _ _ Hb) as ((Ha' & Hr' & _) & Hend & _).
    pose proof (parse_body_grows _ _ _ _ Hb) as (Gf & Gp & Gv).
    pose proof (parse_body_effect _ _ _ _ Hb) as Heff.
    destruct (parse_body_settles _ _ _ _ Hmf Hi Hb) as (S1 & S2 & S3 & S4).
    rewrite (option_class_registered mode p p' _ _ Hr) in S2.
    pose proof (arg_at_lookup p' i Hi) as Htok.
    rewrite Ha in *.
    split; [congruence|]. split; [congruence|].
    assert (Hold : forall j c, t !! j = Some c ->
      forall chunk, exists tok,
        argv !! j = Some tok
        /\ retrievable (after r) tok (argv !! S j) c
        /\ (is_option tok = Done true ->
            c = option_class mode p tok (argv !! S j))
        /\ (c = ValueOfParam ->
            is_option tok = Done false
            /\ exists j', j = S j' /\ (t ++ chunk) !! j' = Some ParamWithValue)
        /\ (c = ParamWithValue -> (t ++ chunk) !! S j = Some ValueOfParam)).
    { intros j c Hj chunk.
      destruct (Hall j c Hj) as (tok & Hjt & Hret & Hoc & Hv & Hpv).
      exists tok. split; [done|].
      split; [by apply (retrievable_grows p')|]. split; [done|]. split.
      - intros Hc. destruct (Hv Hc) as (Hno & j' & -> & Hj').
        split; [done|]. exists j'. split; [done|].
        by apply lookup_app_l_Some.
      - intros Hc. by apply lookup_app_l_Some, Hpv. }
    unfold classes_of.
    destruct Hend as [He|(He & Hc & _)].
    + assert (Hc : class r <> ParamWithValue).
      { intros Hc. rewrite Hc in Heff. destruct Heff as (He' & _). lia. }
      rewrite He, Nat.eqb_refl.
      split; [rewrite length_app; simpl; lia|]. split; [lia|].
      intros j c Hj. apply lookup_app_Some in Hj as [Hj|[Hge Hj]].
      { apply (Hold j c Hj). }
      destruct (j - length t)%nat as [|k] eqn:Ej; [|done].
      injection Hj as <-. assert (j = i) as -> by lia.
      exists (arg_at p' i). repeat split; try done.
    + destruct (S4 Hc) as (Hlt & Hno & Hval).
      replace (end_i r =? i)%nat with false
        by (symmetry; apply Nat.eqb_neq; lia).
      rewrite He.
      split; [rewrite length_app; simpl; lia|]. split; [lia|].
      intros j c Hj. apply lookup_app_Some in Hj as [Hj|[Hge Hj]].
      { apply (Hold j c Hj). }
      destruct (j - length t)%nat as [|[|k]] eqn:Ej; [| |done].
      * injection Hj as <-. assert (j = i) as -> by lia.
        exists (arg_at p' i). rewrite Hc in *.
        repeat split; try done.
        intros _. rewrite lookup_app_r by lia.
        by replace (S i - length t)%nat with 1%nat by lia.
      * injection Hj as <-. assert (j = S i) as -> by lia.
        exists (arg_at p' (i + 1)).
        split.
        { replace (S i) with (i + 1)%nat by lia.
          rewrite <- Ha at 1. apply arg_at_lookup. rewrite Ha. lia. }
        split; [apply Hval|]. split; [congruence|]. split; [|done].
        intros _. split; [done|]. exists i. split; [done|].
        rewrite lookup_app_r by lia.
        replace (i - length t)%nat with 0%nat by lia.
        simpl. by rewrite Hc.
  - simpl. repeat split; try done; lia.
  - split; [rewrite Ha in Hge; lia|]. exact Hall.
Qed.

(** An entry of [params_] is among the elements of [params] under its key
    and makes [operator()] of that key succeed. *)
Lemma stored_param_found q name key v :
  key_sorted (params_ q) ->
  trim_leading_dashes name = key ->
  In (key, v) (params_ q) ->
  In (key, v) (wrapper_elements (params_of q name))
  /\ Stream.fail (call_param q name) = false.
Proof.
  intros Hs Hk Hin.
  destruct (params_of_sorted q name Hs) as (_ & -> & _).
  assert (He : In (key, v) (entries_of (trim_leading_dashes name) (params_ q)))
    by (apply entries_of_In; by rewrite Hk).
  split; [done|]. rewrite call_param_first by done.
  by destruct (entries_of _ _).
Qed.

(** X10. With single-dash clusters not expanded, the class of every token
    of a completed parse is decided by the token and its two neighbours:
    an option token gets the class [option_class] computes from its own
    spelling, the registered names, the mode and the next token; a token
    that is not an option is the value of a parameter exactly when the
    token before it was classified as a parameter taking a value, and is
    positional otherwise. *)
Theorem token_class_by_neighbours argv mode p q tr :
  has_bit SINGLE_DASH_IS_MULTIFLAG mode = false ->
  parse_traced argv mode p = Done (q, tr) ->
  forall j tok, argv !! j = Some tok ->
    exists c,
      tr !! j = Some c
      /\ ((is_option tok = Done true
           /\ c = option_class mode p tok (argv !! S j))
          \/ (is_option tok = Done false
              /\ ((c = ValueOfParam
                   /\ exists j', j = S j' /\ tr !! j' = Some ParamWithValue)
                  \/ (c = Positional
                      /\ forall j', j = S j' ->
                           tr !! j' <> Some ParamWithValue)))).
Proof.
  intros Hmf H j tok Hj.
  destruct (parse_traced_indexed _ _ _ _ _ Hmf H) as (Hlen & Hall).
  pose proof (parse_traced_classes _ _ _ _ _ H) as (HF & _).
  destruct (lookup_lt_is_Some_2 tr j) as [c Hc].
  { rewrite Hlen. by apply lookup_lt_Some in Hj. }
  exists c. split; [done|].
  destruct (Hall j c Hc) as (tok' & Hj' & _ & Hoc & Hv & _).
  assert (tok' = tok) as -> by congruence.
  pose proof (Forall2_lookup_lr _ _ _ _ _ _ HF Hj Hc) as Hm.
  unfold class_matches in Hm.
  destruct (non_option_class c) eqn:En; simpl in Hm.
  - right. split; [done|].
    destruct c; try discriminate En.
    + right. split; [done|]. intros j' -> Hp.
      destruct (Hall j' _ Hp) as (_ & _ & _ & _ & _ & Hnext).
      specialize (Hnext eq_refl). congruence.
    + left. split; [done|]. by apply Hv.
  - left. auto.
Qed.

Lemma token_class_by_neighbours_witness :
  exists q tr,
    parse_traced [L"prog"; L"-o"; L"out"; L"in"; L"-v"] 0
      (add_param (L"o") new_parser) = Done (q, tr)
    /\ tr !! 1%nat = Some ParamWithValue.
Proof.
  eexists _, _. split; [vm_compute; reflexivity|].
  destruct (token_class_by_neighbours
              [L"prog"; L"-o"; L"out"; L"in"; L"-v"] 0
              (add_param (L"o") new_parser) _ _ eq_refl eq_refl
              1%nat (L"-o") eq_refl) as (c & Hc & [(_ & ->)|(Ho & _)]).
  - vm_compute in Hc. vm_compute. exact Hc.
  - vm_compute in Ho. discriminate Ho.
Defined.

(** X11. With single-dash clusters not expanded, every token of a
    completed parse can be read back through the accessor of its class: a
    flag token through [operator[]] of its spelling; a parameter taking a
    value through [operator()] and [params] of its spelling, with the next
    token as a stored value; a token split on '=' through the part before
    the first '=', with the rest as a stored value; a positional token
    through [operator[]] of some index below [size()]; and a token taken
    as a value is stored under the name of the token before it. *)
Theorem tokens_read_back argv mode p q tr :
  has_bit SINGLE_DASH_IS_MULTIFLAG mode = false ->
  parse_traced argv mode p = Done (q, tr) ->
  forall j tok c, argv !! j = Some tok -> tr !! j = Some c ->
    match c with
    | Flag => index_flag q tok = true
    | ParamWithValue =>
        exists v,
          argv !! S j = Some v
          /\ In (trim_leading_dashes tok, v) (wrapper_elements (params_of q tok))
          /\ Stream.fail (call_param q tok) = false
    | InlineParam =>
        exists key value,
          trim_leading_dashes tok = key ++ widen "=" :: value
          /\ contains_equal_sign key = false
          /\ forall name, trim_leading_dashes name = key ->
               In (key, value) (wrapper_elements (params_of q name))
               /\ Stream.fail (call_param q name) = false
    | Positional =>
        exists ind, (ind < size q)%nat /\ index_pos q ind = tok
                    /\ call_pos q ind = Stream.of_wstring tok
    | ValueOfParam =>
        exists j' name,
          j = S j' /\ argv !! j' = Some name
          /\ In (trim_leading_dashes name, tok)
               (wrapper_elements (params_of q name))
    end.
Proof.
  intros Hmf H j tok c Hj Hc.
  destruct (parse_traced_indexed _ _ _ _ _ Hmf H) as (Hlen & Hall).
  pose proof (parse_traced_params_sorted _ _ _ _ _ H) as Hs.
  destruct (Hall j c Hc) as (tok' & Hj' & Hret & _ & Hv & _).
  assert (tok' = tok) as -> by congruence.
  destruct c; simpl in Hret.
  - apply In_nth with (d := []) in Hret as (ind & Hlt & Hn).
    exists ind. unfold size, index_pos, call_pos. split; [done|].
    replace (ind <? length (pos_args_ q))%nat with true
      by (symmetry; by apply Nat.ltb_lt).
    replace (length (pos_args_ q) <=? ind)%nat with false
      by (symmetry; apply Nat.leb_gt; done).
    by rewrite Hn.
  - destruct Hret as (key & value & Hk & Hne & Hin).
    exists key, value. split; [done|]. split; [done|].
    intros name Hname. by apply stored_param_found.
  - unfold index_flag, got_flag. by apply bool_decide_eq_true.
  - destruct Hret as (v & Hnext & Hin). exists v. split; [done|].
    by apply stored_param_found.
  - destruct (Hv eq_refl) as (_ & j' & -> & Hp).
    destruct (Hall j' _ Hp) as (name & Hjn & Hretn & _).
    simpl in Hretn. destruct Hretn as (v & Hnext & Hin).
    assert (v = tok) as -> by congruence.
    exists j', name. split; [done|]. split; [done|].
    by apply (stored_param_found q name).
Qed.

Lemma tokens_read_back_witness :
  exists q tr,
    parse_traced [L"prog"; L"--out"; L"a.txt"] PREFER_PARAM_FOR_UNREG_OPTION
      new_parser = Done (q, tr)
    /\ Stream.fail (call_param q (L"--out")) = false.
Proof.
  eexists _, _. split; [vm_compute; reflexivity|].
  destruct (tokens_read_back
              [L"prog"; L"--out"; L"a.txt"] PREFER_PARAM_FOR_UNREG_OPTION
              new_parser _ _ eq_refl eq_refl 1%nat (L"--out") ParamWithValue
              eq_refl eq_refl) as (v & _ & _ & Hf).
  exact Hf.
Defined.

(** X12. Registering, parsing and reading back, with single-dash clusters
    not expanded. An option token that is not split on '=' and is
    directly followed by a token that is not an option: if its name was
    registered (under any spelling), the next token is stored as one of
    its values, [operator()] of the name succeeds and [params] of the name
    has that entry; if its name is not registered and PREFER_PARAM is not
    set, the token is a flag and the next token is a positional
    argument. *)
Theorem registered_names_take_values names argv mode p q :
  has_bit SINGLE_DASH_IS_MULTIFLAG mode = false ->
  parse argv mode (add_params names p) = Done q ->
  forall j tok v,
    argv !! j = Some tok -> argv !! S j = Some v ->
    is_option tok = Done true -> is_option v = Done false ->
    (has_bit mode NO_SPLIT_ON_EQUALSIGN = true
     \/ contains_equal_sign (trim_leading_dashes tok) = false) ->
    (forall name,
       In name names ->
       trim_leading_dashes name = trim_leading_dashes tok ->
       In (trim_leading_dashes name, v) (wrapper_elements (params_of q name))
       /\ Stream.fail (call_param q name) = false)
    /\ (is_param (add_params names p) (trim_leading_dashes tok) = false ->
        has_bit mode PREFER_PARAM_FOR_UNREG_OPTION = false ->
        index_flag q tok = true /\ In v (pos_args_ q)).
Proof.
  intros Hmf H j tok v Hj Hnext Ho Hv Hsplit.
  unfold parse in H.
  destruct (parse_traced argv mode (add_params names p)) as [[q' tr]| |] eqn:E;
    simpl in H; try discriminate H.
  injection H as ->.
  destruct (parse_traced_indexed _ _ _ _ _ Hmf E) as (Hlen & Hall).
  pose proof (parse_traced_params_sorted _ _ _ _ _ E) as Hs.
  pose proof (parse_traced_classes _ _ _ _ _ E) as (HF & _).
  destruct (lookup_lt_is_Some_2 tr j) as [c Hc].
  { rewrite Hlen. by apply lookup_lt_Some in Hj. }
  destruct (Hall j c Hc) as (tok' & Hj' & Hret & Hoc & _ & _).
  assert (tok' = tok) as -> by congruence.
  specialize (Hoc Ho). rewrite Hnext in Hoc, Hret.
  unfold option_class in Hoc.
  replace (negb (has_bit mode NO_SPLIT_ON_EQUALSIGN)
           && contains_equal_sign (trim_leading_dashes tok)) with false in Hoc
    by (destruct Hsplit as [-> | ->]; [done|by rewrite andb_false_r]).
  rewrite (looks_like_option_Done _ _ Hv) in Hoc.
  split.
  - intros name Hin Hname.
    assert (Hreg : is_param (add_params names p) (trim_leading_dashes tok) = true).
    { unfold is_param. apply bool_decide_eq_true.
      destruct (add_params_registered names p) as (-> & _).
      apply elem_of_registered. left. eauto. }
    rewrite Hreg in Hoc. simpl in Hoc. subst c. simpl in Hret.
    destruct Hret as (v' & Hv' & Hin'). injection Hv' as <-.
    rewrite Hname. apply stored_param_found; [done|done|done].
  - intros Hreg Hpp. rewrite Hreg, Hpp in Hoc. simpl in Hoc. subst c.
    split; [simpl in Hret; unfold index_flag, got_flag;
            by apply bool_decide_eq_true|].
    destruct (lookup_lt_is_Some_2 tr (S j)) as [c' Hc'].
    { rewrite Hlen. by apply lookup_lt_Some in Hnext. }
    destruct (Hall (S j) c' Hc') as (v' & Hv' & Hret' & _ & Hval & _).
    assert (v' = v) as -> by congruence.
    pose proof (Forall2_lookup_lr _ _ _ _ _ _ HF Hnext Hc') as Hm.
    unfold class_matches in Hm. rewrite Hv in Hm.
    destruct c'; try discriminate Hm; [exact Hret'|].
    destruct (Hval eq_refl) as (_ & j' & Hjj & Hp).
    injection Hjj as <-. congruence.
Qed.

Lemma registered_names_take_values_witness :
  exists q,
    parse [L"prog"; L"--out"; L"a.txt"; L"-v"; L"in"] 0
      (wparser_of_names [L"out"]) = Done q
    /\ Stream.fail (call_param q (L"out")) = false
    /\ In (L"in") (pos_args_ q).
Proof.
  eexists. split; [vm_compute; reflexivity|].
  split.
  - destruct (registered_names_take_values
                [L"out"] [L"prog"; L"--out"; L"a.txt"; L"-v"; L"in"] 0
                new_parser _ eq_refl eq_refl 1%nat (L"--out") (L"a.txt")
                eq_refl eq_refl eq_refl eq_refl (or_intror eq_refl))
      as (Hreg & _).
    destruct (Hreg (L"out") (or_introl eq_refl) eq_refl) as (_ & Hf).
    exact Hf.
  - destruct (registered_names_take_values
                [L"out"] [L"prog"; L"--out"; L"a.txt"; L"-v"; L"in"] 0
                new_parser _ eq_refl eq_refl 3%nat (L"-v") (L"in")
                eq_refl eq_refl eq_refl eq_refl (or_intror eq_refl))
      as (_ & Hflag).
    destruct (Hflag eq_refl eq_refl) as (_ & Hpos). exact Hpos.
Defined.

(** ** Single-dash clusters *)

Lemma trim_leading_dashes_nil s : trim_leading_dashes s = [] -> s = [].
Proof.
  destruct (trim_leading_dashes_split s) as [(k & c & r & _ & _ & ->)|[_ ->]];
    done.
Qed.

Lemma trim_single c : trim_leading_dashes [c] = [c].
Proof.
  destruct (trim_leading_dashes_split [c])
    as [(k & x & r & Hx & Hs & Ht)|[_ Ht]]; [|done].
  rewrite Ht. destruct k as [|k]; [done|].
  simpl in Hs. injection Hs as -> Hs. by destruct k.
Qed.

(** Lines 212-256 on a single-dash cluster whose name is not registered,
    with SINGLE_DASH_IS_MULTIFLAG set. *)
Lemma before_decision_cluster mode i p :
  has_bit SINGLE_DASH_IS_MULTIFLAG mode = true ->
  let tok := arg_at p i in
  let name := trim_leading_dashes tok in
  is_option tok = Done true ->
  (length tok - length name)%nat = 1%nat ->
  is_param p name = false ->
  (has_bit mode NO_SPLIT_ON_EQUALSIGN = true
   \/ contains_equal_sign name = false) ->
  name <> []
  /\ before_decision mode i p
     = if is_param p [back name]
       then Done (inr ([back name], emplace_each_char (drop_back name) p))
       else Done (inl (mk_iteration i (emplace_each_char name p) Flag)).
Proof.
  intros Hmf. cbv zeta.
  set (tok := arg_at p i). set (name := trim_leading_dashes tok).
  intros Ho Hlen Hreg Hsplit.
  assert (Hne : name <> []).
  { intros Hn. unfold name in Hn. apply trim_leading_dashes_nil in Hn.
    rewrite Hn in Hlen. done. }
  split; [done|].
  unfold before_decision. fold tok. fold name. rewrite Ho. cbn [bind negb].
  replace (if negb (has_bit mode NO_SPLIT_ON_EQUALSIGN)
           then find (widen "=") name else None) with (@None nat).
  2:{ destruct Hsplit as [-> |Hc]; [done|].
      destruct (negb _); [|done].
      destruct (find (widen "=") name) as [k|] eqn:Hf; [|done].
      assert (contains_equal_sign name = true)
        by (apply contains_equal_sign_find; eauto). congruence. }
  rewrite Hlen, Hmf, Hreg. cbn [Nat.eqb andb negb].
  replace (length name =? 0)%nat with false
    by (symmetry; apply Nat.eqb_neq; by destruct name).
  cbn [andb negb]. by destruct (is_param p [back name]).
Qed.

(** One iteration on such a cluster. *)
Lemma parse_body_cluster mode i p r :
  has_bit SINGLE_DASH_IS_MULTIFLAG mode = true ->
  parse_body mode i p = Done r ->
  let tok := arg_at p i in
  let name := trim_leading_dashes tok in
  is_option tok = Done true ->
  (length tok - length name)%nat = 1%nat ->
  is_param p name = false ->
  (has_bit mode NO_SPLIT_ON_EQUALSIGN = true
   \/ contains_equal_sign name = false) ->
  (forall c, In c (drop_back name) -> [c] ∈ flags_ (after r))
  /\ (is_param p [back name] = false ->
      class r = Flag /\ [back name] ∈ flags_ (after r))
  /\ (is_param p [back name] = true ->
      (class r = Flag /\ [back name] ∈ flags_ (after r)
       /\ (i = (length (args_ p) - 1)%nat
           \/ is_option (arg_at p (i + 1)) = Done true))
      \/ (class r = ParamWithValue
          /\ In ([back name], arg_at p (i + 1)) (params_ (after r))
          /\ i <> (length (args_ p) - 1)%nat
          /\ is_option (arg_at p (i + 1)) = Done false)).
Proof.
  intros Hmf Hb. cbv zeta.
  set (tok := arg_at p i). set (name := trim_leading_dashes tok).
  intros Ho Hlen Hreg Hsplit.
  destruct (before_decision_cluster mode i p Hmf Ho Hlen Hreg Hsplit)
    as [Hne Hbd].
  fold tok in Hbd. fold name in Hbd.
  unfold parse_body in Hb. rewrite Hbd in Hb.
  destruct (is_param p [back name]) eqn:Hlast; cbn [bind] in Hb.
  - pose proof (emplace_each_char_frame (drop_back name) p) as Hf.
    pose proof Hf as (Ha & _).
    assert (Hpre : forall c, In c (drop_back name) ->
                     [c] ∈ flags_ (emplace_each_char (drop_back name) p)).
    { intros c Hin. apply emplace_each_char_elem. right. eauto. }
    apply value_decision_cases in Hb
      as [(-> & Hwhy)|(-> & Hn & Hv & _ & _)]; cbn [after class].
    + split; [|split; [done|]].
      * intros c Hin. apply flags_emplace_elem. right. by apply Hpre.
      * intros _. left. split; [done|].
        split; [apply flags_emplace_elem; by left|].
        unfold arg_at in *. rewrite Ha in Hwhy.
        destruct Hwhy as [?|[?|(_ & Hx & _)]]; [by left|by right|].
        rewrite (is_param_frame _ _ _ Hf) in Hx. congruence.
    + split; [|split; [done|]].
      * intros c Hin. cbn [flags_ params_insert]. by apply Hpre.
      * intros _. right. split; [done|].
        unfold arg_at in *. rewrite Ha in *.
        split; [|done]. cbn [params_ params_insert].
        apply multimap_insert_In. by left.
  - injection Hb as <-. cbn [after class].
    split; [|split; [|done]].
    + intros c Hin. apply emplace_each_char_elem. right.
      exists c. split; [by apply in_drop_back|done].
    + intros _. split; [done|]. apply emplace_each_char_elem. right.
      exists (back name). split; [by apply back_in|done].
Qed.

(** What an iteration establishes for the token it reads, and later
    iterations keep, holds after the parse for every token that was not
    skipped as a value. *)
Lemma parse_traced_each (P : wparser -> nat -> token_class -> Prop)
    argv mode p q tr :
  (forall i p' r j c,
     parse_body mode i p' = Done r -> P p' j c -> P (after r) j c) ->
  (forall i p' r,
     args_ p' = argv -> registeredParams_ p' = registeredParams_ p ->
     (i < length argv)%nat -> parse_body mode i p' = Done r ->
     P (after r) i (class r)) ->
  parse_traced argv mode p = Done (q, tr) ->
  forall j c, tr !! j = Some c -> c <> ValueOfParam -> P q j c.
Proof.
  intros Hmono Hnew H. unfold parse_traced in H.
  destruct (parse_loop_invariant
    (fun i p' t =>
       args_ p' = argv /\ registeredParams_ p' = registeredParams_ p
       /\ length t = i
       /\ forall j c, t !! j = Some c -> c <> ValueOfParam -> P p' j c)
    mode)
    with (fuel := length argv) (i := 0%nat) (p := set_args argv (clear p))
         (tr := @nil token_class) (q := q) (tr' := tr)
    as (_ & (_ & _ & _ & Hall) & _); try done.
  clear -Hmono Hnew. intros i p' t r (Ha & Hr & Hlen & Hall) Hi Hb.
  pose proof (parse_body_shape _ _ _ _ Hb) as ((Ha' & Hr' & _) & Hend & _).
  rewrite Ha in *.
  split; [congruence|]. split; [congruence|].
  assert (Hcls : exists rest, classes_of i r = class r :: rest
                 /\ length rest = (end_i r - i)%nat
                 /\ Forall (fun c => c = ValueOfParam) rest).
  { unfold classes_of. destruct Hend as [->|(-> & _)].
    - rewrite Nat.eqb_refl. exists []. simpl. split; [done|].
      split; [lia|constructor].
    - replace (i + 1 =? i)%nat with false by (symmetry; apply Nat.eqb_neq; lia).
      exists [ValueOfParam]. simpl. split; [done|].
      split; [lia|by repeat constructor]. }
  destruct Hcls as (rest & -> & Hrl & Hrest).
  split.
  { rewrite length_app. simpl. rewrite Hrl.
    destruct Hend as [->|(-> & _)]; lia. }
  intros j c Hj Hc. apply lookup_app_Some in Hj as [Hj|[Hge Hj]].
  { exact (Hmono i p' r j c Hb (Hall j c Hj Hc)). }
  destruct (j - length t)%nat as [|k] eqn:Ej.
  - simpl in Hj. injection Hj as <-. assert (j = i) as -> by lia.
    exact (Hnew i p' r Ha Hr Hi Hb).
  - simpl in Hj. exfalso. apply Hc.
    exact (Forall_lookup_1 _ _ _ _ Hrest Hj).
Qed.

(** X13. With SINGLE_DASH_IS_MULTIFLAG set, a single-dash option token
    whose name is not registered (and is not split on '=') is a cluster:
    after a completed parse every character of the name but the last is a
    flag that [operator[]] finds. The last character is a flag too when it
    is not a registered name, and the token's class is [Flag]. When the
    last character is a registered name, it either takes the next token as
    its value, when that token exists and is not an option, and
    [operator()] of it succeeds; or it is a flag as well. *)
Theorem multiflag_clusters argv mode p q tr :
  has_bit SINGLE_DASH_IS_MULTIFLAG mode = true ->
  parse_traced argv mode p = Done (q, tr) ->
  forall j tok,
    argv !! j = Some tok ->
    let name := trim_leading_dashes tok in
    is_option tok = Done true ->
    (length tok - length name)%nat = 1%nat ->
    is_param p name = false ->
    (has_bit mode NO_SPLIT_ON_EQUALSIGN = true
     \/ contains_equal_sign name = false) ->
    (forall c, In c (drop_back name) -> index_flag q [c] = true)
    /\ (is_param p [back name] = false ->
        tr !! j = Some Flag /\ index_flag q [back name] = true)
    /\ (is_param p [back name] = true ->
        (tr !! j = Some Flag /\ index_flag q [back name] = true
         /\ (S j = length argv
             \/ exists v, argv !! S j = Some v /\ is_option v = Done true))
        \/ (tr !! j = Some ParamWithValue
            /\ exists v,
                 argv !! S j = Some v /\ is_option v = Done false
                 /\ In ([back name], v)
                      (wrapper_elements (params_of q [back name]))
                 /\ Stream.fail (call_param q [back name]) = false)).
Proof.
  intros Hmf H j tok Hj name Ho Hlen Hreg Hsplit.
  pose proof (parse_traced_classes _ _ _ _ _ H) as (HF & _).
  pose proof (parse_traced_params_sorted _ _ _ _ _ H) as Hs.
  destruct (Forall2_lookup_l _ _ _ _ _ HF Hj) as (c & Hc & Hm).
  unfold class_matches in Hm. rewrite Ho in Hm.
  assert (Hnv : c <> ValueOfParam) by (intros ->; discriminate Hm).
  pose proof (parse_traced_each
    (fun p' j c =>
       forall tok, argv !! j = Some tok ->
         let name := trim_leading_dashes tok in
         is_option tok = Done true ->
         (length tok - length name)%nat = 1%nat ->
         is_param p name = false ->
         (has_bit mode NO_SPLIT_ON_EQUALSIGN = true
          \/ contains_equal_sign name = false) ->
         (forall x, In x (drop_back name) -> [x] ∈ flags_ p')
         /\ (is_param p [back name] = false ->
             c = Flag /\ [back name] ∈ flags_ p')
         /\ (is_param p [back name] = true ->
             (c = Flag /\ [back name] ∈ flags_ p'
              /\ (S j = length argv
                  \/ exists v, argv !! S j = Some v /\ is_option v = Done true))
             \/ (c = ParamWithValue
                 /\ exists v,
                      argv !! S j = Some v /\ is_option v = Done false
                      /\ In ([back name], v) (params_ p'))))
    argv mode p q tr) as Heach.
  cbv beta zeta in Heach.
  destruct (Heach) with (j := j) (c := c) (tok := tok)
    as (H1 & H2 & H3); try done.
  - clear. intros i p' r j c Hb HP tok Hj Ho Hlen Hreg Hsplit.
    pose proof (parse_body_grows _ _ _ _ Hb) as (Gf & Gp & _).
    destruct (HP tok Hj Ho Hlen Hreg Hsplit) as (H1 & H2 & H3).
    split; [auto|]. split.
    + intros Hl. destruct (H2 Hl). auto.
    + intros Hl. destruct (H3 Hl) as [(? & ? & ?)|(? & v & ? & ? & ?)].
      * left. auto.
      * right. split; [done|]. exists v. auto.
  - clear -Hmf. intros i p' r Ha Hr Hi Hb tok Hj Ho Hlen Hreg Hsplit.
    assert (Htok : arg_at p' i = tok).
    { pose proof (arg_at_lookup p' i) as Hl. rewrite Ha in Hl.
      specialize (Hl Hi). congruence. }
    assert (Hp : forall n, is_param p' n = is_param p n)
      by (intros n; unfold is_param; by rewrite Hr).
    pose proof (parse_body_cluster mode i p' r Hmf Hb) as Hcl.
    cbv zeta in Hcl. rewrite Htok, !Hp in Hcl.
    destruct (Hcl Ho Hlen Hreg Hsplit) as (H1 & H2 & H3).
    split; [done|]. split; [done|].
    intros Hl. destruct (H3 Hl) as [(? & ? & Hwhy)|(? & Hin & Hne & Hv)].
    + left. split; [done|]. split; [done|]. rewrite Ha in Hwhy.
      destruct Hwhy as [Hlast|Hopt]; [left; lia|].
      destruct (decide (i = length argv - 1)%nat) as [?|Hne]; [left; lia|].
      right. exists (arg_at p' (i + 1)). split; [|done].
      replace (S i) with (i + 1)%nat by lia.
      rewrite <- Ha at 1. apply arg_at_lookup. rewrite Ha. lia.
    + right. split; [done|]. exists (arg_at p' (i + 1)).
      rewrite Ha in Hne. split; [|done].
      replace (S i) with (i + 1)%nat by lia.
      rewrite <- Ha at 1. apply arg_at_lookup. rewrite Ha. lia.
  - assert (Hidx : forall x, [x] ∈ flags_ q -> index_flag q [x] = true).
    { intros x Hx. unfold index_flag, got_flag. rewrite trim_single.
      by apply bool_decide_eq_true. }
    split; [auto|]. split.
    + intros Hl. destruct (H2 Hl) as [-> ?]. auto.
    + intros Hl.
      destruct (H3 Hl) as [(-> & ? & ?)|(-> & v & ? & ? & Hin)].
      * left. auto.
      * right. split; [done|]. exists v. split; [done|]. split; [done|].
        apply stored_param_found; [done|apply trim_single|done].
Qed.

Lemma multiflag_clusters_witness :
  exists q tr,
    parse_traced [L"prog"; L"-xvf"; L"a.tar"] SINGLE_DASH_IS_MULTIFLAG
      (add_param (L"f") new_parser) = Done (q, tr)
    /\ index_flag q (L"x") = true /\ index_flag q (L"v") = true
    /\ Stream.fail (call_param q (L"f")) = false.
Proof.
  eexists _, _. split; [vm_compute; reflexivity|].
  destruct (multiflag_clusters
              [L"prog"; L"-xvf"; L"a.tar"] SINGLE_DASH_IS_MULTIFLAG
              (add_param (L"f") new_parser) _ _ eq_refl eq_refl
              1%nat (L"-xvf") eq_refl eq_refl eq_refl eq_refl
              (or_intror eq_refl)) as (Hfl & _ & Hlast).
  split; [apply (Hfl (widen "x")); by left|].
  split; [apply (Hfl (widen "v")); right; by left|].
  destruct (Hlast eq_refl) as [(Hc & _)|(_ & v & _ & _ & _ & Hf)].
  - vm_compute in Hc. discriminate Hc.
  - exact Hf.
Defined.

(** ** Which spellings are options *)

Lemma digits_value_bound ds acc :
  forallb Stream.is_digit ds = true ->
  (Z.of_N (fold_left (fun acc c => (10 * acc + (c - 48))%N) ds acc)
   < (Z.of_N acc + 1) * 10 ^ Z.of_nat (length ds))%Z.
Proof.
  revert acc. induction ds as [|c ds IH]; intros acc H.
  - simpl. lia.
  - cbn [forallb] in H. apply andb_prop in H as [Hc Hds].
    cbn [fold_left]. specialize (IH (10 * acc + (c - 48))%N Hds).
    eapply Z.lt_le_trans; [exact IH|].
    replace (Z.of_nat (length (c :: ds))) with (Z.succ (Z.of_nat (length ds)))
      by (simpl length; lia).
    rewrite Z.pow_succ_r by lia.
    assert (Hd : (c - 48 <= 9)%N).
    { unfold Stream.is_digit in Hc. apply andb_prop in Hc as [H1 H2].
      apply N.leb_le in H1, H2. lia. }
    assert (0 < 10 ^ Z.of_nat (length ds))%Z by (apply Z.pow_pos_nonneg; lia).
    nia.
Qed.

Lemma span_digits_all ds :
  forallb Stream.is_digit ds = true -> Stream.span_digits ds = (ds, []).
Proof.
  induction ds as [|c ds IH]; [done|]. cbn [forallb]. intros H.
  apply andb_prop in H as [Hc Hds]. simpl. by rewrite Hc, IH.
Qed.

Lemma signed_digits_number ds :
  ds <> [] -> forallb Stream.is_digit ds = true -> (length ds <= 308)%nat ->
  converts_to_double (widen "-" :: ds) = true.
Proof.
  intros Hne Hds Hlen.
  unfold converts_to_double, Stream.stage3_fails, Stream.strtod.
  change (Stream.is_sign (widen "-")) with true. cbn match.
  unfold Stream.strtod_unsigned. rewrite span_digits_all by done.
  rewrite app_nil_r. destruct ds as [|d ds]; [done|].
  cbn [Stream.exponent_part length]. apply negb_true_iff.
  unfold Stream.too_large. cbn [Stream.exp10 Stream.mant].
  change (0 - Z.of_nat 0)%Z with 0%Z. cbn [Z.leb Z.compare].
  apply Z.leb_gt. rewrite Z.pow_0_r, Z.mul_1_r.
  pose proof (digits_value_bound (d :: ds) 0%N Hds) as Hb.
  unfold Stream.digits_value.
  eapply Z.lt_le_trans; [exact Hb|].
  change (Z.of_N 0 + 1)%Z with 1%Z. rewrite Z.mul_1_l.
  transitivity (10 ^ 308)%Z.
  - apply Z.pow_le_mono_r; lia.
  - by vm_compute.
Qed.

(** X14. Which spellings [is_option] takes for options. An empty token
    violates its assertion. A token that does not start with a dash is
    never an option. A dash followed by a character that is neither a
    digit nor a decimal point is always an option. A dash followed by at
    most 308 digits, and then by nothing or by a character that cannot
    continue a number, is never an option: negative integers are not
    options. *)
Theorem option_spellings :
  is_option [] = AssertFailed ArgNotEmpty
  /\ (forall c s, wchar_eqb (widen "-") c = false ->
        is_option (c :: s) = Done false)
  /\ (forall c s,
        Stream.is_digit c = false -> Stream.is_point c = false ->
        is_option (widen "-" :: c :: s) = Done true)
  /\ (forall ds s,
        ds <> [] -> forallb Stream.is_digit ds = true ->
        (length ds <= 308)%nat -> stops_number s = true ->
        is_option (widen "-" :: ds ++ s) = Done false).
Proof.
  split; [reflexivity|]. split; [|split].
  - intros c s Hc. rewrite is_option_nonempty by done.
    cbn [starts_with_dash]. by rewrite Hc, andb_false_r.
  - intros c s Hd Hp. rewrite is_option_nonempty by done.
    rewrite is_number_field by reflexivity.
    cbn [Stream.stage2]. change (Stream.is_sign (widen "-")) with true.
    cbn match. cbn [Stream.accumulate]. rewrite Hd, Hp.
    cbn [andb]. rewrite andb_false_r. reflexivity.
  - intros ds s Hne Hds Hlen Hs. rewrite is_option_nonempty by done.
    change (widen "-" :: ds ++ s) with ((widen "-" :: ds) ++ s).
    rewrite is_number_prefix; [done| |done].
    by apply signed_digits_number.
Qed.

Lemma option_spellings_witness :
  is_option (L"-v") = Done true /\ is_option (L"-42") = Done false
  /\ is_option (L"out") = Done false.
Proof.
  destruct option_spellings as (_ & Hplain & Hdash & Hnum).
  split; [apply Hdash; reflexivity|]. split.
  - apply (Hnum (L"42") []); [done|reflexivity|simpl; lia|reflexivity].
  - apply Hplain. reflexivity.
Defined.

(** ** Repeated parameters *)

Lemma entries_of_app k m m' :
  entries_of k (m ++ m') = entries_of k m ++ entries_of k m'.
Proof. unfold entries_of. apply filter_app. Qed.

(** [std::multimap::insert] puts an entry after the entries of its key. *)
Lemma entries_of_insert k kv m :
  key_sorted m ->
  entries_of k (multimap_insert kv m) = entries_of k m ++ entries_of k [kv].
Proof.
  intros Hs. destruct kv as [k' v]. rewrite (entries_of_cons k (k', v) []).
  destruct (bool_decide_reflect (fst (k', v) = k)) as [Hk|Hk].
  - simpl in Hk. subst k'. by apply entries_of_insert_same.
  - cbn [entries_of List.filter]. rewrite app_nil_r.
    by apply entries_of_insert_other.
Qed.

Lemma insertions_from_app mode p argv j t t' :
  insertions_from mode p argv j (t ++ t')
  = insertions_from mode p argv j t
    ++ insertions_from mode p argv (j + length t) t'.
Proof.
  revert j. induction t as [|c t IH]; intros j; cbn [app insertions_from length].
  - by rewrite Nat.add_0_r.
  - rewrite IH, <- app_assoc. by replace (S j + length t)%nat with (j + S (length t))%nat by lia.
Qed.

Lemma stored_entry_registered mode p q tok next c :
  registeredParams_ q = registeredParams_ p ->
  stored_entry mode q tok next c = stored_entry mode p tok next c.
Proof. intros Hr. unfold stored_entry, is_param. by rewrite Hr. Qed.

(** The parameters after one iteration. *)
Lemma parse_body_stores mode i p r :
  (i < length (args_ p))%nat ->
  parse_body mode i p = Done r ->
  params_ (after r)
  = match stored_entry mode p (arg_at p i) (args_ p !! S i) (class r) with
    | Some e => multimap_insert e (params_ p)
    | None => params_ p
    end.
Proof.
  intros Hi Hb. unfold parse_body in Hb.
  destruct (before_decision mode i p) as [[r'|[name' p']]| |] eqn:Eb;
    simpl in Hb; try discriminate Hb;
    pose proof (before_decision_cases _ _ _ _ Eb) as Hc; cbv zeta in Hc.
  - injection Hb as <-.
    destruct Hc as [(_ & ->)|[(_ & _ & k & Hf & ->)|(_ & _ & _ & _ & ->)]];
      cbn [class after stored_entry].
    + done.
    + by rewrite Hf.
    + by destruct (emplace_each_char_params
                     (trim_leading_dashes (arg_at p i)) p) as [-> _].
  - pose proof (before_decision_shape _ _ _ _ Eb) as ((Ha & _) & _).
    assert (Hkey : params_ p' = params_ p
              /\ name' = if (length (arg_at p i)
                              - length (trim_leading_dashes (arg_at p i)) =? 1)%nat
                            && has_bit SINGLE_DASH_IS_MULTIFLAG mode
                            && negb (is_param p (trim_leading_dashes (arg_at p i)))
                         then [back (trim_leading_dashes (arg_at p i))]
                         else trim_leading_dashes (arg_at p i)).
    { destruct Hc as (_ & _ & [(-> & -> & Hwhy)|(Hm & Hl & Hr & _ & _ & -> & ->)]).
      - split; [done|].
        destruct Hwhy as [-> | [Hl | ->]];
          rewrite ?andb_false_r; try done.
        apply Nat.eqb_neq in Hl. by rewrite Hl.
      - split; [by destruct (emplace_each_char_params
                               (drop_back (trim_leading_dashes (arg_at p i))) p)|].
        by rewrite Hl, Hm, Hr. }
    destruct Hkey as [Hp Hname].
    apply value_decision_cases in Hb as [(-> & _)|(-> & Hne & _)];
      cbn [class after stored_entry params_ flags_emplace params_insert].
    + done.
    + rewrite Ha in Hne. rewrite (args_lookup_next p i Hi).
      replace (i =? length (args_ p) - 1)%nat with false
        by (symmetry; by apply Nat.eqb_neq).
      rewrite Hname, Hp. unfold arg_at. by rewrite Ha.
Qed.

(** The entries of every key are the entries inserted under the key, in
    the order of the tokens that inserted them. *)
Lemma parse_traced_insertions argv mode p q tr :
  parse_traced argv mode p = Done (q, tr) ->
  forall k, entries_of k (params_ q) = entries_of k (insertions mode p argv tr).
Proof.
  intros H. unfold parse_traced in H.
  destruct (parse_loop_invariant
    (fun i p' t =>
       args_ p' = argv /\ registeredParams_ p' = registeredParams_ p
       /\ length t = i /\ key_sorted (params_ p')
       /\ forall k, entries_of k (params_ p')
                    = entries_of k (insertions mode p argv t))
    mode)
    with (fuel := length argv) (i := 0%nat) (p := set_args argv (clear p))
         (tr := @nil token_class) (q := q) (tr' := tr)
    as (_ & (_ & _ & _ & _ & Hall) & _); try done.
  - clear. intros i p' t r (Ha & Hr & Hlen & Hs & Hall) Hi Hb.
    pose proof (parse_body_shape _ _ _ _ Hb) as ((Ha' & Hr' & _) & Hend & _).
    pose proof (parse_body_stores _ _ _ _ Hi Hb) as Hst.
    rewrite (stored_entry_registered mode p p' _ _ _ Hr) in Hst.
    pose proof (arg_at_lookup p' i Hi) as Htok.
    rewrite Ha in *.
    split; [congruence|]. split; [congruence|].
    assert (Hchunk : insertions_from mode p argv i (classes_of i r)
                     = match stored_entry mode p (arg_at p' i) (argv !! S i)
                               (class r) with
                       | Some e => [e]
                       | None => []
                       end
                     /\ length (classes_of i r) = (S (end_i r) - i)%nat).
    { unfold classes_of. destruct Hend as [->|(-> & Hc & _)].
      - rewrite Nat.eqb_refl. cbn [insertions_from length]. rewrite Htok.
        rewrite app_nil_r. split; [done|lia].
      - replace (i + 1 =? i)%nat with false
          by (symmetry; apply Nat.eqb_neq; lia).
        cbn [insertions_from length]. rewrite Htok.
        split; [|lia].
        destruct (argv !! S i); cbn [stored_entry]; by rewrite !app_nil_r. }
    destruct Hchunk as [Hchunk Hcl].
    split; [rewrite length_app, Hcl; destruct Hend as [->|(-> & _)]; lia|].
    split; [by eapply parse_body_keeps_sorted|].
    intros k. unfold insertions in *. rewrite insertions_from_app.
    cbn [Nat.add]. rewrite Hlen, Hchunk, entries_of_app, <- Hall, Hst.
    destruct (stored_entry mode p (arg_at p' i) (argv !! S i) (class r)).
    + by apply entries_of_insert.
    + by rewrite app_nil_r.
  - simpl. repeat split; try done. constructor.
Qed.

(** The first token that inserts an entry under a key provides the first
    of the inserted entries of that key. *)
Lemma insertions_first mode p argv k tr :
  forall j0 j tok c e,
    argv !! (j0 + j)%nat = Some tok -> tr !! j = Some c ->
    stored_entry mode p tok (argv !! S (j0 + j)) c = Some e ->
    fst e = k ->
    (forall j' tok' c' e',
       (j' < j)%nat -> argv !! (j0 + j')%nat = Some tok' -> tr !! j' = Some c' ->
       stored_entry mode p tok' (argv !! S (j0 + j')) c' = Some e' ->
       fst e' <> k) ->
    exists rest,
      entries_of k (insertions_from mode p argv j0 tr) = e :: rest.
Proof.
  induction tr as [|c0 tr IH]; intros j0 j tok c e Htok Hc He Hk Hfirst;
    [done|].
  cbn [insertions_from]. rewrite entries_of_app.
  destruct j as [|j].
  - rewrite Nat.add_0_r in Htok, He. simpl in Hc. injection Hc as ->.
    rewrite Htok, He, entries_of_cons, bool_decide_eq_true_2 by done.
    simpl. eauto.
  - destruct (IH (S j0) j tok c e) as [rest Hrest]; try done.
    { by replace (S j0 + j)%nat with (j0 + S j)%nat by lia. }
    { by replace (S j0 + j)%nat with (j0 + S j)%nat by lia. }
    { intros j' tok' c' e' Hlt Ht' Hc' He'.
      apply (Hfirst (S j') tok' c' e'); try done; try lia;
        by replace (j0 + S j')%nat with (S j0 + j')%nat by lia. }
    exists rest. rewrite Hrest.
    assert (Hhead : entries_of k
              match argv !! j0 with
              | Some tok0 =>
                  match stored_entry mode p tok0 (argv !! S j0) c0 with
                  | Some e0 => [e0]
                  | None => []
                  end
              | None => []
              end = []).
    { destruct (argv !! j0) as [tok0|] eqn:E0; [|done].
      destruct (stored_entry mode p tok0 (argv !! S j0) c0) as [e0|] eqn:E1;
        [|done].
      rewrite entries_of_cons, bool_decide_eq_false_2; [done|].
      apply (Hfirst 0%nat tok0 c0 e0); rewrite ?Nat.add_0_r; try done. lia. }
    exact (f_equal (fun l => l ++ e :: rest) Hhead).
Qed.

(** X2. After a completed parse, [operator()(name)] fails exactly when no
    parameter entry has the dash-trimmed [name] as its key; otherwise it
    is a good stream over the value of the first element of
    [params(name)]. The entries of a key stand in the order in which their
    tokens stand on the command line: [params(name)] lists the values in
    input order, and [operator()(name)] answers with the value inserted
    by the first token of the command line that inserts an entry under
    that name - for a repeated parameter the first value wins. *)
Theorem call_param_after_parse argv mode p q name :
  parse argv mode p = Done q ->
  (Stream.fail (call_param q name) = true
   <-> forall v, ~ In (trim_leading_dashes name, v) (params_ q))
  /\ (forall e rest,
        wrapper_elements (params_of q name) = e :: rest ->
        fst e = trim_leading_dashes name
        /\ call_param q name = Stream.of_wstring (snd e)
        /\ Stream.fail (call_param q name) = false)
  /\ exists tr,
       parse_traced argv mode p = Done (q, tr)
       /\ wrapper_elements (params_of q name)
          = entries_of (trim_leading_dashes name) (insertions mode p argv tr)
       /\ forall j tok c e,
            argv !! j = Some tok -> tr !! j = Some c ->
            stored_entry mode p tok (argv !! S j) c = Some e ->
            fst e = trim_leading_dashes name ->
            (forall j' tok' c' e',
               (j' < j)%nat -> argv !! j' = Some tok' -> tr !! j' = Some c' ->
               stored_entry mode p tok' (argv !! S j') c' = Some e' ->
               fst e' <> trim_leading_dashes name) ->
            call_param q name = Stream.of_wstring (snd e)
            /\ exists rest, wrapper_elements (params_of q name) = e :: rest.
Proof.
  intros H. apply parse_params_sorted in H as Hs.
  pose proof (params_of_sorted q name Hs) as (_ & Hrange & _).
  rewrite Hrange, call_param_first by done. split; [|split].
  - rewrite <- entries_of_nil. destruct (entries_of _ _); simpl; split; done.
  - intros e rest He. rewrite He. split; [|done].
    assert (Hin : In e (entries_of (trim_leading_dashes name) (params_ q)))
      by (rewrite He; by left).
    by apply entries_of_In in Hin as [_ ?].
  - unfold parse in H.
    destruct (parse_traced argv mode p) as [[q' tr]| |] eqn:E;
      simpl in H; try discriminate H.
    injection H as ->. exists tr. split; [done|].
    rewrite (parse_traced_insertions _ _ _ _ _ E). split; [done|].
    intros j tok c e Htok Hc He Hk Hfirst.
    destruct (insertions_first mode p argv (trim_leading_dashes name) tr
                0%nat j tok c e) as [rest Hrest]; try done.
    unfold insertions. rewrite Hrest. eauto.
Qed.

Lemma call_param_after_parse_witness :
  exists q,
    parse [L"-I"; L"a"; L"-I"; L"b"] PREFER_PARAM_FOR_UNREG_OPTION new_parser
    = Done q
    /\ call_param q (L"--I") = Stream.of_wstring (L"a")
    /\ wrapper_elements (params_of q (L"--I")) = [(L"I", L"a"); (L"I", L"b")].
Proof.
  destruct (parse [L"-I"; L"a"; L"-I"; L"b"] PREFER_PARAM_FOR_UNREG_OPTION
              new_parser) as [q| |] eqn:E;
    try (vm_compute in E; discriminate E).
  exists q. split; [reflexivity|].
  destruct (call_param_after_parse _ _ _ _ (L"--I") E)
    as (_ & _ & tr & Htr & Hall & Hfirst).
  vm_compute in Htr. injection Htr as <- <-.
  split.
  - destruct (Hfirst 0%nat (L"-I") ParamWithValue (L"I", L"a")
                eq_refl eq_refl eq_refl eq_refl) as [H1 _].
    { intros j' tok' c' e' Hlt. lia. }
    exact H1.
  - rewrite Hall. vm_compute. reflexivity.
Defined.
